(** * MCP Data Explorer: host relay and backend query engine

    A shallow embedding of the two TypeScript programs of the repository:

    - the backend server (dataset store, [applyFilters], [sortData],
      [aggregateData], [getFieldStats] and the five tool endpoints);
    - the host page's [handleMessage] relay between the embedded
      application and the backend.

    JavaScript values are modelled as an inductive type, numbers as IEEE-754
    binary64 floats (Rocq's primitive floats, the same format as a JavaScript
    Number), exceptions as an error result, arrays of rows as cells of an
    explicit heap so that in-place [Array.prototype.sort] and copies made by
    spread, [filter] and [slice] can be told apart. *)

From Stdlib Require Import ZArith Floats String Ascii List Bool Lia Permutation.
From Stdlib Require Import DecimalString Sorted.
From stdpp Require Import base list.

Set Warnings "-inexact-float".

Local Open Scope string_scope.
Local Open Scope list_scope.

(* ===================================================================== *)
(** ** Exceptions *)
(* ===================================================================== *)

(** A thrown [Error] object: its [name] and [message] properties. *)
Record js_error := JsError { err_name : string; err_message : string }.

Definition TypeError (msg : string) : js_error := JsError "TypeError" msg.

(** [String(error)], i.e. [Error.prototype.toString]. *)
Definition String_of_error (e : js_error) : string :=
  if String.eqb (err_name e) "" then err_message e
  else if String.eqb (err_message e) "" then err_name e
  else (err_name e ++ ": " ++ err_message e)%string.

(** The result of evaluating an expression that may throw. *)
Inductive outcome (A : Type) : Type :=
| Ret (a : A)
| Throw (e : js_error).
Arguments Ret {A} a.
Arguments Throw {A} e.

#[global] Instance outcome_ret : MRet outcome := @Ret.
#[global] Instance outcome_bind : MBind outcome :=
  fun A B f m => match m with Ret a => f a | Throw e => Throw e end.
#[global] Instance outcome_fmap : FMap outcome :=
  fun A B f m => match m with Ret a => Ret (f a) | Throw e => Throw e end.

Definition returns {A} (m : outcome A) : bool :=
  match m with Ret _ => true | Throw _ => false end.

(* ===================================================================== *)
(** ** JavaScript values *)
(* ===================================================================== *)

(** The values the backend meets: what [JSON.parse] produces, [undefined],
    and the members of [Object.prototype] that a property read on a parsed
    object reaches when the object has no own property of that name.  An
    object is the list of its own properties in insertion order (keys
    distinct).  Strings are sequences of 8-bit code units.  Parsed objects and
    arrays have no identity here: each is a fresh product of [JSON.parse], so
    two of them reached through different rows or through a row and a request
    are never the same reference.  A member of [Object.prototype] is one
    object per name ([VBuiltin name]): the functions [constructor],
    [toString], ..., and, under [__proto__], [Object.prototype] itself. *)
#[warnings="-register-all"]
Inductive value : Type :=
| VUndef
| VNull
| VBool (b : bool)
| VNum (n : float)
| VStr (s : string)
| VArr (items : list value)
| VObj (props : list (string * value))
| VBuiltin (name : string).

(** A row of a dataset: the own properties of a plain object. *)
Definition Row : Type := list (string * value).

Fixpoint assoc {A} (k : string) (l : list (string * A)) : option A :=
  match l with
  | [] => None
  | (k', v) :: l' => if String.eqb k k' then Some v else assoc k l'
  end.

Definition has_own {A} (k : string) (l : list (string * A)) : bool :=
  match assoc k l with Some _ => true | None => false end.

(** The property names of [Object.prototype] (with those of Annex B, which
    Node.js implements). *)
Definition object_prototype_names : list string :=
  ["constructor"; "hasOwnProperty"; "isPrototypeOf"; "propertyIsEnumerable";
   "toLocaleString"; "toString"; "valueOf"; "__proto__";
   "__defineGetter__"; "__defineSetter__"; "__lookupGetter__"; "__lookupSetter__"].

Definition is_inherited (name : string) : bool :=
  existsb (String.eqb name) object_prototype_names.

(** [row[field]]: the own property; without one, the member of
    [Object.prototype] of that name; without that, [undefined]. *)
Definition row_get (row : Row) (field : string) : value :=
  match assoc field row with
  | Some v => v
  | None => if is_inherited field then VBuiltin field else VUndef
  end.

(** The parts of the runtime that are written in neither program: number
    formatting and parsing, case mapping, collation, the text that
    [Function.prototype.toString] gives for the built-in function found under
    a property name of [Object.prototype], and the number of arguments that a
    call can take from a spread array (beyond it the engine throws a
    [RangeError]).  [localeCompare] returns a negative, zero or positive
    integer. *)
Class JSRuntime : Type := {
  NumberToString : float -> string;
  StringToNumber : string -> float;
  toLowerCase : string -> string;
  localeCompare : string -> string -> Z;
  NativeFunctionToString : string -> string;
  MaxArguments : N
}.

Section Coercions.
Context `{JSRuntime}.

(** [ToString].  A plain object prints as [[object Object]] through
    [Object.prototype.toString]; an own property named [toString] (never
    callable in parsed data) shadows it, [valueOf] returns the object, and
    [OrdinaryToPrimitive] throws.  An array prints through
    [Array.prototype.join]. *)
Fixpoint ToString (v : value) : outcome string :=
  match v with
  | VUndef => Ret "undefined"
  | VNull => Ret "null"
  | VBool true => Ret "true"
  | VBool false => Ret "false"
  | VNum n => Ret (NumberToString n)
  | VStr s => Ret s
  | VArr items =>
      (fix join (l : list value) : outcome string :=
         match l with
         | [] => Ret ""
         | x :: rest =>
             let elem :=
               match x with
               | VUndef | VNull => Ret ""
               | _ => ToString x
               end in
             match rest with
             | [] => elem
             | _ :: _ =>
                 match elem with
                 | Ret s =>
                     match join rest with
                     | Ret r => Ret (s ++ "," ++ r)%string
                     | Throw e => Throw e
                     end
                 | Throw e => Throw e
                 end
             end
         end) items
  | VObj props =>
      if has_own "toString" props
      then Throw (TypeError "Cannot convert object to primitive value")
      else Ret "[object Object]"
  | VBuiltin name =>
      if String.eqb name "__proto__" then Ret "[object Object]"
      else Ret (NativeFunctionToString name)
  end.

(** [ToPrimitive]: identity on primitives; on arrays, objects and
    functions [valueOf] yields the object itself, so both hints end in
    [toString]. *)
Definition ToPrimitive (v : value) : outcome value :=
  match v with
  | VArr _ | VObj _ | VBuiltin _ => s ← ToString v; Ret (VStr s)
  | _ => Ret v
  end.

(** [ToNumber] / [Number(v)]. *)
Definition ToNumber (v : value) : outcome float :=
  match v with
  | VUndef => Ret nan
  | VNull => Ret 0%float
  | VBool true => Ret 1%float
  | VBool false => Ret 0%float
  | VNum n => Ret n
  | VStr s => Ret (StringToNumber s)
  | VArr _ | VObj _ | VBuiltin _ => s ← ToString v; Ret (StringToNumber s)
  end.

(** [ToBoolean]. *)
Definition truthy (v : value) : bool :=
  match v with
  | VUndef | VNull => false
  | VBool b => b
  | VNum n => negb (is_zero n || is_nan n)
  | VStr s => negb (String.eqb s "")
  | VArr _ | VObj _ | VBuiltin _ => true
  end.

(** [a === b]. *)
Definition strict_eq (a b : value) : bool :=
  match a, b with
  | VUndef, VUndef => true
  | VNull, VNull => true
  | VBool x, VBool y => Bool.eqb x y
  | VNum x, VNum y => (x =? y)%float
  | VStr x, VStr y => String.eqb x y
  | VBuiltin x, VBuiltin y => String.eqb x y
  | _, _ => false
  end.

(** [SameValueZero], the equality of [Array.prototype.includes]. *)
Definition same_value_zero (a b : value) : bool :=
  match a, b with
  | VNum x, VNum y => (x =? y)%float || (is_nan x && is_nan y)
  | _, _ => strict_eq a b
  end.

(** [IsLessThan(x, y, LeftFirst)]: [None] is the spec's [undefined]. *)
Definition IsLessThan (x y : value) (leftFirst : bool) : outcome (option bool) :=
  '(px, py) ← (if leftFirst
               then px ← ToPrimitive x; py ← ToPrimitive y; Ret (px, py)
               else py ← ToPrimitive y; px ← ToPrimitive x; Ret (px, py));
  match px, py with
  | VStr a, VStr b => Ret (Some (String.ltb a b))
  | _, _ =>
      nx ← ToNumber px;
      ny ← ToNumber py;
      Ret (if is_nan nx || is_nan ny then None else Some (nx <? ny)%float)
  end.

Definition is_true (r : option bool) : bool :=
  match r with Some true => true | _ => false end.
Definition is_false (r : option bool) : bool :=
  match r with Some false => true | _ => false end.

(** [a < b], [a > b], [a <= b], [a >= b]. *)
Definition js_lt (a b : value) : outcome bool := is_true <$> IsLessThan a b true.
Definition js_gt (a b : value) : outcome bool := is_true <$> IsLessThan b a false.
Definition js_le (a b : value) : outcome bool := is_false <$> IsLessThan b a false.
Definition js_ge (a b : value) : outcome bool := is_false <$> IsLessThan a b true.

(** [s.includes(t)] on strings. *)
Definition string_includes (s t : string) : bool :=
  match String.index 0 t s with Some _ => true | None => false end.

End Coercions.

(* ===================================================================== *)
(** ** Library calls used by the programs *)
(* ===================================================================== *)

(** [array.every(cb)]: stops at the first [false]; an exception escapes. *)
Fixpoint everyM {A} (p : A -> outcome bool) (l : list A) : outcome bool :=
  match l with
  | [] => Ret true
  | x :: l' => b ← p x; if b : bool then everyM p l' else Ret false
  end.

(** [array.filter(cb)]: the elements for which the callback is true, in
    order; the first exception escapes. *)
Fixpoint filterM {A} (p : A -> outcome bool) (l : list A) : outcome (list A) :=
  match l with
  | [] => Ret []
  | x :: l' => b ← p x; r ← filterM p l'; Ret (if b : bool then x :: r else r)
  end.

(** [array.map(cb)] and a [for ... of] loop that builds an array: the
    results in order; the first exception escapes. *)
Fixpoint mapM {A B} (f : A -> outcome B) (l : list A) : outcome (list B) :=
  match l with
  | [] => Ret []
  | x :: l' => y ← f x; r ← mapM f l'; Ret (y :: r)
  end.

(** [Array.prototype.sort] with a comparator.  The engine's algorithm is not
    part of the repository.  ECMAScript fixes the result only for a
    comparator that is consistent on the elements (see [consistent] and
    [conforming_sort] below): then every engine returns the one stable sorted
    order, which is the list computed here.  With an inconsistent comparator
    the order is the engine's own choice; the list computed here is one
    permitted order and need not be the one a given engine returns, so
    nothing about the order is stated for such comparators.  The comparator's
    number is read by its sign ([NaN] counts as 0). *)
Fixpoint insertM {A} (cmp : A -> A -> outcome Z) (x : A) (l : list A)
  : outcome (list A) :=
  match l with
  | [] => Ret [x]
  | y :: l' =>
      c ← cmp x y;
      if (c <=? 0)%Z then Ret (x :: y :: l')
      else r ← insertM cmp x l'; Ret (y :: r)
  end.

Fixpoint js_sort {A} (cmp : A -> A -> outcome Z) (l : list A) : outcome (list A) :=
  match l with
  | [] => Ret []
  | x :: l' => s ← js_sort cmp l'; insertM cmp x s
  end.

(** [array.slice(start, end)] for integer arguments: a negative index counts
    from the end, and both ends are clamped to the array. *)
Definition slice_index (len i : Z) : Z :=
  if (i <? 0)%Z then Z.max (len + i) 0 else Z.min i len.

Definition js_slice {A} (l : list A) (start end_ : Z) : list A :=
  let len := Z.of_nat (length l) in
  let k := slice_index len start in
  let final := slice_index len end_ in
  firstn (Z.to_nat (final - k)) (skipn (Z.to_nat k) l).

(** The index that [slice] makes of an argument that is any Number:
    [ToIntegerOrInfinity] cuts off the fraction ([NaN] counts as 0), then the
    index is clamped as above. *)
Definition slice_index_of_number (len : Z) (x : float) : Z :=
  match Prim2SF x with
  | S754_nan | S754_zero _ => 0%Z
  | S754_infinity true => 0%Z
  | S754_infinity false => len
  | S754_finite s m e => slice_index len (cond_Zopp s (Z.shiftl (Zpos m) e))
  end.

(** [array.slice(start, end)] for arguments that are any Numbers. *)
Definition js_slice_numbers {A} (l : list A) (start end_ : float) : list A :=
  let len := Z.of_nat (length l) in
  let k := slice_index_of_number len start in
  let final := slice_index_of_number len end_ in
  firstn (Z.to_nat (final - k)) (skipn (Z.to_nat k) l).

(** The sign of a comparator's numeric result. *)
Definition sign_of_float (d : float) : Z :=
  if (d <? 0)%float then (-1)%Z else if (0 <? d)%float then 1%Z else 0%Z.

(** [Math.round]: the nearest integer, ties towards +infinity.  Below 2^52
    the integer part is obtained by adding and subtracting 2^52. *)
Definition two52 : float := 4503599627370496%float.

Definition trunc_abs (a : float) : float :=
  let t := ((a + two52) - two52)%float in
  if (a <? t)%float then (t - 1)%float else t.

Definition Math_round (x : float) : float :=
  if is_nan x then x
  else if is_zero x then x
  else if (two52 <=? abs x)%float then x
  else if (x <? 0)%float then
    let a := abs x in
    let tr := trunc_abs a in
    if (0.5 <? a - tr)%float then (- (tr + 1))%float else (- tr)%float
  else
    let tr := trunc_abs x in
    if (0.5 <=? x - tr)%float then (tr + 1)%float else tr.

(** [Math.min] and [Math.max] applied to the arguments [values]. *)
Definition Math_min (values : list float) : float :=
  if existsb is_nan values then nan
  else fold_left (fun lowest n =>
         if is_zero n && is_zero lowest && get_sign n then n
         else if (n <? lowest)%float then n else lowest) values infinity.

Definition Math_max (values : list float) : float :=
  if existsb is_nan values then nan
  else fold_left (fun highest n =>
         if is_zero n && is_zero highest && negb (get_sign n) then n
         else if (highest <? n)%float then n else highest) values neg_infinity.

(** [values.length] as a Number. *)
Definition float_of_nat (n : nat) : float :=
  of_uint63 (Uint63.of_Z (Z.of_nat n)).


(* ===================================================================== *)
(** ** Backend: the query engine *)
(* ===================================================================== *)

(** [interface Filter].  The operator is whatever string the request
    carries; the value is [unknown]. *)
Record Filter := mkFilter {
  f_field : string;
  f_operator : string;
  f_value : value
}.

(** The [sort] argument of a query. *)
Record SortSpec := mkSort { s_field : string; s_direction : string }.

Section QueryEngine.
Context `{JSRuntime}.

(** [array.includes(v)]. *)
Definition array_includes (items : list value) (v : value) : bool :=
  existsb (fun x => same_value_zero x v) items.

(** [(filter.value as unknown[]).includes(value)]: the cast is erased, so
    the method is looked up on whatever the filter value is.  Arrays and
    strings have one; on a number, boolean or object the property is not a
    function, and on [null] or [undefined] the lookup itself throws. *)
Definition call_includes (recv arg : value) : outcome bool :=
  match recv with
  | VArr items => Ret (array_includes items arg)
  | VStr s => t ← ToString arg; Ret (string_includes s t)
  | VUndef =>
      Throw (TypeError "Cannot read properties of undefined (reading 'includes')")
  | VNull =>
      Throw (TypeError "Cannot read properties of null (reading 'includes')")
  | VBool _ | VNum _ | VObj _ | VBuiltin _ =>
      Throw (TypeError "filter.value.includes is not a function")
  end.

(** The callback of [filters.every] in [applyFilters]. *)
Definition eval_filter (row : Row) (filter : Filter) : outcome bool :=
  let value := row_get row (f_field filter) in
  let op := f_operator filter in
  if String.eqb op "eq" then Ret (strict_eq value (f_value filter))
  else if String.eqb op "ne" then Ret (negb (strict_eq value (f_value filter)))
  else if String.eqb op "gt" then js_gt value (f_value filter)
  else if String.eqb op "gte" then js_ge value (f_value filter)
  else if String.eqb op "lt" then js_lt value (f_value filter)
  else if String.eqb op "lte" then js_le value (f_value filter)
  else if String.eqb op "contains" then
    a ← ToString value;
    b ← ToString (f_value filter);
    Ret (string_includes (toLowerCase a) (toLowerCase b))
  else if String.eqb op "in" then call_includes (f_value filter) value
  else Ret true.

(** The callback of [data.filter] in [applyFilters]. *)
Definition row_passes (filters : list Filter) (row : Row) : outcome bool :=
  everyM (eval_filter row) filters.

(** [applyFilters] on the contents of the array. *)
Definition filter_rows (data : list Row) (filters : list Filter)
  : outcome (list Row) :=
  filterM (row_passes filters) data.

(** The comparator passed to [sort] in [sortData]. *)
Definition sort_compare (sort : SortSpec) (a b : Row) : outcome Z :=
  let aVal := row_get a (s_field sort) in
  let bVal := row_get b (s_field sort) in
  if strict_eq aVal bVal then Ret 0%Z
  else
    comparison ←
      match aVal, bVal with
      | VStr x, VStr y => Ret (localeCompare x y)
      | _, _ => lt ← js_lt aVal bVal; Ret (if lt : bool then (-1)%Z else 1%Z)
      end;
    Ret (if String.eqb (s_direction sort) "asc" then comparison
         else (- comparison)%Z).

(** [sortData] on the contents of the array. *)
Definition sort_rows (data : list Row) (sort : SortSpec) : outcome (list Row) :=
  js_sort (sort_compare sort) data.

(** [Number(x) || 0]. *)
Definition number_or_zero (n : float) : float :=
  if is_zero n || is_nan n then 0%float else n.

(** The [Map<string, number[]>] of [aggregateData], in insertion order:
    [if (!groups.has(k)) groups.set(k, []); groups.get(k).push(v)]. *)
Fixpoint groups_push (groups : list (string * list float))
         (key : string) (v : float) : list (string * list float) :=
  match groups with
  | [] => [(key, [v])]
  | (k, vs) :: rest =>
      if String.eqb k key then (k, vs ++ [v]) :: rest
      else (k, vs) :: groups_push rest key v
  end.

(** The first loop of [aggregateData]. *)
Fixpoint collect_groups (groupBy metric : string) (data : list Row)
         (groups : list (string * list float))
  : outcome (list (string * list float)) :=
  match data with
  | [] => Ret groups
  | row :: rest =>
      groupKey ← ToString (row_get row groupBy);
      n ← ToNumber (row_get row metric);
      collect_groups groupBy metric rest
        (groups_push groups groupKey (number_or_zero n))
  end.

Definition sum_values (values : list float) : float :=
  fold_left (fun a b => (a + b)%float) values 0%float.

(** [f(...values)]: the call takes one argument per element, and the
    engine throws when there are more than it can pass. *)
Definition spread_call (f : list float -> float) (values : list float)
  : outcome float :=
  if (MaxArguments <? N.of_nat (length values))%N
  then Throw (JsError "RangeError" "Maximum call stack size exceeded")
  else Ret (f values).

(** The [switch (operation)] of [aggregateData]. *)
Definition apply_operation (operation : string) (values : list float)
  : outcome float :=
  if String.eqb operation "sum" then Ret (sum_values values)
  else if String.eqb operation "avg" then
    Ret (sum_values values / float_of_nat (length values))%float
  else if String.eqb operation "count" then Ret (float_of_nat (length values))
  else if String.eqb operation "min" then spread_call Math_min values
  else if String.eqb operation "max" then spread_call Math_max values
  else Ret 0%float.

(** [Math.round(value * 100) / 100]. *)
Definition round2 (v : float) : float := (Math_round (v * 100) / 100)%float.

(** The comparator [(a, b) => b.value - a.value]. *)
Definition by_value_desc (a b : string * float) : outcome Z :=
  Ret (sign_of_float (snd b - snd a)%float).

Definition aggregateData (data : list Row) (groupBy metric operation : string)
  : outcome (list (string * float)) :=
  groups ← collect_groups groupBy metric data [];
  results ← mapM (fun g => value ← apply_operation operation (snd g);
                           Ret (fst g, round2 value)) groups;
  js_sort by_value_desc results.

End QueryEngine.

(* ===================================================================== *)
(** ** Backend: field statistics *)
(* ===================================================================== *)

Inductive field_stats : Type :=
| NumberStats (min max avg : float)
| StringStats (uniqueCount : nat) (values : list value)
| NoStats.

Section FieldStats.
Context `{JSRuntime}.

(** [unique.add(v)] on a [Set], kept in insertion order; [-0] is stored
    as [+0]. *)
Definition set_add (s : list value) (v : value) : list value :=
  let v := match v with
           | VNum n => if is_zero n then VNum 0%float else v
           | _ => v
           end in
  if existsb (same_value_zero v) s then s else s ++ [v].

Definition is_undefined (v : value) : bool :=
  match v with VUndef => true | _ => false end.

(** The comparator of [sort()] without an argument: by string form. *)
Definition default_compare (x y : value) : outcome Z :=
  xs ← ToString x;
  ys ← ToString y;
  Ret (if String.ltb xs ys then (-1)%Z
       else if String.ltb ys xs then 1%Z else 0%Z).

(** [array.sort()]: [undefined] elements go last, unsorted. *)
Definition default_sort (l : list value) : outcome (list value) :=
  s ← js_sort default_compare (List.filter (fun v => negb (is_undefined v)) l);
  Ret (s ++ List.filter is_undefined l).

Definition getUniqueValues (data : list Row) (field : string)
  : outcome (list value) :=
  default_sort (fold_left (fun unique row => set_add unique (row_get row field))
                          data []).

Definition getFieldStats (data : list Row) (field type : string)
  : outcome field_stats :=
  if String.eqb type "number" then
    numbers ← mapM (fun row => ToNumber (row_get row field)) data;
    let values := List.filter (fun v => negb (is_nan v)) numbers in
    lowest ← spread_call Math_min values;
    highest ← spread_call Math_max values;
    Ret (NumberStats lowest highest
           (round2 (sum_values values / float_of_nat (length values))%float))
  else if String.eqb type "string" then
    unique ← getUniqueValues data field;
    Ret (StringStats (length unique) (js_slice unique 0 50))
  else Ret NoStats.

End FieldStats.

(* ===================================================================== *)
(** ** Backend: the dataset store and the heap of row arrays *)
(* ===================================================================== *)

(** A reference to an array of rows. *)
Definition loc : Type := nat.

(** [interface Dataset].  [ds_schema] lists the entries of the schema object
    in [Object.keys] order; [ds_data] is the reference held in the [data]
    property. *)
Record Dataset := mkDataset {
  ds_name : string;
  ds_description : string;
  ds_schema : list (string * string);
  ds_data : loc
}.

(** The server's mutable state: the global [datasets] map (insertion
    order) and the arrays of rows that exist.  Neither program assigns to a
    property of a row, so the rows themselves are values. *)
Record server_state := mkState {
  datasets : list (string * Dataset);
  arrays : list (list Row)
}.

(** Every dataset's [data] refers to an existing array. *)
Definition wf_state (st : server_state) : Prop :=
  forall name ds, In (name, ds) (datasets st) -> ds_data ds < length (arrays st).

(** Computations of a request handler: they read and write the state and
    may throw (Express then answers with status 500). *)
Definition M (A : Type) : Type := server_state -> server_state * outcome A.

#[global] Instance M_ret : MRet M := fun A a st => (st, Ret a).
#[global] Instance M_bind : MBind M :=
  fun A B f m st =>
    match m st with
    | (st', Ret a) => f a st'
    | (st', Throw e) => (st', Throw e)
    end.

Definition lift {A} (o : outcome A) : M A := fun st => (st, o).

(** Reading an array through its reference. *)
Definition array_read (l : loc) : M (list Row) :=
  fun st => (st, Ret (default [] (arrays st !! l))).

(** A newly created array. *)
Definition array_alloc (rows : list Row) : M loc :=
  fun st => (mkState (datasets st) (arrays st ++ [rows]), Ret (length (arrays st))).

(** Overwriting the contents of an array in place. *)
Definition array_write (l : loc) (rows : list Row) : M unit :=
  fun st => (mkState (datasets st) (<[l := rows]> (arrays st)), Ret tt).

(** [datasets.get(name)] and [Array.from(datasets.values())]. *)
Definition datasets_get (name : string) : M (option Dataset) :=
  fun st => (st, Ret (assoc name (datasets st))).
Definition datasets_values : M (list Dataset) :=
  fun st => (st, Ret (map snd (datasets st))).

Fixpoint mapMM {A B} (f : A -> M B) (l : list A) : M (list B) :=
  match l with
  | [] => mret []
  | x :: l' => y ← f x; r ← mapMM f l'; mret (y :: r)
  end.

(* ===================================================================== *)
(** ** Backend: the tool endpoints *)
(* ===================================================================== *)

Record DatasetInfo := mkInfo {
  di_name : string;
  di_description : string;
  di_recordCount : nat;
  di_columns : list string
}.

(** The [content] of an export: the CSV text, or the rows whose
    [JSON.stringify(data, null, 2)] text it is. *)
Inductive export_content : Type :=
| CsvText (text : string)
| JsonText (data : list Row).

(** The object handed to [JSON.stringify] for the [text] of the result. *)
Inductive payload : Type :=
| PNotFound
| PDatasets (l : list DatasetInfo)
| PSchema (name description : string) (recordCount : nat)
          (schema : list (string * (string * field_stats)))
| PQuery (data : list Row) (totalCount : nat) (offset limit : Z) (hasMore : bool)
| PAggregate (groupBy metric operation : string) (results : list (string * float))
| PExport (format : string) (recordCount : nat) (content : export_content).

(** [{ content: [{ type: 'text', text }], isError }]. *)
Record envelope := mkEnvelope { env_payload : payload; env_isError : bool }.

Definition not_found : envelope := mkEnvelope PNotFound true.

(** The request bodies; [None] is an omitted property.  [limit] and
    [offset] are integers, as the view sends them (a page size of 50 and
    its multiples); on integers the additions and comparisons of the handler
    are exact.  JSON can also carry a number with a fraction, whose two
    bounds [slice] truncates one by one: such requests are not described by
    this type, and the statements about paging are about integers only. *)
Record QueryParams := mkQuery {
  q_dataset : string;
  q_filters : option (list Filter);
  q_sort : option SortSpec;
  q_limit : option Z;
  q_offset : option Z
}.

Record AggregateParams := mkAggregate {
  a_dataset : string;
  a_groupBy : string;
  a_metric : string;
  a_operation : string
}.

Record ExportParams := mkExport {
  e_dataset : string;
  e_filters : option (list Filter);
  e_format : option string
}.

Inductive tool_call : Type :=
| CallListDatasets
| CallGetSchema (dataset : string)
| CallQueryData (p : QueryParams)
| CallAggregate (p : AggregateParams)
| CallExportData (p : ExportParams).

Definition quote_char : string := String (ascii_of_nat 34) EmptyString.
Definition newline : string := String (ascii_of_nat 10) EmptyString.

Section Tools.
Context `{JSRuntime}.

(** [[...data]]. *)
Definition array_copy (data : loc) : M loc :=
  rows ← array_read data; array_alloc rows.

(** [applyFilters(data, filters)]: [data.filter] builds a new array. *)
Definition applyFilters (data : loc) (filters : list Filter) : M loc :=
  rows ← array_read data;
  kept ← lift (filter_rows rows filters);
  array_alloc kept.

(** [sortData(data, sort)]: [[...data].sort(cmp)] sorts the copy in place
    and returns it. *)
Definition sortData (data : loc) (sort : SortSpec) : M loc :=
  copy ← array_copy data;
  rows ← array_read copy;
  sorted ← lift (sort_rows rows sort);
  _ ← array_write copy sorted;
  mret copy.

(** [data.slice(start, end)]. *)
Definition array_slice (data : loc) (start end_ : Z) : M loc :=
  rows ← array_read data; array_alloc (js_slice rows start end_).

Definition list_datasets : M envelope :=
  all ← datasets_values;
  result ← mapMM (fun ds =>
              rows ← array_read (ds_data ds);
              mret (mkInfo (ds_name ds) (ds_description ds) (length rows)
                           (map fst (ds_schema ds)))) all;
  mret (mkEnvelope (PDatasets result) false).

Definition get_schema (datasetName : string) : M envelope :=
  found ← datasets_get datasetName;
  match found with
  | None => mret not_found
  | Some dataset =>
      rows ← array_read (ds_data dataset);
      schemaWithStats ←
        lift (mapM (fun entry =>
                stats ← getFieldStats rows (fst entry) (snd entry);
                Ret (fst entry, (snd entry, stats))) (ds_schema dataset));
      mret (mkEnvelope (PSchema (ds_name dataset) (ds_description dataset)
                                (length rows) schemaWithStats) false)
  end.

Definition query_data (p : QueryParams) : M envelope :=
  let filters := default [] (q_filters p) in
  let limit := default 100%Z (q_limit p) in
  let offset := default 0%Z (q_offset p) in
  found ← datasets_get (q_dataset p);
  match found with
  | None => mret not_found
  | Some dataset =>
      data ← array_copy (ds_data dataset);
      data ← (if (0 <? length filters)%nat then applyFilters data filters
              else mret data);
      filtered ← array_read data;
      let totalCount := length filtered in
      data ← match q_sort p with
             | Some sort => sortData data sort
             | None => mret data
             end;
      data ← array_slice data offset (offset + limit);
      page ← array_read data;
      mret (mkEnvelope
              (PQuery page totalCount offset limit
                      (offset + limit <? Z.of_nat totalCount)%Z) false)
  end.

Definition aggregate (p : AggregateParams) : M envelope :=
  found ← datasets_get (a_dataset p);
  match found with
  | None => mret not_found
  | Some dataset =>
      rows ← array_read (ds_data dataset);
      results ← lift (aggregateData rows (a_groupBy p) (a_metric p)
                                    (a_operation p));
      mret (mkEnvelope (PAggregate (a_groupBy p) (a_metric p) (a_operation p)
                                   results) false)
  end.

(** One cell of the CSV export. *)
Definition csv_cell (row : Row) (h : string) : outcome string :=
  match row_get row h with
  | VStr val =>
      if string_includes val "," then Ret (quote_char ++ val ++ quote_char)%string
      else Ret val
  | val => ToString val
  end.

Definition csv_content (headers : list string) (data : list Row)
  : outcome string :=
  rows ← mapM (fun row => String.concat "," <$> mapM (csv_cell row) headers) data;
  Ret (String.concat newline (String.concat "," headers :: rows)).

Definition export_data (p : ExportParams) : M envelope :=
  let filters := default [] (e_filters p) in
  let format := default "json" (e_format p) in
  found ← datasets_get (e_dataset p);
  match found with
  | None => mret not_found
  | Some dataset =>
      data ← array_copy (ds_data dataset);
      data ← (if (0 <? length filters)%nat then applyFilters data filters
              else mret data);
      rows ← array_read data;
      exportContent ←
        (if String.eqb format "csv"
         then lift (CsvText <$> csv_content (map fst (ds_schema dataset)) rows)
         else mret (JsonText rows));
      mret (mkEnvelope (PExport format (length rows) exportContent) false)
  end.

(** The route table of the server. *)
Definition call_tool (c : tool_call) : M envelope :=
  match c with
  | CallListDatasets => list_datasets
  | CallGetSchema d => get_schema d
  | CallQueryData p => query_data p
  | CallAggregate p => aggregate p
  | CallExportData p => export_data p
  end.

End Tools.

(* ===================================================================== *)
(** ** Host: the relay between the embedded application and the backend *)
(* ===================================================================== *)

(** A browsing context ([event.source], [appFrame.contentWindow]). *)
Definition window : Type := nat.

(** What [event.data] can hold: the structured clone of the value the frame
    posted.  Besides the values of JSON and [undefined] these are BigInts and
    objects that lie on a reference cycle, on both of which [JSON.stringify]
    throws.  [MObj props] is an object with the listed properties;
    [MCyclic props] is such an object that reaches itself through its
    properties (a property that leads back is listed with the properties the
    relay can read from it: it reads two levels deep).  The other objects the
    clone can carry (a [Date], a [Map], an [Error], a typed array, ...) are not
    told apart from the object or array with the same readable properties:
    the relay only reads named properties, tests truthiness and [typeof],
    compares with string constants, and asks for the string and JSON forms.
    A function or a symbol cannot be cloned, so a property named [toString]
    or [toJSON] is never callable. *)
#[warnings="-register-all"]
Inductive msg : Type :=
| MUndef
| MNull
| MBool (b : bool)
| MNum (n : float)
| MStr (s : string)
| MBigInt (z : Z)
| MArr (items : list msg)
| MObj (props : list (string * msg))
| MCyclic (props : list (string * msg)).

Record MessageEvent := mkEvent { ev_source : window; ev_data : msg }.

Inductive log_type : Type := LogRequest | LogResponse | LogError | LogInfo.

(** The objects posted back: [{ jsonrpc: '2.0', id, result }] or
    [{ jsonrpc: '2.0', id, error: { code, message } }]. *)
Inductive rpc_body : Type :=
| RpcResult (result : msg)
| RpcError (code : Z) (message : string).

Record rpc_response := mkResponse { resp_id : msg; resp_body : rpc_body }.

(** What one run of [handleMessage] does to the outside world, in order. *)
Inductive effect : Type :=
| ELog (t : log_type) (data : msg)
| ESetStatus (connected : bool) (message : string)
| EFetch (name : string) (args : msg)
| EPost (target : window) (response : rpc_response).

(** Computations of the host: the effects so far and a result or an
    exception. *)
Definition R (A : Type) : Type := (list effect * outcome A)%type.

#[global] Instance R_ret : MRet R := fun A a => ([], Ret a).
#[global] Instance R_bind : MBind R :=
  fun A B f m =>
    match m with
    | (tr, Ret a) => let '(tr', r) := f a in (tr ++ tr', r)
    | (tr, Throw e) => (tr, Throw e)
    end.

Definition emit (e : effect) : R unit := ([e], Ret tt).
Definition liftR {A} (o : outcome A) : R A := ([], o).

(** [try { body } catch (error) { handler }]. *)
Definition try_catch {A} (body : R A) (handler : js_error -> R A) : R A :=
  match body with
  | (tr, Ret a) => (tr, Ret a)
  | (tr, Throw e) => let '(tr', r) := handler e in (tr ++ tr', r)
  end.

(** [ToBoolean], [typeof v === 'object'], [v !== undefined] and
    [v === 'text'] on the values of a message. *)
Definition msg_truthy (v : msg) : bool :=
  match v with
  | MUndef | MNull => false
  | MBool b => b
  | MNum n => negb (is_zero n || is_nan n)
  | MStr s => negb (String.eqb s "")
  | MBigInt z => negb (z =? 0)%Z
  | MArr _ | MObj _ | MCyclic _ => true
  end.

Definition msg_typeof_object (v : msg) : bool :=
  match v with MNull | MArr _ | MObj _ | MCyclic _ => true | _ => false end.

Definition msg_is_undefined (v : msg) : bool :=
  match v with MUndef => true | _ => false end.

Definition is_str (v : msg) (text : string) : bool :=
  match v with MStr s => String.eqb s text | _ => false end.

(** [v.k] for the property names the host reads ([jsonrpc], [id], [method],
    [params], [name], [arguments], [protocolVersion]), none of which exists
    on the prototype of an object, an array or a primitive of a message: a
    listed property of an object, [undefined] on any other value, and a
    [TypeError] on [null] and [undefined]. *)
Definition get_member (v : msg) (k : string) : outcome msg :=
  match v with
  | MUndef =>
      Throw (TypeError ("Cannot read properties of undefined (reading '" ++ k ++ "')")%string)
  | MNull =>
      Throw (TypeError ("Cannot read properties of null (reading '" ++ k ++ "')")%string)
  | MObj props | MCyclic props =>
      Ret (match assoc k props with Some x => x | None => MUndef end)
  | _ => Ret MUndef
  end.

(** [v?.k]. *)
Definition get_member_opt (v : msg) (k : string) : outcome msg :=
  match v with
  | MUndef | MNull => Ret MUndef
  | _ => get_member v k
  end.

(** [message.k] for a message that passed the object test of
    [handleMessage], and in general [v?.k]. *)
Definition member (message : msg) (k : string) : msg :=
  match message with
  | MObj props | MCyclic props =>
      match assoc k props with Some x => x | None => MUndef end
  | _ => MUndef
  end.

(** The exception of [JSON.stringify(v)], if it throws: a [TypeError] at the
    first BigInt or object of a cycle that the traversal meets (the message
    texts are V8's). *)
Fixpoint json_error (v : msg) : option js_error :=
  match v with
  | MBigInt _ => Some (TypeError "Do not know how to serialize a BigInt")
  | MCyclic _ => Some (TypeError "Converting circular structure to JSON")
  | MArr items =>
      (fix first (l : list msg) : option js_error :=
         match l with
         | [] => None
         | x :: rest =>
             match json_error x with Some e => Some e | None => first rest end
         end) items
  | MObj props =>
      (fix first (l : list (string * msg)) : option js_error :=
         match l with
         | [] => None
         | (_, x) :: rest =>
             match json_error x with Some e => Some e | None => first rest end
         end) props
  | _ => None
  end.

(** [JSON.stringify(v)] as far as the relay depends on it: it throws or
    it does not. *)
Definition stringify (v : msg) : outcome unit :=
  match json_error v with Some e => Throw e | None => Ret tt end.

(** Counting in a trace. *)
Definition is_post (e : effect) : bool :=
  match e with EPost _ _ => true | _ => false end.
Definition is_fetch (e : effect) : bool :=
  match e with EFetch _ _ => true | _ => false end.
Definition is_log (e : effect) : bool :=
  match e with ELog _ _ => true | _ => false end.
Definition posts (tr : list effect) : list effect := List.filter is_post tr.
Definition fetches (tr : list effect) : list effect := List.filter is_fetch tr.

(** The test [message.jsonrpc === '2.0' && message.id !== undefined] of
    [handleMessage]. *)
Definition is_request (message : msg) : bool :=
  is_str (member message "jsonrpc") "2.0"
  && negb (msg_is_undefined (member message "id")).

(** The methods that [handleMessage] knows. *)
Definition known_methods : list string := ["ui/initialize"; "tools/call"; "ping"].

Definition is_known_method (method : msg) : bool :=
  existsb (is_str method) known_methods.

(** [params.arguments || {}] as the relay passes it to the backend. *)
Definition tool_arguments (params : msg) : msg :=
  let arguments := member params "arguments" in
  if msg_truthy arguments then arguments else MObj [].

Section Host.
Context `{JSRuntime}.

(** [String(v)] and [`${v}`].  A BigInt prints in decimal; an object
    prints as [[object Object]] through [Object.prototype.toString] unless it
    has a property named [toString], which is not callable: then [valueOf]
    returns the object and the conversion throws.  An array prints through
    [Array.prototype.join]. *)
Fixpoint msg_to_string (v : msg) : outcome string :=
  match v with
  | MUndef => Ret "undefined"
  | MNull => Ret "null"
  | MBool true => Ret "true"
  | MBool false => Ret "false"
  | MNum n => Ret (NumberToString n)
  | MStr s => Ret s
  | MBigInt z => Ret (DecimalString.NilZero.string_of_int (Z.to_int z))
  | MArr items =>
      (fix join (l : list msg) : outcome string :=
         match l with
         | [] => Ret ""
         | x :: rest =>
             let elem :=
               match x with
               | MUndef | MNull => Ret ""
               | _ => msg_to_string x
               end in
             match rest with
             | [] => elem
             | _ :: _ =>
                 match elem with
                 | Ret s =>
                     match join rest with
                     | Ret r => Ret (s ++ "," ++ r)%string
                     | Throw e => Throw e
                     end
                 | Throw e => Throw e
                 end
             end
         end) items
  | MObj props | MCyclic props =>
      if has_own "toString" props
      then Throw (TypeError "Cannot convert object to primitive value")
      else Ret "[object Object]"
  end.

(** The backend as seen through [fetch] and [response.json()]: the parsed
    body, or the rejection of either promise. *)
Variable backend : string -> msg -> outcome msg.

(** [appFrame.contentWindow]: the frame is attached to the document, so
    its window exists and [?.postMessage] posts. *)
Variable contentWindow : window.

(** [addLog(type, data)]: a string is shown as it is, anything else through
    [JSON.stringify(data, null, 2)], whose exception escapes; of
    [undefined] it makes [undefined], whose [length] cannot be read. *)
Definition addLog (t : log_type) (data : msg) : R unit :=
  _ ← liftR (match data with
             | MStr _ => Ret tt
             | MUndef =>
                 Throw (TypeError "Cannot read properties of undefined (reading 'length')")
             | _ => stringify data
             end);
  emit (ELog t data).

Definition setStatus (connected : bool) (message : string) : R unit :=
  emit (ESetStatus connected message).

(** [callTool(name, args)]: the URL is built from the name, the body is
    [JSON.stringify(args)], then the request is sent. *)
Definition callTool (name args : msg) : R msg :=
  url_name ← liftR (msg_to_string name);
  _ ← liftR (stringify args);
  _ ← emit (EFetch url_name args);
  liftR (backend url_name args).

Definition initialize_result (protocolVersion : msg) : msg :=
  MObj [("protocolVersion", protocolVersion);
        ("hostCapabilities", MObj [("serverTools", MObj []); ("logging", MObj [])]);
        ("hostInfo", MObj [("name", MStr "DataExplorerHost");
                           ("version", MStr "1.0.0")]);
        ("hostContext", MObj [])].

(** The [switch (message.method)] inside the [try]. *)
Definition handle_request (method params : msg) : R msg :=
  if is_str method "ui/initialize" then
    pv ← liftR (get_member_opt params "protocolVersion");
    let result := initialize_result (if msg_truthy pv then pv else MStr "2025-11-21") in
    _ ← setStatus true "Connected";
    mret result
  else if is_str method "tools/call" then
    name ← liftR (get_member params "name");
    arguments ← liftR (get_member params "arguments");
    callTool name (if msg_truthy arguments then arguments else MObj [])
  else if is_str method "ping" then
    mret (MObj [])
  else
    m ← liftR (msg_to_string method);
    _ ← addLog LogInfo (MStr ("Unhandled: " ++ m)%string);
    mret (MObj []).

Definition handleMessage (event : MessageEvent) : R unit :=
  if negb (ev_source event =? contentWindow)%nat then mret tt
  else
    let message := ev_data event in
    if negb (msg_truthy message) || negb (msg_typeof_object message) then mret tt
    else
      jsonrpc ← liftR (get_member message "jsonrpc");
      id ← liftR (get_member message "id");
      method ← liftR (get_member message "method");
      params ← liftR (get_member message "params");
      if is_str jsonrpc "2.0" && negb (msg_is_undefined id) then
        _ ← addLog LogRequest
              (MObj [("method", method);
                     ("params", if msg_truthy params then MStr "..." else MUndef)]);
        try_catch
          (result ← handle_request method params;
           let response := mkResponse id (RpcResult result) in
           line ← (if is_str method "tools/call"
                   then name ← liftR (get_member_opt params "name");
                        s ← liftR (msg_to_string name);
                        mret (s ++ " OK")%string
                   else mret "OK");
           _ ← addLog LogResponse (MStr line);
           emit (EPost contentWindow response))
          (fun error =>
             let errorResponse :=
               mkResponse id (RpcError (-32000) (String_of_error error)) in
             _ ← addLog LogError (MStr (String_of_error error));
             emit (EPost contentWindow errorResponse))
      else if msg_truthy method then
        m ← liftR (msg_to_string method);
        addLog LogInfo (MStr ("Notification: " ++ m)%string)
      else mret tt.

End Host.

(** Induction on the values of a message that reaches the elements of
    arrays. *)
Section MsgInduction.
Variable P : msg -> Prop.
Hypothesis HUndef : P MUndef.
Hypothesis HNull : P MNull.
Hypothesis HBool : forall b, P (MBool b).
Hypothesis HNum : forall n, P (MNum n).
Hypothesis HStr : forall s, P (MStr s).
Hypothesis HBigInt : forall z, P (MBigInt z).
Hypothesis HArr : forall items, Forall P items -> P (MArr items).
Hypothesis HObj : forall props, P (MObj props).
Hypothesis HCyclic : forall props, P (MCyclic props).

Fixpoint msg_array_ind (v : msg) : P v :=
  match v with
  | MUndef => HUndef
  | MNull => HNull
  | MBool b => HBool b
  | MNum n => HNum n
  | MStr s => HStr s
  | MBigInt z => HBigInt z
  | MArr items =>
      HArr items
        ((fix go (l : list msg) : Forall P l :=
            match l with
            | [] => @List.Forall_nil _ P
            | x :: r => @List.Forall_cons _ P x r (msg_array_ind x) (go r)
            end) items)
  | MObj props => HObj props
  | MCyclic props => HCyclic props
  end.
End MsgInduction.

(** The values of a message whose string form exists: no object with a
    property named [toString], at any depth that [join] reaches. *)
Fixpoint msg_plain (v : msg) : bool :=
  match v with
  | MArr items => forallb msg_plain items
  | MObj props | MCyclic props => negb (has_own "toString" props)
  | _ => true
  end.

(* ===================================================================== *)
(** ** A runtime for running examples *)
(* ===================================================================== *)

(** A small instance of the runtime interface, enough to evaluate the
    examples: integers are printed and parsed in decimal, case mapping is
    that of ASCII letters and collation is by code unit.  The theorems
    below hold for every runtime. *)
Module ExampleRuntime.

Definition Z_of_float (n : float) : option Z :=
  match Prim2SF n with
  | S754_zero _ => Some 0%Z
  | S754_finite s m e =>
      let magnitude :=
        if (0 <=? e)%Z then Some (Zpos m * 2 ^ e)%Z
        else if (Zpos m mod 2 ^ (- e) =? 0)%Z then Some (Zpos m / 2 ^ (- e))%Z
        else None in
      (fun z => if s : bool then (- z)%Z else z) <$> magnitude
  | _ => None
  end.

Definition float_of_Z (z : Z) : float :=
  if (z <? 0)%Z then (- of_uint63 (Uint63.of_Z (- z)))%float
  else of_uint63 (Uint63.of_Z z).

Definition number_to_string (n : float) : string :=
  if is_nan n then "NaN"
  else if (n =? infinity)%float then "Infinity"
  else if (n =? neg_infinity)%float then "-Infinity"
  else match Z_of_float n with
       | Some z => DecimalString.NilZero.string_of_int (Z.to_int z)
       | None => "(fraction)"
       end.

Definition string_to_number (s : string) : float :=
  if String.eqb s "" then 0%float
  else match DecimalString.NilZero.int_of_string s with
       | Some i => float_of_Z (Z.of_int i)
       | None => nan
       end.

Definition lower_ascii (c : ascii) : ascii :=
  let n := nat_of_ascii c in
  if (65 <=? n)%nat && (n <=? 90)%nat then ascii_of_nat (n + 32) else c.

Fixpoint to_lower (s : string) : string :=
  match s with
  | EmptyString => EmptyString
  | String c s' => String (lower_ascii c) (to_lower s')
  end.

Definition locale_compare (a b : string) : Z :=
  match String.compare a b with Lt => (-1)%Z | Eq => 0%Z | Gt => 1%Z end.

Definition native_function_to_string (name : string) : string :=
  ("function " ++ (if String.eqb name "constructor" then "Object" else name)
   ++ "() { [native code] }")%string.

Definition runtime : JSRuntime :=
  {| NumberToString := number_to_string;
     StringToNumber := string_to_number;
     toLowerCase := to_lower;
     localeCompare := locale_compare;
     NativeFunctionToString := native_function_to_string;
     MaxArguments := 65535 |}.


End ExampleRuntime.

Abbreviation example_runtime := ExampleRuntime.runtime.

(* ===================================================================== *)
(** ** Vocabulary of the statements *)
(* ===================================================================== *)

(** The rows behind a reference. *)
Definition rows_at (st : server_state) (l : loc) : list Row :=
  default [] (arrays st !! l).

(** The operators that [applyFilters] knows. *)
Definition known_operators : list string :=
  ["eq"; "ne"; "gt"; "gte"; "lt"; "lte"; "contains"; "in"].

Definition is_known_operator (op : string) : bool :=
  existsb (String.eqb op) known_operators.

(** *** What a filter asks of a row

    JSON's scalars: [null], a truth value, a number, a text. *)
Definition scalar (v : value) : bool :=
  match v with
  | VNull | VBool _ | VStr _ => true
  | VNum n => negb (is_nan n)
  | VUndef | VArr _ | VObj _ | VBuiltin _ => false
  end.

(** Two scalars are the same: both [null], the same truth value, equal
    numbers, or the same text. *)
Definition same_scalar (v w : value) : Prop :=
  match v, w with
  | VNull, VNull => True
  | VBool x, VBool y => x = y
  | VNum x, VNum y => (x =? y)%float = true
  | VStr x, VStr y => x = y
  | _, _ => False
  end.

(** The text [needle] occurs in the text [hay]. *)
Definition occurs_in (needle hay : string) : Prop :=
  exists before after, hay = (before ++ needle ++ after)%string.

(** The verdict of a filter on a row that has the field, where the
    operators' names and the description of the filter say what it is:
    [true] when the row is to be kept.  [eq] and [ne] ask for the same or a
    different scalar; the range operators compare two numbers; [contains]
    asks whether the filter's text occurs in the field's text, both taken in
    their string forms and in lower case; [in] asks whether the field's value
    is a member of the filter's array; any other operator keeps every row. *)
Inductive verdict `{JSRuntime} (row : Row) (f : Filter) : bool -> Prop :=
  | verdict_eq v b :
      f_operator f = "eq" -> assoc (f_field f) row = Some v ->
      scalar v = true -> scalar (f_value f) = true ->
      (b = true <-> same_scalar v (f_value f)) -> verdict row f b
  | verdict_ne v b :
      f_operator f = "ne" -> assoc (f_field f) row = Some v ->
      scalar v = true -> scalar (f_value f) = true ->
      (b = true <-> ~ same_scalar v (f_value f)) -> verdict row f b
  | verdict_gt x y :
      f_operator f = "gt" -> assoc (f_field f) row = Some (VNum x) ->
      f_value f = VNum y -> verdict row f (y <? x)%float
  | verdict_gte x y :
      f_operator f = "gte" -> assoc (f_field f) row = Some (VNum x) ->
      f_value f = VNum y -> verdict row f (y <=? x)%float
  | verdict_lt x y :
      f_operator f = "lt" -> assoc (f_field f) row = Some (VNum x) ->
      f_value f = VNum y -> verdict row f (x <? y)%float
  | verdict_lte x y :
      f_operator f = "lte" -> assoc (f_field f) row = Some (VNum x) ->
      f_value f = VNum y -> verdict row f (x <=? y)%float
  | verdict_contains v hay needle b :
      f_operator f = "contains" -> assoc (f_field f) row = Some v ->
      ToString v = Ret hay -> ToString (f_value f) = Ret needle ->
      (b = true <-> occurs_in (toLowerCase needle) (toLowerCase hay)) ->
      verdict row f b
  | verdict_in v items b :
      f_operator f = "in" -> assoc (f_field f) row = Some v ->
      scalar v = true -> f_value f = VArr items ->
      (b = true <-> exists item, In item items /\ same_scalar item v) ->
      verdict row f b
  | verdict_unknown :
      is_known_operator (f_operator f) = false -> verdict row f true.

(** Values whose conversion to a string cannot throw: everything except an
    object with an own [toString] property, and arrays holding one. *)
Fixpoint plain (v : value) : bool :=
  match v with
  | VArr items => forallb plain items
  | VObj props => negb (has_own "toString" props)
  | _ => true
  end.

Definition plain_row (row : Row) : bool := forallb (fun kv => plain (snd kv)) row.

(** A filter that [applyFilters] can evaluate on plain rows: an [in] filter
    carries an array or a string, any other filter a plain value. *)
Definition filter_ok (f : Filter) : bool :=
  if String.eqb (f_operator f) "in" then
    match f_value f with VArr _ | VStr _ => true | _ => false end
  else plain (f_value f).

(** The value of an [in] filter is not a sequence. *)
Definition not_a_sequence (v : value) : bool :=
  match v with VArr _ | VStr _ => false | _ => true end.

(** A small store for the examples. *)
Definition sales_rows : list Row :=
  [ [("region", VStr "West"); ("revenue", VNum 100%float)];
    [("region", VStr "East"); ("revenue", VNum 250.5%float)];
    [("region", VStr "West"); ("revenue", VNum 40%float)] ].

Definition sales : Dataset :=
  mkDataset "sales" "Sales records" [("region", "string"); ("revenue", "number")] 0.

Definition example_state : server_state := mkState [("sales", sales)] [sales_rows].

Definition west_filter : Filter := mkFilter "region" "eq" (VStr "West").
Definition bad_in_filter : Filter := mkFilter "revenue" "in" (VNum 5%float).

(** Induction on values that reaches the elements of arrays. *)
Section ValueInduction.
Variable P : value -> Prop.
Hypothesis HUndef : P VUndef.
Hypothesis HNull : P VNull.
Hypothesis HBool : forall b, P (VBool b).
Hypothesis HNum : forall n, P (VNum n).
Hypothesis HStr : forall s, P (VStr s).
Hypothesis HArr : forall items, Forall P items -> P (VArr items).
Hypothesis HObj : forall props, P (VObj props).
Hypothesis HBuiltin : forall name, P (VBuiltin name).

Fixpoint value_array_ind (v : value) : P v :=
  match v with
  | VUndef => HUndef
  | VNull => HNull
  | VBool b => HBool b
  | VNum n => HNum n
  | VStr s => HStr s
  | VArr items =>
      HArr items
        ((fix go (l : list value) : Forall P l :=
            match l with
            | [] => @List.Forall_nil _ P
            | x :: r => @List.Forall_cons _ P x r (value_array_ind x) (go r)
            end) items)
  | VObj props => HObj props
  | VBuiltin name => HBuiltin name
  end.
End ValueInduction.


(** Sign classes of a specification-level float. *)
Definition sf_positive (f : spec_float) : bool := SFltb (S754_zero false) f.
Definition sf_negative (f : spec_float) : bool := SFltb f (S754_zero false).

(** The sort key of a row, and the rows whose key is strictly equal to [k]. *)
Definition same_key (field : string) (k : value) (row : Row) : bool :=
  strict_eq (row_get row field) k.

(** What [query-data] computes from the rows of the dataset it names. *)
Definition query_result `{JSRuntime} (rows : list Row) (p : QueryParams)
  : outcome payload :=
  let filters := default [] (q_filters p) in
  let limit := default 100%Z (q_limit p) in
  let offset := default 0%Z (q_offset p) in
  kept ← filter_rows rows filters;
  sorted ← match q_sort p with
           | Some sort => sort_rows kept sort
           | None => Ret kept
           end;
  Ret (PQuery (js_slice sorted offset (offset + limit)) (length kept) offset limit
              (offset + limit <? Z.of_nat (length kept))%Z).

(** Only new arrays were added to the heap, and the store is the same. *)
Definition extends (st st' : server_state) : Prop :=
  datasets st' = datasets st /\ exists ext, arrays st' = arrays st ++ ext.

(** A computation that leaves the store as it is and only adds arrays. *)
Definition preserves {A} (m : M A) : Prop :=
  forall st, extends st (fst (m st)).

(** A backend for the examples: every tool answers with an empty object. *)
Definition echo_backend (name : string) (args : msg) : outcome msg :=
  Ret (MObj []).

Definition ping_without_protocol : msg :=
  MObj [("id", MNum 1%float); ("method", MStr "ping")].

Definition unknown_request : msg :=
  MObj [("jsonrpc", MStr "2.0"); ("id", MStr "42"); ("method", MStr "resources/list")].

Definition tools_call_request : msg :=
  MObj [("jsonrpc", MStr "2.0"); ("id", MStr "42"); ("method", MStr "tools/call");
        ("params", MObj [("name", MStr "list-datasets")])].

(** Requests whose method is not a string: a BigInt, and an object with a
    property named [toString]. *)
Definition bigint_method_request : msg :=
  MObj [("jsonrpc", MStr "2.0"); ("id", MNum 1%float); ("method", MBigInt 1)].

Definition unprintable_method_request : msg :=
  MObj [("jsonrpc", MStr "2.0"); ("id", MNum 1%float);
        ("method", MObj [("toString", MNum 1%float)])].

(** The group key and metric value that [aggregateData] reads from a row. *)
Definition key_metric `{JSRuntime} (groupBy metric : string) (row : Row)
  : outcome (string * float) :=
  groupKey ← ToString (row_get row groupBy);
  n ← ToNumber (row_get row metric);
  Ret (groupKey, number_or_zero n).

(** The metric values of the rows whose key is [k], in row order. *)
Definition values_of (k : string) (pairs : list (string * float)) : list float :=
  map snd (List.filter (fun p => String.eqb (fst p) k) pairs).

(** The distinct keys in order of first occurrence. *)
Fixpoint first_occurrences (keys : list string) : list string :=
  match keys with
  | [] => []
  | k :: rest =>
      k :: List.filter (fun x => negb (String.eqb x k)) (first_occurrences rest)
  end.

Definition mem (k : string) (l : list string) : bool := existsb (String.eqb k) l.

Definition push_pair (groups : list (string * list float)) (p : string * float) :=
  groups_push groups (fst p) (snd p).

(** Entries with the value [v], by the equality of numbers. *)
Definition has_value (v : float) (entry : string * float) : bool :=
  (snd entry =? v)%float.

(** *** What the five operations are to compute

    The sum of [values] added up from the left, starting from [start]. *)
Fixpoint total_from (start : float) (values : list float) : float :=
  match values with
  | [] => start
  | v :: rest => total_from (start + v)%float rest
  end.

Definition total (values : list float) : float := total_from 0%float values.

(** [m] is a least value of [values]: one of them, and none is below it. *)
Definition is_least (m : float) (values : list float) : Prop :=
  In m values /\ forall v, In v values -> (v <? m)%float = false.

(** [m] is a greatest value of [values]: one of them, and none is above
    it. *)
Definition is_greatest (m : float) (values : list float) : Prop :=
  In m values /\ forall v, In v values -> (m <? v)%float = false.

(** The value of an operation over the metric values of a group. *)
Inductive aggregate_of : string -> list float -> float -> Prop :=
  | agg_sum values : aggregate_of "sum" values (total values)
  | agg_avg values :
      aggregate_of "avg" values (total values / float_of_nat (length values))%float
  | agg_count values : aggregate_of "count" values (float_of_nat (length values))
  | agg_min values m : is_least m values -> aggregate_of "min" values m
  | agg_max values m : is_greatest m values -> aggregate_of "max" values m.

(** Two decimals: the integer nearest to [100 v] (a half goes up), divided
    by 100, in binary64 arithmetic. *)
Definition round_to_cents (v : float) : float :=
  (Math_round (v * 100) / 100)%float.

(** No entry of the list has the value [NaN]. *)
Definition no_nan_value (entries : list (string * float)) : bool :=
  forallb (fun entry => negb (is_nan (snd entry))) entries.

(** [a] comes before [b] in descending order of value: [a]'s value is not
    below [b]'s. *)
Definition not_below (a b : string * float) : Prop :=
  (snd a <? snd b)%float = false.

(** As many values as the engine passes to a call as arguments. *)
Definition spreadable `{JSRuntime} {A} (l : list A) : Prop :=
  (N.of_nat (length l) <= MaxArguments)%N.

(** Rows whose group key has no string form: [String(row.k)] finds an own
    [toString] that is not callable. *)
Definition unprintable_key_rows : list Row :=
  [ [("k", VObj [("toString", VNum 1%float)]); ("v", VNum 1%float)] ].

(** Rows of a group whose sum is [NaN]: JSON's [1e999] and [-1e999] are read
    as [Infinity] and [-Infinity]. *)
Definition overflow_rows : list Row :=
  [ [("k", VStr "a"); ("v", VNum 1%float)];
    [("k", VStr "b"); ("v", VNum infinity)];
    [("k", VStr "b"); ("v", VNum neg_infinity)];
    [("k", VStr "c"); ("v", VNum 2%float)] ].

(** One value more than the example engine passes as arguments. *)
Definition too_many_values : list float := repeat 1%float (Z.to_nat 65536).

Definition overflow_entries : list (string * float) :=
  [("a", 1%float); ("b", nan); ("c", 2%float)].

Definition region_revenue : list Row :=
  [ [("region", VStr "West"); ("revenue", VNum 100%float)];
    [("region", VStr "East"); ("revenue", VNum 250.5%float)];
    [("region", VStr "West"); ("revenue", VNum 40.25%float)];
    [("region", VStr "North"); ("revenue", VStr "n/a")] ].

(* ===================================================================== *)
(** ** Backend: loading the datasets and serving requests *)
(* ===================================================================== *)

(** What [JSON.parse] makes of a dataset file that holds what the cast
    [as Dataset] says: an object with a name, a description, a schema and an
    array of rows.  The cast checks nothing; a file that parses to anything
    else (an object without [data], say, which the source stores before the
    log line that reads [dataset.data.length] throws) is not described by
    this type, and the statements about loading are about files of this
    shape only. *)
Record DatasetFile := mkFile {
  df_name : string;
  df_description : string;
  df_schema : list (string * string);
  df_data : list Row
}.

(** [map.set(k, v)] on a [Map] in insertion order: an existing key keeps
    its place. *)
Fixpoint map_set {A} (k : string) (v : A) (l : list (string * A))
  : list (string * A) :=
  match l with
  | [] => [(k, v)]
  | (k', v') :: rest =>
      if String.eqb k' k then (k', v) :: rest else (k', v') :: map_set k v rest
  end.

Definition datasets_set (name : string) (ds : Dataset) : M unit :=
  fun st => (mkState (map_set name ds (datasets st)) (arrays st), Ret tt).

Definition datasetFiles : list string := ["movies.json"; "sales.json"; "weather.json"].

Definition empty_state : server_state := mkState [] [].

Section Loading.

(** [JSON.parse(readFileSync(join(DATA_DIR, file), 'utf-8'))]: the parsed
    file, of the shape of [DatasetFile], or the exception of the read or of
    the parse. *)
Variable read_dataset : string -> outcome DatasetFile.

(** The body of the loop of [loadDatasets]: the [try] stores the parsed
    dataset, the [catch] reports the failure on the console and goes on. *)
Definition load_file (file : string) : M unit :=
  fun st =>
    match read_dataset file with
    | Ret df =>
        (data ← array_alloc (df_data df);
         datasets_set (df_name df)
           (mkDataset (df_name df) (df_description df) (df_schema df) data)) st
    | Throw _ => (st, Ret tt)
    end.

Fixpoint load_files (files : list string) : M unit :=
  match files with
  | [] => mret tt
  | file :: rest => _ ← load_file file; load_files rest
  end.

Definition loadDatasets : M unit := load_files datasetFiles.

End Loading.

(** The state after a sequence of requests: each one is handled on the
    state its predecessor left, whether that one answered or threw. *)
Definition serve `{JSRuntime} (calls : list tool_call) (st : server_state)
  : server_state :=
  fold_left (fun st c => fst (call_tool c st)) calls st.

(** The store's invariants: references exist, names are unique, and every
    dataset is stored under its own name. *)
Definition store_ok (st : server_state) : Prop :=
  wf_state st /\
  List.NoDup (map fst (datasets st)) /\
  (forall name ds, In (name, ds) (datasets st) -> ds_name ds = name).

(** A dataset file for the examples. *)
Definition sales_file : DatasetFile :=
  mkFile "sales" "Sales records" [("region", "string"); ("revenue", "number")]
         sales_rows.

Definition example_disk (file : string) : outcome DatasetFile :=
  if String.eqb file "sales.json" then Ret sales_file
  else Throw (JsError "Error" "ENOENT: no such file or directory").

(** The dataset a tool request names, if it names one. *)
Definition tool_dataset (c : tool_call) : option string :=
  match c with
  | CallListDatasets => None
  | CallGetSchema d => Some d
  | CallQueryData p => Some (q_dataset p)
  | CallAggregate p => Some (a_dataset p)
  | CallExportData p => Some (e_dataset p)
  end.

(** What [export-data] computes from the rows of the dataset it names. *)
Definition export_result `{JSRuntime} (headers : list string) (rows : list Row)
           (p : ExportParams) : outcome payload :=
  let filters := default [] (e_filters p) in
  let format := default "json" (e_format p) in
  kept ← filter_rows rows filters;
  content ← (if String.eqb format "csv"
             then CsvText <$> csv_content headers kept
             else Ret (JsonText kept));
  Ret (PExport format (length kept) content).

(** The sort key of a row is a number other than [NaN]. *)
Definition numeric_key (field : string) (row : Row) : bool :=
  match row_get row field with
  | VNum n => negb (is_nan n)
  | _ => false
  end.

(** The sort key of a row is a string, and the strings that are sort keys
    of the rows. *)
Definition string_key (field : string) (row : Row) : bool :=
  match row_get row field with
  | VStr _ => true
  | _ => false
  end.

Definition key_strings (field : string) (rows : list Row) : list string :=
  flat_map (fun row => match row_get row field with
                       | VStr x => [x]
                       | _ => []
                       end) rows.

(** [x.localeCompare(y)] as a comparator of strings. *)
Definition locale_order `{JSRuntime} (x y : string) : outcome Z :=
  Ret (localeCompare x y).

(** An answer of the ascending comparator, seen in the direction of the
    sort: any direction but ['asc'] reverses it. *)
Definition directed (direction : string) (s : comparison) : comparison :=
  if String.eqb direction "asc" then s else CompOpp s.

(** Rows in which a row without the sort field stands between two rows of
    equal key. *)
Definition gap_rows : list Row :=
  [ [("id", VNum 0%float); ("v", VNum 1%float)];
    [("id", VNum 1%float)];
    [("id", VNum 2%float); ("v", VNum 1%float)] ].

(** The number under [field] in [a] is not greater than the one in [b]. *)
Definition key_le (field : string) (a b : Row) : Prop :=
  match row_get a field, row_get b field with
  | VNum x, VNum y => (y <? x)%float = false
  | _, _ => False
  end.

Definition key_ge (field : string) (a b : Row) : Prop := key_le field b a.

(** The comparator does not put [b] strictly before [a]. *)
Definition in_order {A} (cmp : A -> A -> outcome Z) (a b : A) : Prop :=
  exists c, cmp a b = Ret c /\ (c <= 0)%Z.

(** *** What the language fixes about [Array.prototype.sort]

    The comparator's answer on [a] and [b] read by its sign: [Lt] for a
    negative number ([a] before [b]), [Eq] for zero, [Gt] for a positive
    one. *)
Definition cmp_is {A} (cmp : A -> A -> outcome Z) (s : comparison) (a b : A)
  : Prop :=
  exists c, cmp a b = Ret c /\ (c ?= 0)%Z = s.

(** ECMAScript's consistent comparator on the elements of [l]: every call
    returns, each element is equal to itself, "equal" is symmetric, and
    "equal", "before" and "after" are each transitive. *)
Record consistent {A} (cmp : A -> A -> outcome Z) (l : list A) : Prop :=
  { consistent_returns :
      forall a b, In a l -> In b l -> returns (cmp a b) = true;
    consistent_refl : forall a, In a l -> cmp_is cmp Eq a a;
    consistent_sym :
      forall a b, In a l -> In b l -> cmp_is cmp Eq a b -> cmp_is cmp Eq b a;
    consistent_trans :
      forall s a b c, In a l -> In b l -> In c l ->
        cmp_is cmp s a b -> cmp_is cmp s b c -> cmp_is cmp s a c }.

(** The comparator finds [x] and [y] equal. *)
Definition ties {A} (cmp : A -> A -> outcome Z) (x y : A) : bool :=
  match cmp x y with
  | Ret c => (c =? 0)%Z
  | Throw _ => false
  end.

(** [out] is [l] sorted by [cmp], stably: the same elements, none placed
    after one that the comparator puts strictly after it, and the elements
    the comparator finds equal to one another in their order in [l]. *)
Definition stable_sorted {A} (cmp : A -> A -> outcome Z) (l out : list A)
  : Prop :=
  Permutation l out /\
  Sorted.StronglySorted (in_order cmp) out /\
  forall x, In x l ->
    List.filter (ties cmp x) out = List.filter (ties cmp x) l.

(** What every engine's [sort] guarantees when the comparator returns on all
    pairs: the result holds the same elements, and it is the stable sorted
    order when the comparator is consistent.  With any other comparator the
    order is left to the engine. *)
Definition conforming_sort {A} (cmp : A -> A -> outcome Z) (l out : list A)
  : Prop :=
  Permutation l out /\ (consistent cmp l -> stable_sorted cmp l out).

(** The value a [Set] stores for [v]: [-0] becomes [+0]. *)
Definition set_key (v : value) : value :=
  match v with
  | VNum n => if is_zero n then VNum 0%float else v
  | _ => v
  end.

(** The values of a column as [getUniqueValues] sees them. *)
Definition column_keys (data : list Row) (field : string) : list value :=
  map (fun row => set_key (row_get row field)) data.

(** The [Set] built by the loop of [getUniqueValues]. *)
Definition unique_set (data : list Row) (field : string) : list value :=
  fold_left (fun unique row => set_add unique (row_get row field)) data [].

(** No two values of the list are the same for a [Set]. *)
Definition distinct_values (l : list value) : Prop :=
  ForallOrdPairs (fun u v => same_value_zero u v = false) l.

(** The string form of [u] does not come after the string form of [v]. *)
Definition string_form_le `{JSRuntime} (u v : value) : Prop :=
  exists us vs, ToString u = Ret us /\ ToString v = Ret vs /\
                String.ltb vs us = false.

(** The numbers that [getFieldStats] keeps for a numeric column. *)
Definition column_numbers `{JSRuntime} (data : list Row) (field : string)
  : outcome (list float) :=
  List.filter (fun v => negb (is_nan v))
    <$> mapM (fun row => ToNumber (row_get row field)) data.


(* ===================================================================== *)
(** ** The view: filters and paging of [ui/app.ts] *)
(* ===================================================================== *)

(** An [input] or [select] of the filter panel as [collectFilters] reads
    it: [dataset.field], [dataset.type] (both set by [renderFilters] on every
    element it creates) and [value]. *)
Record filter_input := mkInput {
  in_field : string;
  in_type : string;
  in_value : string
}.

Section View.

(** [String.prototype.trim] and the global [parseFloat]. *)
Variable trim : string -> string.
Variable parseFloat : string -> float.

(** The callback of [forEach] in [collectFilters]. *)
Definition collect_input (filters : list Filter) (input : filter_input)
  : list Filter :=
  let field := in_field input in
  let type := in_type input in
  let value := trim (in_value input) in
  if String.eqb value "" then filters
  else if String.eqb type "min" then
    filters ++ [mkFilter field "gte" (VNum (parseFloat value))]
  else if String.eqb type "max" then
    filters ++ [mkFilter field "lte" (VNum (parseFloat value))]
  else if String.eqb type "select" then
    filters ++ [mkFilter field "eq" (VStr value)]
  else if String.eqb type "search" then
    filters ++ [mkFilter field "contains" (VStr value)]
  else filters.

Definition collectFilters (inputs : list filter_input) : list Filter :=
  fold_left collect_input inputs [].

End View.

(** The state of the view that [queryData] and the paging buttons use. *)
Record view_state := mkView {
  currentDataset : string;
  currentFilters : list Filter;
  currentSort : option SortSpec;
  currentPage : Z;
  totalCount : Z
}.

Definition pageSize : Z := 50.

(** [Math.ceil(totalCount / pageSize)], for a count that is an array
    length: the ceiling of the exact quotient. *)
Definition totalPages (v : view_state) : Z := (- ((- totalCount v) / pageSize))%Z.

(** The arguments [queryData] passes to [query-data] (it makes the call
    only when [currentDataset] is not empty). *)
Definition query_request (v : view_state) : QueryParams :=
  mkQuery (currentDataset v) (Some (currentFilters v)) (currentSort v)
          (Some pageSize) (Some (currentPage v * pageSize)%Z).

Definition set_page (v : view_state) (page : Z) : view_state :=
  mkView (currentDataset v) (currentFilters v) (currentSort v) page (totalCount v).

(** The click handler of the Next button: the state in which [queryData]
    is called, or [None] when the click does nothing. *)
Definition next_click (v : view_state) : option view_state :=
  if (currentPage v <? totalPages v - 1)%Z
  then Some (set_page v (currentPage v + 1)) else None.

(** The operations that the [switch] of [aggregateData] knows. *)
Definition known_operations : list string := ["sum"; "avg"; "count"; "min"; "max"].

(* ===================================================================== *)
(** ** Further examples *)
(* ===================================================================== *)

Definition initialize_request : msg :=
  MObj [("jsonrpc", MStr "2.0"); ("id", MNum 1%float);
        ("method", MStr "ui/initialize");
        ("params", MObj [("protocolVersion", MStr "2025-06-18")])].

Definition tools_call_without_params : msg :=
  MObj [("jsonrpc", MStr "2.0"); ("id", MNum 2%float); ("method", MStr "tools/call")].

Definition initialized_notification : msg :=
  MObj [("jsonrpc", MStr "2.0"); ("method", MStr "ui/notifications/initialized")].

(** A dataset of 51 rows: two pages of the view. *)
Definition many_rows : list Row := List.repeat [("n", VNum 1%float)] 51.

Definition many : Dataset := mkDataset "many" "Fifty-one rows" [("n", "number")] 0.

Definition many_state : server_state := mkState [("many", many)] [many_rows].

Definition first_page : view_state := mkView "many" [] None 0 51.

(** A trim that removes spaces at both ends, and a parser of decimal
    integers that gives [NaN] on any other text. *)
Fixpoint trim_start (s : string) : string :=
  match s with
  | String c rest => if Ascii.eqb c " " then trim_start rest else s
  | EmptyString => EmptyString
  end.

Fixpoint reverse_string (s acc : string) : string :=
  match s with
  | String c rest => reverse_string rest (String c acc)
  | EmptyString => acc
  end.

Definition example_trim (s : string) : string :=
  reverse_string (trim_start (reverse_string (trim_start s) EmptyString)) EmptyString.

Definition example_parseFloat (s : string) : float :=
  match DecimalString.NilZero.int_of_string s with
  | Some i => ExampleRuntime.float_of_Z (Z.of_int i)
  | None => nan
  end.

Definition filter_panel : list filter_input :=
  [ mkInput "revenue" "min" " 50 ";
    mkInput "revenue" "max" "";
    mkInput "region" "select" "West";
    mkInput "region" "search" "   " ].
(* ===================================================================== *)
(** ** The definitions at work *)
(* ===================================================================== *)

Example Math_round_half : Math_round 2.5%float = 3%float.
Proof. reflexivity. Qed.
Example Math_round_neg_half : Math_round (-2.5)%float = (-2)%float.
Proof. reflexivity. Qed.
Example Math_round_below_half : Math_round 0.49999999999999994%float = 0%float.
Proof. reflexivity. Qed.
Example Math_round_1005 : (Math_round (1.005 * 100) / 100)%float = 1%float.
Proof. reflexivity. Qed.
Example Math_round_big : Math_round 4503599627370495.5%float = two52.
Proof. reflexivity. Qed.
Example js_slice_neg_end : js_slice [1; 2; 3] 0 (-1) = [1; 2].
Proof. reflexivity. Qed.
Example js_slice_past_end : js_slice [1; 2; 3] 5 105 = [].
Proof. reflexivity. Qed.
Example number_to_string_42 : ExampleRuntime.number_to_string 42%float = "42".
Proof. reflexivity. Qed.
Example string_to_number_17 : ExampleRuntime.string_to_number "17" = 17%float.
Proof. reflexivity. Qed.
Example to_lower_West : ExampleRuntime.to_lower "West" = "west".
Proof. reflexivity. Qed.

Example filter_region_West :
  filter_rows (H := example_runtime) sales_rows [west_filter] =
  Ret [[("region", VStr "West"); ("revenue", VNum 100%float)];
       [("region", VStr "West"); ("revenue", VNum 40%float)]].
Proof. reflexivity. Qed.

Example filter_range_over_string :
  filter_rows (H := example_runtime) sales_rows
              [mkFilter "region" "gt" (VNum 3%float)] = Ret [].
Proof. reflexivity. Qed.

Example filter_unknown_operator :
  filter_rows (H := example_runtime) sales_rows
              [mkFilter "region" "matches" VNull] = Ret sales_rows.
Proof. reflexivity. Qed.

Example sort_revenue_desc :
  sort_rows (H := example_runtime) sales_rows (mkSort "revenue" "desc") =
  Ret [[("region", VStr "East"); ("revenue", VNum 250.5%float)];
       [("region", VStr "West"); ("revenue", VNum 100%float)];
       [("region", VStr "West"); ("revenue", VNum 40%float)]].
Proof. reflexivity. Qed.

Example sort_region_keeps_ties :
  sort_rows (H := example_runtime) sales_rows (mkSort "region" "desc") =
  Ret [[("region", VStr "West"); ("revenue", VNum 100%float)];
       [("region", VStr "West"); ("revenue", VNum 40%float)];
       [("region", VStr "East"); ("revenue", VNum 250.5%float)]].
Proof. reflexivity. Qed.

Example aggregate_sum_by_region :
  aggregateData (H := example_runtime) region_revenue "region" "revenue" "sum" =
  Ret [("East", 250.5%float); ("West", 140.25%float); ("North", 0%float)].
Proof. reflexivity. Qed.

Example aggregate_avg_by_region :
  aggregateData (H := example_runtime) region_revenue "region" "revenue" "avg" =
  Ret [("East", 250.5%float); ("West", 70.13%float); ("North", 0%float)].
Proof. reflexivity. Qed.

Example query_data_default_page :
  snd (query_data (H := example_runtime) (mkQuery "sales" None None None None)
                  example_state) =
  Ret (mkEnvelope (PQuery sales_rows 3 0 100 false) false).
Proof. reflexivity. Qed.

Example query_data_unknown_dataset :
  query_data (H := example_runtime) (mkQuery "orders" None None None None)
             example_state = (example_state, Ret not_found).
Proof. reflexivity. Qed.

Example relay_ping :
  handleMessage (H := example_runtime) echo_backend 7
    (mkEvent 7 (MObj [("jsonrpc", MStr "2.0"); ("id", MNum 3%float);
                      ("method", MStr "ping")])) =
  ([ELog LogRequest (MObj [("method", MStr "ping"); ("params", MUndef)]);
    ELog LogResponse (MStr "OK");
    EPost 7 (mkResponse (MNum 3%float) (RpcResult (MObj [])))], Ret tt).
Proof. reflexivity. Qed.

Example relay_tools_call_without_params :
  posts (fst (handleMessage (H := example_runtime) echo_backend 7
                (mkEvent 7 (MObj [("jsonrpc", MStr "2.0"); ("id", MNum 4%float);
                                  ("method", MStr "tools/call")])))) =
  [EPost 7 (mkResponse (MNum 4%float)
              (RpcError (-32000)
                 "TypeError: Cannot read properties of undefined (reading 'name')"))].
Proof. reflexivity. Qed.

Example relay_unserialisable_arguments :
  handleMessage (H := example_runtime) echo_backend 7
    (mkEvent 7 (MObj [("jsonrpc", MStr "2.0"); ("id", MNum 5%float);
                      ("method", MStr "tools/call");
                      ("params", MObj [("name", MStr "query-data");
                                       ("arguments", MObj [("limit", MBigInt 5)])])])) =
  ([ELog LogRequest (MObj [("method", MStr "tools/call"); ("params", MStr "...")]);
    ELog LogError (MStr "TypeError: Do not know how to serialize a BigInt");
    EPost 7 (mkResponse (MNum 5%float)
               (RpcError (-32000) "TypeError: Do not know how to serialize a BigInt"))],
   Ret tt).
Proof. reflexivity. Qed.

(* ===================================================================== *)
(** ** Facts about the library calls *)
(* ===================================================================== *)

Lemma everyM_true {A} (p : A -> outcome bool) (l : list A) :
  everyM p l = Ret true -> forall x, In x l -> p x = Ret true.
Proof.
  induction l as [|y l IH]; simpl; intros Hev x Hin; [contradiction|].
  unfold mbind, outcome_bind in Hev.
  destruct (p y) as [[|]|e] eqn:Hy; try discriminate.
  destruct Hin as [<-|Hin]; [assumption|]. now apply IH.
Qed.

Lemma everyM_returns {A} (p : A -> outcome bool) (l : list A) :
  (forall x, In x l -> returns (p x) = true) -> returns (everyM p l) = true.
Proof.
  induction l as [|y l IH]; simpl; intros Hp; [reflexivity|].
  unfold mbind, outcome_bind.
  pose proof (Hp y (or_introl eq_refl)) as Hy.
  destruct (p y) as [[|]|e]; try discriminate; [|reflexivity].
  apply IH. intros x Hx. apply Hp. now right.
Qed.

Lemma filterM_Ret {A} (p : A -> outcome bool) (l kept : list A) :
  filterM p l = Ret kept ->
  sublist kept l /\
  (forall x, In x kept -> In x l /\ p x = Ret true) /\
  (forall x, In x l -> p x = Ret true -> In x kept).
Proof.
  revert kept. induction l as [|y l IH]; simpl; intros kept Hf.
  - injection Hf as <-. repeat split; try contradiction. constructor.
  - unfold mbind, outcome_bind in Hf.
    destruct (p y) as [b|e] eqn:Hy; try discriminate.
    destruct (filterM p l) as [r|e] eqn:Hr; try discriminate.
    injection Hf as <-.
    destruct (IH r eq_refl) as (Hsub & Hin & Hall).
    destruct b.
    + split; [now constructor|]. split.
      * intros x [<-|Hx]; [split; [now left|assumption]|].
        destruct (Hin x Hx). split; [now right|assumption].
      * intros x [<-|Hx] Hpx; [now left|]. right. now apply Hall.
    + split; [now constructor|]. split.
      * intros x Hx. destruct (Hin x Hx). split; [now right|assumption].
      * intros x [<-|Hx] Hpx; [congruence|]. now apply Hall.
Qed.

Lemma filterM_Throw {A} (p : A -> outcome bool) (l : list A) (e : js_error) :
  filterM p l = Throw e -> exists x, In x l /\ p x = Throw e.
Proof.
  induction l as [|y l IH]; simpl; intros Hf; [discriminate|].
  unfold mbind, outcome_bind in Hf.
  destruct (p y) as [b|e'] eqn:Hy.
  - destruct (filterM p l) as [r|e'] eqn:Hr; try discriminate.
    injection Hf as ->. destruct (IH eq_refl) as (x & Hx & Hpx).
    exists x. split; [now right|assumption].
  - injection Hf as ->. exists y. split; [now left|assumption].
Qed.

Lemma filterM_returns {A} (p : A -> outcome bool) (l : list A) :
  (forall x, In x l -> returns (p x) = true) -> returns (filterM p l) = true.
Proof.
  intros Hp. destruct (filterM p l) as [r|e] eqn:Hf; [reflexivity|].
  destruct (filterM_Throw _ _ _ Hf) as (x & Hx & Hpx).
  specialize (Hp x Hx). now rewrite Hpx in Hp.
Qed.

(* ===================================================================== *)
(** ** Facts about coercions *)
(* ===================================================================== *)

Section CoercionFacts.
Context `{JSRuntime}.

Lemma ToString_cons (x : value) (rest : list value) :
  ToString (VArr (x :: rest)) =
  let elem := match x with VUndef | VNull => Ret "" | _ => ToString x end in
  match rest with
  | [] => elem
  | _ :: _ =>
      match elem with
      | Ret s => match ToString (VArr rest) with
                 | Ret r => Ret (s ++ "," ++ r)%string
                 | Throw e => Throw e
                 end
      | Throw e => Throw e
      end
  end.
Proof. reflexivity. Qed.

Lemma ToString_plain (v : value) : plain v = true -> returns (ToString v) = true.
Proof.
  induction v as [ | | b | n | s | items IH | props | name ] using value_array_ind;
    try reflexivity.
  - destruct b; reflexivity.
  - induction items as [|x rest IHrest]; [reflexivity|].
    intros Hp. simpl in Hp. apply andb_prop in Hp as [Hx Hrest].
    inversion IH as [|? ? IHx IHr]; subst.
    specialize (IHrest IHr Hrest). specialize (IHx Hx).
    rewrite ToString_cons. cbv zeta.
    assert (He : returns (match x with VUndef | VNull => Ret "" | _ => ToString x end) = true)
      by (destruct x; try reflexivity; exact IHx).
    destruct rest as [|y rest']; [exact He|].
    destruct (match x with VUndef | VNull => Ret "" | _ => ToString x end);
      [|discriminate].
    destruct (ToString (VArr (y :: rest'))); [reflexivity|discriminate].
  - simpl. intros Hp. destruct (has_own "toString" props); [discriminate|reflexivity].
  - simpl. intros _. now destruct (String.eqb name "__proto__").
Qed.

Lemma ToPrimitive_plain (v : value) :
  plain v = true -> exists p, ToPrimitive v = Ret p /\ plain p = true.
Proof.
  intros Hp. pose proof (ToString_plain v Hp) as Hs.
  destruct v; cbv [ToPrimitive mbind outcome_bind];
    try (eexists; split; [reflexivity|assumption]).
  - destruct (ToString (VArr items)); [|discriminate].
    eexists; split; reflexivity.
  - destruct (ToString (VObj props)); [|discriminate].
    eexists; split; reflexivity.
  - destruct (ToString (VBuiltin name)); [|discriminate].
    eexists; split; reflexivity.
Qed.

Lemma ToNumber_plain (v : value) : plain v = true -> returns (ToNumber v) = true.
Proof.
  intros Hp. pose proof (ToString_plain v Hp) as Hs.
  destruct v as [ | | [|] | | | | | ]; cbv [ToNumber mbind outcome_bind];
    try reflexivity.
  - destruct (ToString (VArr items)); [reflexivity|discriminate].
  - destruct (ToString (VObj props)); [reflexivity|discriminate].
  - destruct (ToString (VBuiltin name)); [reflexivity|discriminate].
Qed.

Lemma IsLessThan_plain (x y : value) (leftFirst : bool) :
  plain x = true -> plain y = true -> returns (IsLessThan x y leftFirst) = true.
Proof.
  intros Hx Hy.
  destruct (ToPrimitive_plain x Hx) as (px & Hpx & Hppx).
  destruct (ToPrimitive_plain y Hy) as (py & Hpy & Hppy).
  unfold IsLessThan. rewrite Hpx, Hpy.
  assert (Hpair : (if leftFirst
                   then px0 ← Ret px; py0 ← Ret py; Ret (px0, py0)
                   else py0 ← Ret py; px0 ← Ret px; Ret (px0, py0)) = Ret (px, py))
    by (destruct leftFirst; reflexivity).
  rewrite Hpair. unfold mbind at 1. unfold outcome_bind at 1.
  pose proof (ToNumber_plain px Hppx) as Hnx.
  pose proof (ToNumber_plain py Hppy) as Hny.
  unfold mbind, outcome_bind.
  destruct px, py; try (destruct (ToNumber _); [|discriminate]);
    try (destruct (ToNumber _); [|discriminate]); reflexivity.
Qed.

Lemma plain_row_get (row : Row) (field : string) :
  plain_row row = true -> plain (row_get row field) = true.
Proof.
  unfold row_get. induction row as [|[k v] row IH]; simpl;
    [now destruct (is_inherited field)|].
  intros Hp. apply andb_prop in Hp as [Hv Hrow].
  destruct (String.eqb field k); [exact Hv|now apply IH].
Qed.

End CoercionFacts.

(* ===================================================================== *)
(** ** Filtering *)
(* ===================================================================== *)

Section Filtering.
Context `{JSRuntime}.

Lemma applyFilters_run (st : server_state) (data : loc) (filters : list Filter) :
  applyFilters data filters st =
  match filter_rows (rows_at st data) filters with
  | Ret kept =>
      (mkState (datasets st) (arrays st ++ [kept]), Ret (length (arrays st)))
  | Throw e => (st, Throw e)
  end.
Proof.
  unfold applyFilters, array_read, array_alloc, lift, mbind, M_bind, rows_at.
  destruct (filter_rows _ filters); reflexivity.
Qed.

Lemma rows_at_fresh (st : server_state) (rows : list Row) :
  rows_at (mkState (datasets st) (arrays st ++ [rows])) (length (arrays st)) = rows.
Proof.
  unfold rows_at. simpl. now rewrite list_lookup_middle.
Qed.

Lemma eval_filter_unknown (row : Row) (f : Filter) :
  is_known_operator (f_operator f) = false -> eval_filter row f = Ret true.
Proof.
  unfold is_known_operator, known_operators, eval_filter. simpl.
  intros Hk. repeat (apply orb_false_elim in Hk as [-> Hk]). reflexivity.
Qed.

Lemma eval_filter_ok (row : Row) (f : Filter) :
  plain_row row = true -> filter_ok f = true -> returns (eval_filter row f) = true.
Proof.
  intros Hrow Hf.
  pose proof (plain_row_get row (f_field f) Hrow) as Hv.
  unfold filter_ok in Hf. unfold eval_filter.
  destruct (String.eqb (f_operator f) "eq") eqn:E1; [reflexivity|].
  destruct (String.eqb (f_operator f) "ne") eqn:E2; [reflexivity|].
  destruct (String.eqb (f_operator f) "in") eqn:Ein.
  - apply String.eqb_eq in Ein. rewrite Ein. simpl.
    destruct (f_value f); try discriminate; simpl; [|reflexivity].
    pose proof (ToString_plain _ Hv) as Hs.
    unfold mbind, outcome_bind.
    destruct (ToString (row_get row (f_field f))); [reflexivity|discriminate].
  - pose proof (IsLessThan_plain _ _ true Hv Hf) as L1.
    pose proof (IsLessThan_plain _ _ false Hf Hv) as L2.
    pose proof (ToString_plain _ Hv) as S1.
    pose proof (ToString_plain _ Hf) as S2.
    unfold js_gt, js_ge, js_lt, js_le, fmap, outcome_fmap, mbind, outcome_bind.
    repeat match goal with
           | |- context [if String.eqb ?a ?b then _ else _] =>
               destruct (String.eqb a b)
           end;
      repeat match goal with
             | Hr : returns ?m = true |- context [match ?m with _ => _ end] =>
                 destruct m; [|discriminate Hr]
             end; reflexivity.
Qed.


(** C4 (as amended).  On rows whose values are plain, and with filters whose
    [in] values are arrays or strings and whose other values are plain,
    [applyFilters] does not throw: it returns a new array, and the state is
    only extended by that array.  Range filters over non-numeric values are
    among these.  An [in] filter whose value is not a sequence throws a
    [TypeError] on every row it is evaluated on. *)
Theorem applyFilters_total_on_wellformed
  (st : server_state) (data : loc) (filters : list Filter) :
  forallb plain_row (rows_at st data) = true ->
  forallb filter_ok filters = true ->
  (exists kept,
     applyFilters data filters st =
     (mkState (datasets st) (arrays st ++ [kept]), Ret (length (arrays st)))) /\
  (forall row f, f_operator f = "in" -> not_a_sequence (f_value f) = true ->
                 exists msg, eval_filter row f = Throw (TypeError msg)).
Proof.
  intros Hrows Hfilters. split.
  - rewrite applyFilters_run.
    assert (Hr : returns (filter_rows (rows_at st data) filters) = true).
    { apply filterM_returns. intros row Hrow.
      apply everyM_returns. intros f Hf.
      apply eval_filter_ok.
      - rewrite forallb_forall in Hrows. now apply Hrows.
      - rewrite forallb_forall in Hfilters. now apply Hfilters. }
    destruct (filter_rows (rows_at st data) filters) as [kept|e]; [|discriminate].
    now exists kept.
  - intros row f Hop Hseq. unfold eval_filter. rewrite Hop. simpl.
    destruct (f_value f); try discriminate; simpl; eexists; reflexivity.
Qed.

End Filtering.

(* ===================================================================== *)
(** ** Facts about binary64 arithmetic *)
(* ===================================================================== *)

Lemma SFcompare_Eq_euclid (a b k : spec_float) :
  SFcompare a k = Some Eq -> SFcompare b k = Some Eq -> SFcompare a b = Some Eq.
Proof.
  destruct a as [sa|sa| |sa ma ea], b as [sb|sb| |sb mb eb], k as [sk|sk| |sk mk ek];
    simpl; try discriminate; try reflexivity;
    try (destruct sa, sb, sk; simpl; congruence).
  destruct sa, sb, sk; simpl; try discriminate.
  all: destruct (Z.compare ea ek) eqn:Ea; try discriminate;
       destruct (Z.compare eb ek) eqn:Eb; try discriminate;
       apply Z.compare_eq in Ea; apply Z.compare_eq in Eb; subst;
       rewrite Z.compare_refl;
       change (PosDef.Pos.compare_cont Eq ma mk) with (Pos.compare ma mk);
       change (PosDef.Pos.compare_cont Eq mb mk) with (Pos.compare mb mk);
       change (PosDef.Pos.compare_cont Eq ma mb) with (Pos.compare ma mb);
       destruct (Pos.compare ma mk) eqn:Ma; try discriminate;
       destruct (Pos.compare mb mk) eqn:Mb; try discriminate;
       apply Pos.compare_eq in Ma; apply Pos.compare_eq in Mb; subst;
       now rewrite Pos.compare_refl.
Qed.

Lemma eqb_euclid (a b k : float) :
  (a =? k)%float = true -> (b =? k)%float = true -> (a =? b)%float = true.
Proof.
  rewrite !FloatAxioms.eqb_spec. unfold SFeqb.
  destruct (SFcompare (Prim2SF a) (Prim2SF k)) as [[| |]|] eqn:Ea; try discriminate.
  destruct (SFcompare (Prim2SF b) (Prim2SF k)) as [[| |]|] eqn:Eb; try discriminate.
  now rewrite (SFcompare_Eq_euclid _ _ _ Ea Eb).
Qed.

Lemma binary_round_aux_sign prec emax s m e l :
  match binary_round_aux prec emax s m e l with
  | S754_zero s' | S754_infinity s' | S754_finite s' _ _ => s' = s
  | S754_nan => True
  end.
Proof.
  unfold binary_round_aux.
  destruct (shr_fexp prec emax m e l) as [mrs e'].
  destruct (shr_fexp prec emax _ e' loc_Exact) as [mrs' e''].
  destruct (shr_m mrs'); [reflexivity| |exact I].
  destruct (Z.leb e'' _); reflexivity.
Qed.

Lemma binary_normalize_positive prec emax m e :
  sf_positive (binary_normalize prec emax m e false) = true -> (0 < m)%Z.
Proof.
  destruct m as [|p|p]; simpl; [discriminate|lia|].
  unfold binary_round. destruct (shl_align _ _ _) as [mz ez].
  pose proof (binary_round_aux_sign prec emax true (Zpos mz) ez loc_Exact) as Hs.
  destruct (binary_round_aux prec emax true (Zpos mz) ez loc_Exact); subst; discriminate.
Qed.

Lemma binary_normalize_negative prec emax m e :
  sf_negative (binary_normalize prec emax m e false) = true -> (m < 0)%Z.
Proof.
  destruct m as [|p|p]; simpl; [discriminate| |lia].
  unfold binary_round. destruct (shl_align _ _ _) as [mz ez].
  pose proof (binary_round_aux_sign prec emax false (Zpos mz) ez loc_Exact) as Hs.
  destruct (binary_round_aux prec emax false (Zpos mz) ez loc_Exact); subst; discriminate.
Qed.

Ltac easy_float_cases :=
  try solve [ repeat match goal with s : bool |- _ => destruct s end;
              simpl; first [ reflexivity | discriminate | split; reflexivity ] ].

Lemma SFsub_positive_antisym prec emax (a b : spec_float) :
  sf_positive (SFsub prec emax a b) = true -> sf_positive (SFsub prec emax b a) = false.
Proof.
  destruct a as [sa|sa| |sa ma ea], b as [sb|sb| |sb mb eb]; easy_float_cases.
  unfold SFsub. cbv zeta. intros Hp. apply binary_normalize_positive in Hp.
  destruct (sf_positive (binary_normalize prec emax _ (Z.min eb ea) false)) eqn:Hq;
    [|reflexivity].
  apply binary_normalize_positive in Hq.
  rewrite (Z.min_comm eb ea) in Hq. lia.
Qed.

Lemma SFsub_eq_zero prec emax (a b : spec_float) :
  SFcompare a b = Some Eq ->
  sf_positive (SFsub prec emax b a) = false /\ sf_negative (SFsub prec emax b a) = false.
Proof.
  destruct a as [sa|sa| |sa ma ea], b as [sb|sb| |sb mb eb]; easy_float_cases.
  intros Hc.
  assert (Heq : sa = sb /\ ea = eb /\ ma = mb).
  { simpl in Hc. destruct sa, sb; try discriminate;
      (destruct (Z.compare ea eb) eqn:Ee; try discriminate;
       apply Z.compare_eq in Ee;
       change (PosDef.Pos.compare_cont Eq ma mb) with (Pos.compare ma mb) in Hc;
       destruct (Pos.compare ma mb) eqn:Em; try discriminate;
       apply Pos.compare_eq in Em; auto). }
  destruct Heq as (-> & -> & ->).
  unfold SFsub. cbv zeta. rewrite Z.sub_diag. split; reflexivity.
Qed.

Lemma Prim2SF_zero : Prim2SF 0%float = S754_zero false.
Proof. reflexivity. Qed.

Lemma sign_of_sub_eq (a b : float) :
  (a =? b)%float = true -> sign_of_float (b - a)%float = 0%Z.
Proof.
  rewrite FloatAxioms.eqb_spec. unfold SFeqb.
  destruct (SFcompare (Prim2SF a) (Prim2SF b)) as [[| |]|] eqn:Hc; try discriminate.
  intros _. destruct (SFsub_eq_zero prec emax _ _ Hc) as [Hp Hn].
  unfold sign_of_float. rewrite !ltb_spec, sub_spec, Prim2SF_zero.
  unfold SF64sub. unfold sf_positive in Hp. unfold sf_negative in Hn.
  now rewrite Hp, Hn.
Qed.

Lemma sign_of_sub_antisym (a b : float) :
  (0 < sign_of_float (b - a)%float)%Z -> (sign_of_float (a - b)%float <= 0)%Z.
Proof.
  unfold sign_of_float. rewrite !ltb_spec, !sub_spec, Prim2SF_zero. unfold SF64sub.
  destruct (SFltb (SFsub prec emax (Prim2SF b) (Prim2SF a)) (S754_zero false));
    [lia|].
  destruct (SFltb (S754_zero false) (SFsub prec emax (Prim2SF b) (Prim2SF a))) eqn:Hp;
    [|lia].
  intros _. apply SFsub_positive_antisym in Hp. unfold sf_positive in Hp. rewrite Hp.
  destruct (SFltb (SFsub prec emax (Prim2SF a) (Prim2SF b)) (S754_zero false)); lia.
Qed.

(** *** The sign of a difference

    A difference of two different binary64 numbers is never rounded to
    zero, so [b - a] is positive exactly when [a < b]. *)

Section DifferenceSigns.
Local Open Scope Z_scope.

Lemma digits2_pos_bounds (m : positive) :
  2 ^ (Zpos (digits2_pos m) - 1) <= Zpos m < 2 ^ Zpos (digits2_pos m).
Proof.
  induction m as [m IH|m IH|]; cbn [digits2_pos].
  - rewrite Pos2Z.inj_succ.
    replace (Z.succ (Zpos (digits2_pos m)) - 1) with (Z.succ (Zpos (digits2_pos m) - 1)) by lia.
    rewrite !Z.pow_succ_r by lia. lia.
  - rewrite Pos2Z.inj_succ.
    replace (Z.succ (Zpos (digits2_pos m)) - 1) with (Z.succ (Zpos (digits2_pos m) - 1)) by lia.
    rewrite !Z.pow_succ_r by lia. lia.
  - simpl. lia.
Qed.

(** Shifting a positive mantissa right by fewer places than it has digits
    leaves a positive mantissa. *)
Lemma shr_1_digits (mrs : shr_record) (m : positive) :
  shr_m mrs = Zpos m -> (1 < digits2_pos m)%positive ->
  exists m', shr_m (shr_1 mrs) = Zpos m' /\
             Zpos (digits2_pos m') = Zpos (digits2_pos m) - 1.
Proof.
  destruct mrs as [mm r s]. cbn [shr_m]. intros -> Hd.
  destruct m as [p|p|]; cbn [digits2_pos] in *.
  - exists p. split; [reflexivity|lia].
  - exists p. split; [reflexivity|lia].
  - lia.
Qed.

Lemma iter_shr_1_digits (p : positive) :
  forall (mrs : shr_record) (m : positive),
    shr_m mrs = Zpos m -> (p < digits2_pos m)%positive ->
    exists m', shr_m (SpecFloat.iter_pos shr_1 p mrs) = Zpos m' /\
               Zpos (digits2_pos m') = Zpos (digits2_pos m) - Zpos p.
Proof.
  induction p as [p IH|p IH|]; intros mrs m Hm Hd; cbn [SpecFloat.iter_pos].
  - destruct (shr_1_digits mrs m Hm) as (m1 & H1 & D1); [lia|].
    destruct (IH _ m1 H1) as (m2 & H2 & D2); [lia|].
    destruct (IH _ m2 H2) as (m3 & H3 & D3); [lia|].
    exists m3. split; [exact H3|lia].
  - destruct (IH _ m Hm) as (m2 & H2 & D2); [lia|].
    destruct (IH _ m2 H2) as (m3 & H3 & D3); [lia|].
    exists m3. split; [exact H3|lia].
  - destruct (shr_1_digits mrs m Hm) as (m1 & H1 & D1); [lia|].
    exists m1. split; [exact H1|lia].
Qed.

Lemma shr_fexp_positive (m : positive) (e : Z) (l : location) :
  emin <= e ->
  exists m' , shr_m (fst (shr_fexp prec emax (Zpos m) e l)) = Zpos m' /\
              emin <= snd (shr_fexp prec emax (Zpos m) e l).
Proof.
  intros He. unfold shr_fexp, shr. cbn [Zdigits2].
  assert (Hrec : shr_m (shr_record_of_loc (Zpos m) l) = Zpos m)
    by (destruct l as [|[| |]]; reflexivity).
  destruct (fexp prec emax (Zpos (digits2_pos m) + e) - e) as [|p|p] eqn:Hn;
    cbn [fst snd]; try (exists m; split; [exact Hrec|exact He]).
  unfold fexp, SpecFloat.emin, prec, emax in *.
  destruct (iter_shr_1_digits p _ m Hrec) as (m' & Hm' & _); [lia|].
  exists m'. split; [exact Hm'|lia].
Qed.

Lemma round_nearest_even_positive (m : positive) (l : location) :
  exists m', round_nearest_even (Zpos m) l = Zpos m'.
Proof.
  destruct l as [|[| |]]; simpl; try (eexists; reflexivity).
  destruct m; simpl; eexists; reflexivity.
Qed.

Lemma binary_round_aux_signed (sx : bool) (m : positive) (e : Z) (l : location) :
  emin <= e ->
  SFcompare (S754_zero false) (binary_round_aux prec emax sx (Zpos m) e l) =
    Some (if sx then Gt else Lt).
Proof.
  intros He. unfold binary_round_aux.
  destruct (shr_fexp_positive m e l He) as (m1 & H1 & He1).
  destruct (shr_fexp prec emax (Zpos m) e l) as [mrs1 e1]. cbn [fst snd] in *.
  rewrite H1.
  destruct (round_nearest_even_positive m1 (loc_of_shr_record mrs1)) as [m2 H2].
  rewrite H2.
  destruct (shr_fexp_positive m2 e1 loc_Exact He1) as (m3 & H3 & He3).
  destruct (shr_fexp prec emax (Zpos m2) e1 loc_Exact) as [mrs3 e3]. cbn [fst snd] in *.
  rewrite H3. now destruct (_ <=? _), sx.
Qed.

(** A difference that is not zero does not round to zero: the result has the
    sign of the exact difference. *)
Lemma binary_normalize_signed (d e : Z) :
  d <> 0 -> emin <= e ->
  SFcompare (S754_zero false) (binary_normalize prec emax d e false) =
    Some (if d <? 0 then Gt else Lt).
Proof.
  intros Hd He. destruct d as [|p|p]; try lia;
    unfold binary_normalize, binary_round;
    destruct (shl_align p e (fexp prec emax (Zpos (digits2_pos p) + e))) as [mz ez] eqn:Hs;
    (replace (Zneg p <? 0) with true by reflexivity);
    (replace (Zpos p <? 0) with false by reflexivity);
    apply binary_round_aux_signed;
    unfold shl_align in Hs;
    (destruct (fexp prec emax (Zpos (digits2_pos p) + e) - e) eqn:Hn;
     injection Hs as <- <-; try exact He;
     unfold fexp, SpecFloat.emin, prec, emax in *; lia).
Qed.

Lemma iter_xO_value (m d : positive) :
  Zpos (Pos.iter xO m d) = Zpos m * 2 ^ Zpos d.
Proof.
  induction d as [|d IH] using Pos.peano_ind.
  - simpl. lia.
  - rewrite Pos.iter_succ, Pos2Z.inj_succ, Z.pow_succ_r by lia.
    rewrite Pos2Z.inj_xO, IH. lia.
Qed.

Lemma shl_align_value (m : positive) (e ez : Z) :
  ez <= e -> Zpos (fst (shl_align m e ez)) = Zpos m * 2 ^ (e - ez).
Proof.
  intros He. unfold shl_align.
  destruct (ez - e) as [|d|d] eqn:Hd; cbn [fst]; try lia.
  - replace (e - ez) with 0 by lia. lia.
  - rewrite iter_xO_value. replace (e - ez) with (Zpos d) by lia. reflexivity.
Qed.

Lemma valid_finite_bounds (s : bool) (m : positive) (e : Z) :
  valid_binary (S754_finite s m e) = true ->
  emin <= e /\ Zpos m < 2 ^ prec /\ (emin < e -> 2 ^ (prec - 1) <= Zpos m).
Proof.
  unfold valid_binary, bounded, canonical_mantissa, fexp.
  intros H. apply andb_prop in H. destruct H as [H _]. apply Z.eqb_eq in H.
  pose proof (digits2_pos_bounds m) as [Hlo Hhi].
  unfold SpecFloat.emin, prec, emax in *.
  split; [lia|]. split.
  - eapply Z.lt_le_trans; [exact Hhi|]. apply Z.pow_le_mono_r; lia.
  - intros He. replace (Zpos (digits2_pos m)) with 53 in Hlo by lia. exact Hlo.
Qed.

(** Of two valid positive numbers, the one with the smaller exponent, or
    with the same exponent and the smaller mantissa, has the smaller
    mantissa once both are brought to the smaller exponent. *)
Lemma aligned_lt (mx my : positive) (ex ey : Z) (sx sy : bool) :
  valid_binary (S754_finite sx mx ex) = true ->
  valid_binary (S754_finite sy my ey) = true ->
  match Z.compare ex ey with
  | Lt => True
  | Eq => Pos.compare_cont Eq mx my = Lt
  | Gt => False
  end ->
  Zpos (fst (shl_align mx ex (Z.min ex ey))) < Zpos (fst (shl_align my ey (Z.min ex ey))).
Proof.
  intros Hx Hy Hc.
  apply valid_finite_bounds in Hx, Hy.
  destruct Hx as (Hex & Hmx & _). destruct Hy as (Hey & _ & Hmy).
  rewrite !shl_align_value by lia.
  destruct (Z.compare_spec ex ey) as [->|Hlt|Hgt]; try contradiction.
  - rewrite Z.min_id, Z.sub_diag. change (Pos.compare_cont Eq mx my) with (mx ?= my)%positive in Hc.
    assert (Zpos mx < Zpos my) by exact Hc. change (2 ^ 0) with 1. lia.
  - rewrite Z.min_l by lia. rewrite Z.sub_diag.
    assert (H2 : 2 ^ 1 <= 2 ^ (ey - ex)) by (apply Z.pow_le_mono_r; lia).
    specialize (Hmy ltac:(lia)).
    change (2 ^ prec) with (2 * 2 ^ (prec - 1)) in Hmx.
    change (2 ^ 1) with 2 in H2. change (2 ^ 0) with 1. nia.
Qed.

Lemma aligned_order (sx sy : bool) (mx my : positive) (ex ey : Z) :
  valid_binary (S754_finite sx mx ex) = true ->
  valid_binary (S754_finite sy my ey) = true ->
  SFcompare (S754_finite sx mx ex) (S754_finite sy my ey) = Some Lt ->
  cond_Zopp sx (Zpos (fst (shl_align mx ex (Z.min ex ey)))) <
  cond_Zopp sy (Zpos (fst (shl_align my ey (Z.min ex ey)))).
Proof.
  intros Hx Hy Hc. cbn [SFcompare] in Hc.
  destruct sx, sy; try discriminate; cbn [cond_Zopp].
  - assert (H := aligned_lt my mx ey ex true true Hy Hx).
    rewrite (Z.min_comm ey ex) in H.
    destruct (Z.compare_spec ex ey) as [E|L|G]; try discriminate.
    + subst ey. rewrite Z.compare_refl in H.
      change (Pos.compare_cont Eq my mx) with (my ?= mx)%positive in H.
      change (Pos.compare_cont Eq mx my) with (mx ?= my)%positive in Hc.
      rewrite (Pos.compare_antisym mx my) in H.
      destruct (mx ?= my)%positive; try discriminate. specialize (H eq_refl). lia.
    + apply Z.compare_lt_iff in G. rewrite G in H. lia.
  - lia.
  - assert (H := aligned_lt mx my ex ey false false Hx Hy).
    destruct (ex ?= ey); try discriminate.
    + destruct (Pos.compare_cont Eq mx my); try discriminate. specialize (H eq_refl). lia.
    + lia.
Qed.

(** Subtracting the smaller of two numbers from the greater gives a positive
    number, and the other way round a negative one: the difference does not
    round to zero. *)
Lemma SFsub_of_lt (x y : spec_float) :
  valid_binary x = true -> valid_binary y = true ->
  SFcompare x y = Some Lt ->
  SFcompare (S754_zero false) (SFsub prec emax y x) = Some Lt /\
  SFcompare (S754_zero false) (SFsub prec emax x y) = Some Gt.
Proof.
  intros Hx Hy Hc.
  destruct x as [sx|sx| |sx mx ex], y as [sy|sy| |sy my ey]; try discriminate;
    try (destruct sx, sy; try discriminate; split; reflexivity);
    try (destruct sx; try discriminate; split; reflexivity);
    try (destruct sy; try discriminate; split; reflexivity).
  pose proof (aligned_order _ _ _ _ _ _ Hx Hy Hc) as Hlt.
  apply valid_finite_bounds in Hx, Hy.
  cbn [SFsub]. rewrite (Z.min_comm ey ex). split.
  - rewrite binary_normalize_signed by lia.
    destruct (Z.ltb_spec (cond_Zopp sy (Zpos (fst (shl_align my ey (Z.min ex ey)))) -
                          cond_Zopp sx (Zpos (fst (shl_align mx ex (Z.min ex ey))))) 0);
      [lia|reflexivity].
  - rewrite binary_normalize_signed by lia.
    destruct (Z.ltb_spec (cond_Zopp sx (Zpos (fst (shl_align mx ex (Z.min ex ey)))) -
                          cond_Zopp sy (Zpos (fst (shl_align my ey (Z.min ex ey))))) 0);
      [reflexivity|lia].
Qed.

Lemma SFcompare_zero_flip (f : spec_float) (c : comparison) :
  SFcompare (S754_zero false) f = Some c -> SFcompare f (S754_zero false) = Some (CompOpp c).
Proof. destruct f as [s|s| |s m e]; simpl; try discriminate; intros [= <-]; now try destruct s. Qed.

Lemma ltb_sub_signs (a b : float) :
  (a <? b)%float = true ->
  ((0 <? b - a)%float = true /\ (b - a <? 0)%float = false) /\
  ((a - b <? 0)%float = true /\ (0 <? a - b)%float = false).
Proof.
  rewrite !ltb_spec, !sub_spec. unfold SFltb at 1.
  destruct (SFcompare (Prim2SF a) (Prim2SF b)) as [[| |]|] eqn:Hc; try discriminate.
  intros _.
  destruct (SFsub_of_lt _ _ (Prim2SF_valid a) (Prim2SF_valid b) Hc) as [Hp Hn].
  change (Prim2SF 0) with (S754_zero false). unfold SFltb, SF64sub.
  rewrite Hp, Hn, (SFcompare_zero_flip _ _ Hp), (SFcompare_zero_flip _ _ Hn).
  repeat split.
Qed.

End DifferenceSigns.

Lemma SFcompare_refl_nan (f : spec_float) :
  SFcompare f f = Some Eq \/ f = S754_nan.
Proof.
  destruct f as [s|s| |s m e]; simpl; auto; left.
  - now destruct s.
  - rewrite Z.compare_refl.
    change (PosDef.Pos.compare_cont Eq m m) with (Pos.compare m m).
    rewrite Pos.compare_refl. now destruct s.
Qed.

Lemma ltb_nan_l (x y : float) : is_nan x = true -> (x <? y)%float = false.
Proof.
  unfold is_nan. rewrite FloatAxioms.eqb_spec, ltb_spec. unfold SFeqb, SFltb.
  destruct (SFcompare_refl_nan (Prim2SF x)) as [->| ->]; [discriminate|reflexivity].
Qed.

Lemma ltb_nan_r (x y : float) : is_nan y = true -> (x <? y)%float = false.
Proof.
  unfold is_nan. rewrite FloatAxioms.eqb_spec, ltb_spec. unfold SFeqb, SFltb.
  destruct (SFcompare_refl_nan (Prim2SF y)) as [->| ->]; [discriminate|].
  intros _. now destruct (Prim2SF x).
Qed.

Lemma strict_eq_euclid (a b k : value) :
  strict_eq a k = true -> strict_eq b k = true -> strict_eq a b = true.
Proof.
  destruct a, b, k; simpl; try discriminate; try reflexivity.
  - destruct b0, b1, b; reflexivity || discriminate.
  - apply eqb_euclid.
  - rewrite !String.eqb_eq. congruence.
  - rewrite !String.eqb_eq. congruence.
Qed.

(* ===================================================================== *)
(** ** Facts about sorting *)
(* ===================================================================== *)

Section SortFacts.
Context {A : Type}.
Variable cmp : A -> A -> outcome Z.

Lemma insertM_perm (x : A) (l r : list A) :
  insertM cmp x l = Ret r -> Permutation (x :: l) r.
Proof.
  revert r. induction l as [|y l IH]; simpl; intros r Hr.
  - injection Hr as <-. reflexivity.
  - unfold mbind, outcome_bind in Hr.
    destruct (cmp x y) as [c|e]; [|discriminate].
    destruct (c <=? 0)%Z.
    + injection Hr as <-. reflexivity.
    + destruct (insertM cmp x l) as [r'|e]; [|discriminate].
      injection Hr as <-. rewrite perm_swap. constructor. now apply IH.
Qed.

Lemma js_sort_perm (l s : list A) : js_sort cmp l = Ret s -> Permutation l s.
Proof.
  revert s. induction l as [|x l IH]; simpl; intros s Hs.
  - injection Hs as <-. reflexivity.
  - unfold mbind, outcome_bind in Hs.
    destruct (js_sort cmp l) as [s'|e]; [|discriminate].
    rewrite <- (insertM_perm _ _ _ Hs). constructor. now apply IH.
Qed.

(** Elements that the comparator does not order strictly never pass one
    another. *)
Lemma insertM_filter (p : A -> bool) (x : A) (l r : list A) :
  (forall y c, In y l -> p x = true -> p y = true -> cmp x y = Ret c -> (c <= 0)%Z) ->
  insertM cmp x l = Ret r ->
  List.filter p r = if p x then x :: List.filter p l else List.filter p l.
Proof.
  revert r. induction l as [|y l IH]; simpl; intros r Hle Hr.
  - injection Hr as <-. simpl. now destruct (p x).
  - unfold mbind, outcome_bind in Hr.
    destruct (cmp x y) as [c|e] eqn:Hc; [|discriminate].
    destruct (c <=? 0)%Z eqn:Hc0.
    + injection Hr as <-. simpl. now destruct (p x), (p y).
    + destruct (insertM cmp x l) as [r'|e]; [|discriminate].
      injection Hr as <-. simpl.
      rewrite (IH r'); [|intros; eapply Hle; eauto|reflexivity].
      destruct (p x) eqn:Hx, (p y) eqn:Hy; try reflexivity.
      specialize (Hle y c (or_introl eq_refl) eq_refl Hy Hc). lia.
Qed.

Lemma js_sort_filter (p : A -> bool) (l s : list A) :
  (forall x y c, In x l -> In y l -> p x = true -> p y = true ->
                 cmp x y = Ret c -> (c <= 0)%Z) ->
  js_sort cmp l = Ret s -> List.filter p s = List.filter p l.
Proof.
  revert s. induction l as [|x l IH]; simpl; intros s Hle Hs.
  - now injection Hs as <-.
  - unfold mbind, outcome_bind in Hs.
    destruct (js_sort cmp l) as [s'|e] eqn:Hs'; [|discriminate].
    rewrite (insertM_filter p x s' s); [| |assumption].
    + rewrite (IH s'); [reflexivity| |reflexivity].
      intros a b c Ha Hb. apply Hle; now right.
    + intros y c Hy. apply Hle; [now left|].
      right. apply (Permutation_in _ (Permutation_sym (js_sort_perm _ _ Hs'))), Hy.
Qed.

Lemma insertM_Throw (x : A) (l : list A) (e : js_error) :
  insertM cmp x l = Throw e -> exists y, In y l /\ cmp x y = Throw e.
Proof.
  induction l as [|y l IH]; simpl; intros Hr; [discriminate|].
  unfold mbind, outcome_bind in Hr.
  destruct (cmp x y) as [c|e'] eqn:Hc.
  - destruct (c <=? 0)%Z; [discriminate|].
    destruct (insertM cmp x l) as [r'|e'']; [discriminate|].
    injection Hr as ->. destruct (IH eq_refl) as (z & Hz & Hcz).
    exists z. split; [now right|assumption].
  - injection Hr as ->. exists y. split; [now left|assumption].
Qed.

Lemma js_sort_Throw (l : list A) (e : js_error) :
  js_sort cmp l = Throw e -> exists x y, In x l /\ In y l /\ cmp x y = Throw e.
Proof.
  induction l as [|x l IH]; simpl; intros Hs; [discriminate|].
  unfold mbind, outcome_bind in Hs.
  destruct (js_sort cmp l) as [s'|e'] eqn:Hs'.
  - destruct (insertM_Throw _ _ _ Hs) as (y & Hy & Hc).
    exists x, y. split; [now left|]. split; [|assumption].
    right. apply (Permutation_in _ (Permutation_sym (js_sort_perm _ _ Hs'))), Hy.
  - injection Hs as ->. destruct (IH eq_refl) as (a & b & Ha & Hb & Hc).
    exists a, b. repeat split; try assumption; now right.
Qed.

(** With a comparator that never orders two elements strictly both ways,
    neighbours in the result are in order. *)
Lemma insertM_sorted (x : A) (l r : list A) :
  (forall a b c, cmp a b = Ret c -> (0 < c)%Z ->
                 exists c', cmp b a = Ret c' /\ (c' <= 0)%Z) ->
  Sorted.Sorted (fun a b => exists c, cmp a b = Ret c /\ (c <= 0)%Z) l ->
  insertM cmp x l = Ret r ->
  Sorted.Sorted (fun a b => exists c, cmp a b = Ret c /\ (c <= 0)%Z) r.
Proof.
  intros Hanti. revert r. induction l as [|y l IH]; simpl; intros r Hsorted Hr.
  - injection Hr as <-. repeat constructor.
  - unfold mbind, outcome_bind in Hr.
    destruct (cmp x y) as [c|e] eqn:Hc; [|discriminate].
    destruct (c <=? 0)%Z eqn:Hc0.
    + injection Hr as <-. constructor; [assumption|].
      constructor. exists c. split; [assumption|lia].
    + destruct (insertM cmp x l) as [r'|e] eqn:Hr'; [|discriminate].
      injection Hr as <-.
      apply Sorted.Sorted_inv in Hsorted as [Hl Hhd].
      constructor; [now apply IH|].
      destruct l as [|z l'].
      * simpl in Hr'. injection Hr' as <-. constructor.
        apply (Hanti x y c Hc). lia.
      * simpl in Hr'. unfold mbind, outcome_bind in Hr'.
        destruct (cmp x z) as [c'|e]; [|discriminate].
        destruct (c' <=? 0)%Z.
        -- injection Hr' as <-. constructor. apply (Hanti x y c Hc). lia.
        -- destruct (insertM cmp x l'); [|discriminate].
           injection Hr' as <-. constructor. now apply Sorted.HdRel_inv in Hhd.
Qed.

Lemma js_sort_sorted (l s : list A) :
  (forall a b c, cmp a b = Ret c -> (0 < c)%Z ->
                 exists c', cmp b a = Ret c' /\ (c' <= 0)%Z) ->
  js_sort cmp l = Ret s ->
  Sorted.Sorted (fun a b => exists c, cmp a b = Ret c /\ (c <= 0)%Z) s.
Proof.
  intros Hanti. revert s. induction l as [|x l IH]; simpl; intros s Hs.
  - injection Hs as <-. constructor.
  - unfold mbind, outcome_bind in Hs.
    destruct (js_sort cmp l) as [s'|e]; [|discriminate].
    exact (insertM_sorted x s' s Hanti (IH s' eq_refl) Hs).
Qed.

End SortFacts.

(* ===================================================================== *)
(** ** Sorting rows *)
(* ===================================================================== *)

Section Sorting.
Context `{JSRuntime}.

Lemma sortData_run (st : server_state) (data : loc) (sort : SortSpec) :
  sortData data sort st =
  match sort_rows (rows_at st data) sort with
  | Ret sorted =>
      (mkState (datasets st) (arrays st ++ [sorted]), Ret (length (arrays st)))
  | Throw e =>
      (mkState (datasets st) (arrays st ++ [rows_at st data]), Throw e)
  end.
Proof.
  unfold sortData, array_copy, array_read, array_alloc, array_write, lift,
    mbind, M_bind, mret, M_ret, rows_at. simpl.
  rewrite list_lookup_middle by reflexivity. simpl.
  destruct (sort_rows _ sort); [|reflexivity].
  rewrite insert_app_r_alt by reflexivity.
  now rewrite Nat.sub_diag.
Qed.

Lemma js_lt_numbers (x y : float) : js_lt (VNum x) (VNum y) = Ret (x <? y)%float.
Proof.
  unfold js_lt, IsLessThan. simpl.
  destruct (is_nan x) eqn:Hx; simpl; [now rewrite ltb_nan_l|].
  destruct (is_nan y) eqn:Hy; simpl; [now rewrite ltb_nan_r|].
  now destruct (x <? y)%float.
Qed.

Lemma sort_compare_same_key (sort : SortSpec) (k : value) (a b : Row) :
  same_key (s_field sort) k a = true -> same_key (s_field sort) k b = true ->
  sort_compare sort a b = Ret 0%Z.
Proof.
  unfold same_key, sort_compare. intros Ha Hb.
  now rewrite (strict_eq_euclid _ _ _ Ha Hb).
Qed.

Lemma sort_compare_plain (sort : SortSpec) (a b : Row) :
  plain_row a = true -> plain_row b = true ->
  returns (sort_compare sort a b) = true.
Proof.
  intros Ha Hb. unfold sort_compare.
  destruct (strict_eq _ _); [reflexivity|].
  pose proof (IsLessThan_plain _ _ true (plain_row_get a (s_field sort) Ha)
                (plain_row_get b (s_field sort) Hb)) as Hlt.
  unfold js_lt, fmap, outcome_fmap, mbind, outcome_bind.
  destruct (row_get a (s_field sort)), (row_get b (s_field sort));
    try reflexivity;
    (destruct (IsLessThan _ _ true); [reflexivity|discriminate]).
Qed.

End Sorting.

(* ===================================================================== *)
(** ** Running handlers *)
(* ===================================================================== *)

Lemma M_bind_run {A B} (m : M A) (f : A -> M B) (st : server_state) :
  (m ≫= f) st =
  match m st with
  | (st', Ret a) => f a st'
  | (st', Throw e) => (st', Throw e)
  end.
Proof. reflexivity. Qed.

Lemma array_read_run (l : loc) (st : server_state) :
  array_read l st = (st, Ret (rows_at st l)).
Proof. reflexivity. Qed.

Lemma array_alloc_run (rows : list Row) (st : server_state) :
  array_alloc rows st =
  (mkState (datasets st) (arrays st ++ [rows]), Ret (length (arrays st))).
Proof. reflexivity. Qed.

Lemma array_copy_run (l : loc) (st : server_state) :
  array_copy l st =
  (mkState (datasets st) (arrays st ++ [rows_at st l]), Ret (length (arrays st))).
Proof. reflexivity. Qed.

Lemma array_slice_run (l : loc) (start end_ : Z) (st : server_state) :
  array_slice l start end_ st =
  (mkState (datasets st) (arrays st ++ [js_slice (rows_at st l) start end_]),
   Ret (length (arrays st))).
Proof. reflexivity. Qed.

Lemma datasets_get_run (name : string) (st : server_state) :
  datasets_get name st = (st, Ret (assoc name (datasets st))).
Proof. reflexivity. Qed.

Lemma rows_at_new (d : list (string * Dataset)) (h : list (list Row)) (rows : list Row) :
  rows_at (mkState d (h ++ [rows])) (length h) = rows.
Proof. unfold rows_at. simpl. now rewrite list_lookup_middle. Qed.

Lemma rows_at_old (d : list (string * Dataset)) (h ext : list (list Row)) (l : loc) :
  l < length h -> rows_at (mkState d (h ++ ext)) l = rows_at (mkState d h) l.
Proof. intros Hl. unfold rows_at. simpl. now rewrite lookup_app_l. Qed.

Lemma filter_rows_nil `{JSRuntime} (rows : list Row) : filter_rows rows [] = Ret rows.
Proof.
  unfold filter_rows. induction rows as [|r rows IH]; simpl; [reflexivity|].
  unfold mbind, outcome_bind. now rewrite IH.
Qed.

Lemma js_slice_nonneg {A} (l : list A) (offset limit : Z) :
  (0 <= offset)%Z -> (0 <= limit)%Z ->
  js_slice l offset (offset + limit) =
  firstn (Z.to_nat limit) (skipn (Z.to_nat offset) l).
Proof.
  intros Ho Hl. unfold js_slice, slice_index.
  destruct (offset <? 0)%Z eqn:E1; [lia|].
  destruct (offset + limit <? 0)%Z eqn:E2; [lia|].
  destruct (Z_le_gt_dec offset (Z.of_nat (length l))) as [Hin|Hout].
  - rewrite (Z.min_l offset) by lia.
    destruct (Z_le_gt_dec (offset + limit) (Z.of_nat (length l))) as [Hin'|Hout'].
    + rewrite Z.min_l by lia. f_equal. lia.
    + rewrite Z.min_r by lia.
      rewrite !firstn_all2; try reflexivity; rewrite length_skipn; lia.
  - rewrite !Z.min_r by lia.
    rewrite !skipn_all2 by lia. now rewrite !firstn_nil.
Qed.

Lemma extends_refl (st : server_state) : extends st st.
Proof. split; [reflexivity|]. exists []. now rewrite app_nil_r. Qed.

Lemma extends_alloc (st st' : server_state) (rows : list Row) :
  extends st st' -> extends st (mkState (datasets st') (arrays st' ++ [rows])).
Proof.
  intros [Hd [ext He]]. split; [exact Hd|].
  exists (ext ++ [rows]). simpl. now rewrite He, app_assoc.
Qed.

Lemma extends_same_arrays (st st' : server_state) :
  datasets st' = datasets st -> arrays st' = arrays st -> extends st st'.
Proof. intros Hd Ha. split; [exact Hd|]. exists []. now rewrite app_nil_r. Qed.

Lemma M_ret_run {A} (a : A) (st : server_state) : (mret a : M A) st = (st, Ret a).
Proof. reflexivity. Qed.

Lemma lift_run {A} (o : outcome A) (st : server_state) : lift o st = (st, o).
Proof. reflexivity. Qed.

Lemma outcome_bind_Ret {A B} (a : A) (f : A -> outcome B) : (Ret a ≫= f) = f a.
Proof. reflexivity. Qed.

Lemma outcome_bind_Throw {A B} (e : js_error) (f : A -> outcome B) :
  (Throw e ≫= f) = Throw e.
Proof. reflexivity. Qed.

Lemma outcome_fmap_Ret {A B} (a : A) (f : A -> B) : f <$> Ret a = Ret (f a).
Proof. reflexivity. Qed.

Lemma outcome_fmap_Throw {A B} (e : js_error) (f : A -> B) :
  f <$> (Throw e : outcome A) = Throw e.
Proof. reflexivity. Qed.

Ltac solve_extends :=
  split; [reflexivity | simpl; rewrite <- ?app_assoc; eexists; reflexivity].

Ltac run_step :=
  repeat progress
    (rewrite ?M_bind_run, ?M_ret_run, ?lift_run, ?datasets_get_run,
       ?array_copy_run, ?array_read_run, ?array_slice_run, ?array_alloc_run,
       ?outcome_bind_Ret, ?outcome_bind_Throw, ?outcome_fmap_Ret,
       ?outcome_fmap_Throw;
     cbv beta iota zeta; cbn [datasets arrays]).

Section QueryData.
Context `{JSRuntime}.

Lemma query_data_not_found (st : server_state) (p : QueryParams) :
  assoc (q_dataset p) (datasets st) = None ->
  query_data p st = (st, Ret not_found).
Proof.
  intros Hnone. unfold query_data. run_step. now rewrite Hnone.
Qed.

Lemma query_data_run (st : server_state) (p : QueryParams) (ds : Dataset) :
  assoc (q_dataset p) (datasets st) = Some ds ->
  exists st',
    extends st st' /\
    query_data p st =
    (st', (fun r => mkEnvelope r false) <$> query_result (rows_at st (ds_data ds)) p).
Proof.
  intros Hds. unfold query_data, query_result. run_step. rewrite Hds. run_step.
  set (rows := rows_at st (ds_data ds)).
  destruct (default [] (q_filters p)) as [|f fs] eqn:Hfs.
  - (* no filter: the copy is used as it is *)
    cbn [length Nat.ltb Nat.leb]. rewrite filter_rows_nil. run_step.
    rewrite !rows_at_new.
    destruct (q_sort p) as [sort|].
    + rewrite sortData_run, rows_at_new.
      destruct (sort_rows rows sort) as [sorted|e]; run_step;
        rewrite ?rows_at_new; eexists; (split; [|reflexivity]); solve_extends.
    + run_step. rewrite !rows_at_new.
      eexists; (split; [|reflexivity]); solve_extends.
  - cbn [length Nat.ltb Nat.leb]. rewrite applyFilters_run, rows_at_new.
    destruct (filter_rows rows (f :: fs)) as [kept|e]; run_step.
    + rewrite !rows_at_new.
      destruct (q_sort p) as [sort|].
      * rewrite sortData_run, rows_at_new.
        destruct (sort_rows kept sort) as [sorted|e]; run_step;
          rewrite ?rows_at_new; eexists; (split; [|reflexivity]); solve_extends.
      * run_step. rewrite !rows_at_new.
        eexists; (split; [|reflexivity]); solve_extends.
    + eexists; (split; [|reflexivity]); solve_extends.
Qed.

End QueryData.

Lemma js_slice_sublist {A} (l : list A) (start end_ : Z) :
  sublist (js_slice l start end_) l.
Proof.
  unfold js_slice. etransitivity; [apply sublist_take|apply sublist_drop].
Qed.

Lemma js_slice_In {A} (l : list A) (start end_ : Z) (x : A) :
  In x (js_slice l start end_) -> In x l.
Proof.
  rewrite <- !list_elem_of_In. intros Hx.
  exact (elem_of_sublist _ _ x Hx (js_slice_sublist l start end_)).
Qed.

Section Pagination.
Context `{JSRuntime}.

(** C5 (as amended).  When the dataset exists, the filters and the sort
    evaluate without throwing, and the (defaulted) offset and limit are
    integers that are not negative, [query-data] answers with a page that is the [limit] rows
    following the first [offset] rows of the filtered and sorted list: its
    length is at most [limit], [totalCount] is the number of rows after
    filtering and before sorting and pagination, [hasMore] is
    [offset + limit < totalCount], and an offset at or beyond [totalCount],
    or a limit of 0, gives the empty page. *)
Theorem query_data_pagination
  (st : server_state) (p : QueryParams) (ds : Dataset) (kept sorted : list Row) :
  assoc (q_dataset p) (datasets st) = Some ds ->
  filter_rows (rows_at st (ds_data ds)) (default [] (q_filters p)) = Ret kept ->
  match q_sort p with
  | Some sort => sort_rows kept sort
  | None => Ret kept
  end = Ret sorted ->
  (0 <= default 0 (q_offset p))%Z ->
  (0 <= default 100 (q_limit p))%Z ->
  let offset := default 0%Z (q_offset p) in
  let limit := default 100%Z (q_limit p) in
  let totalCount := length kept in
  exists st' page,
    query_data p st =
    (st', Ret (mkEnvelope
                 (PQuery page totalCount offset limit
                         (offset + limit <? Z.of_nat totalCount)%Z) false)) /\
    extends st st' /\
    page = firstn (Z.to_nat limit) (skipn (Z.to_nat offset) sorted) /\
    (Z.of_nat (length page) <= limit)%Z /\
    ((Z.of_nat totalCount <= offset)%Z -> page = []) /\
    (limit = 0%Z -> page = []).
Proof.
  intros Hds Hkept Hsorted Hoff Hlim offset limit totalCount.
  destruct (query_data_run st p ds Hds) as (st' & Hext & Hrun).
  unfold query_result in Hrun. rewrite Hkept in Hrun.
  rewrite outcome_bind_Ret, Hsorted, outcome_bind_Ret, outcome_fmap_Ret in Hrun.
  assert (Hlen : length sorted = length kept).
  { destruct (q_sort p) as [sort|].
    - symmetry. apply Permutation_length. exact (js_sort_perm _ _ _ Hsorted).
    - now injection Hsorted as <-. }
  exists st', (js_slice sorted offset (offset + limit)).
  split; [exact Hrun|]. split; [exact Hext|].
  rewrite js_slice_nonneg by assumption.
  split; [reflexivity|]. split; [|split].
  - rewrite length_firstn. lia.
  - intros Hbig. rewrite skipn_all2 by (fold totalCount in Hlen; lia).
    apply firstn_nil.
  - intros ->. reflexivity.
Qed.

(** C10.  Omitting [limit], [offset] or [filters] from a [query-data]
    request gives the same run as sending 100, 0 and the empty list; and a
    request without filters, once its sort has evaluated, reports as
    [totalCount] the number of records of the dataset and returns a page
    whose rows are all records of the dataset. *)
Theorem query_data_defaults
  (st : server_state) (dataset : string) (filters : option (list Filter))
  (sort : option SortSpec) (limit offset : option Z) :
  query_data (mkQuery dataset filters sort None offset) st =
  query_data (mkQuery dataset filters sort (Some 100%Z) offset) st /\
  query_data (mkQuery dataset filters sort limit None) st =
  query_data (mkQuery dataset filters sort limit (Some 0%Z)) st /\
  query_data (mkQuery dataset None sort limit offset) st =
  query_data (mkQuery dataset (Some []) sort limit offset) st /\
  (forall ds sorted,
      assoc dataset (datasets st) = Some ds ->
      match sort with
      | Some s => sort_rows (rows_at st (ds_data ds)) s
      | None => Ret (rows_at st (ds_data ds))
      end = Ret sorted ->
      exists st' page hasMore,
        query_data (mkQuery dataset None sort limit offset) st =
        (st', Ret (mkEnvelope
                     (PQuery page (length (rows_at st (ds_data ds)))
                             (default 0%Z offset) (default 100%Z limit) hasMore)
                     false)) /\
        page = js_slice sorted (default 0%Z offset)
                        (default 0%Z offset + default 100%Z limit) /\
        (forall row, In row page -> In row (rows_at st (ds_data ds)))).
Proof.
  repeat split; try reflexivity.
  intros ds sorted Hds Hsorted.
  destruct (query_data_run st (mkQuery dataset None sort limit offset) ds Hds)
    as (st' & Hext & Hrun).
  unfold query_result in Hrun. cbn [q_filters q_sort q_limit q_offset default] in Hrun.
  rewrite filter_rows_nil, outcome_bind_Ret, Hsorted, outcome_bind_Ret,
    outcome_fmap_Ret in Hrun.
  eexists st', _, _. split; [exact Hrun|]. split; [reflexivity|].
  intros row Hrow. apply js_slice_In in Hrow.
  destruct sort as [s|].
  - apply (Permutation_in _ (Permutation_sym (js_sort_perm _ _ _ Hsorted))), Hrow.
  - now injection Hsorted as <-.
Qed.

End Pagination.

(* ===================================================================== *)
(** ** The datasets are never modified *)
(* ===================================================================== *)

Lemma extends_trans (st1 st2 st3 : server_state) :
  extends st1 st2 -> extends st2 st3 -> extends st1 st3.
Proof.
  intros [Hd1 [e1 He1]] [Hd2 [e2 He2]]. split; [congruence|].
  exists (e1 ++ e2). now rewrite He2, He1, app_assoc.
Qed.

Lemma extends_rows_at (st st' : server_state) (l : loc) :
  extends st st' -> l < length (arrays st) -> rows_at st' l = rows_at st l.
Proof.
  intros [_ [ext He]] Hl. unfold rows_at. rewrite He. now rewrite lookup_app_l.
Qed.

Lemma extends_wf (st st' : server_state) :
  extends st st' -> wf_state st -> wf_state st'.
Proof.
  intros [Hd [ext He]] Hwf name ds Hin. rewrite Hd in Hin.
  specialize (Hwf name ds Hin). rewrite He, length_app. lia.
Qed.

Lemma preserves_ret {A} (a : A) : preserves (mret a : M A).
Proof. intros st. apply extends_refl. Qed.

Lemma preserves_lift {A} (o : outcome A) : preserves (lift o).
Proof. intros st. apply extends_refl. Qed.

Lemma preserves_bind {A B} (m : M A) (f : A -> M B) :
  preserves m -> (forall a, preserves (f a)) -> preserves (m ≫= f).
Proof.
  intros Hm Hf st. rewrite M_bind_run. specialize (Hm st).
  destruct (m st) as [st' [a|e]]; simpl in *; [|exact Hm].
  exact (extends_trans _ _ _ Hm (Hf a st')).
Qed.

Lemma preserves_array_read (l : loc) : preserves (array_read l).
Proof. intros st. apply extends_refl. Qed.

Lemma preserves_array_alloc (rows : list Row) : preserves (array_alloc rows).
Proof. intros st. apply extends_alloc, extends_refl. Qed.

Lemma preserves_datasets_get (name : string) : preserves (datasets_get name).
Proof. intros st. apply extends_refl. Qed.

Lemma preserves_datasets_values : preserves datasets_values.
Proof. intros st. apply extends_refl. Qed.

Lemma preserves_mapMM {A B} (f : A -> M B) (l : list A) :
  (forall a, preserves (f a)) -> preserves (mapMM f l).
Proof.
  intros Hf. induction l as [|x l IH]; simpl; [apply preserves_ret|].
  apply preserves_bind; [apply Hf|]. intros y.
  apply preserves_bind; [exact IH|]. intros r. apply preserves_ret.
Qed.

Create HintDb preserves.

#[local] Hint Resolve preserves_ret preserves_lift preserves_array_read
  preserves_array_alloc preserves_datasets_get preserves_datasets_values
  : preserves.

Section Frame.
Context `{JSRuntime}.

Lemma preserves_array_copy (l : loc) : preserves (array_copy l).
Proof. intros st. rewrite array_copy_run. apply extends_alloc, extends_refl. Qed.

Lemma preserves_array_slice (l : loc) (a b : Z) : preserves (array_slice l a b).
Proof. intros st. rewrite array_slice_run. apply extends_alloc, extends_refl. Qed.

Lemma preserves_applyFilters (l : loc) (filters : list Filter) :
  preserves (applyFilters l filters).
Proof.
  intros st. rewrite applyFilters_run.
  destruct (filter_rows _ filters); [apply extends_alloc|]; apply extends_refl.
Qed.

(** The in-place sort of [sortData] writes to the copy it has just made. *)
Lemma preserves_sortData (l : loc) (sort : SortSpec) : preserves (sortData l sort).
Proof.
  intros st. rewrite sortData_run.
  destruct (sort_rows _ sort); apply extends_alloc, extends_refl.
Qed.

Lemma preserves_call_tool (c : tool_call) : preserves (call_tool c).
Proof.
  destruct c as [|d|p|p|p]; simpl.
  - unfold list_datasets.
    apply preserves_bind; [auto with preserves|]. intros all.
    apply preserves_bind; [|intros; auto with preserves].
    apply preserves_mapMM. intros ds.
    apply preserves_bind; intros; auto with preserves.
  - unfold get_schema.
    apply preserves_bind; [auto with preserves|]. intros [ds|]; [|auto with preserves].
    apply preserves_bind; [auto with preserves|]. intros rows.
    apply preserves_bind; intros; auto with preserves.
  - unfold query_data.
    apply preserves_bind; [auto with preserves|]. intros [ds|]; [|auto with preserves].
    apply preserves_bind; [apply preserves_array_copy|]. intros data.
    apply preserves_bind.
    { destruct (_ <? _)%nat; [apply preserves_applyFilters|auto with preserves]. }
    intros data'. apply preserves_bind; [auto with preserves|]. intros filtered.
    apply preserves_bind.
    { destruct (q_sort p); [apply preserves_sortData|auto with preserves]. }
    intros data''. apply preserves_bind; [apply preserves_array_slice|]. intros d3.
    apply preserves_bind; intros; auto with preserves.
  - unfold aggregate.
    apply preserves_bind; [auto with preserves|]. intros [ds|]; [|auto with preserves].
    apply preserves_bind; [auto with preserves|]. intros rows.
    apply preserves_bind; intros; auto with preserves.
  - unfold export_data.
    apply preserves_bind; [auto with preserves|]. intros [ds|]; [|auto with preserves].
    apply preserves_bind; [apply preserves_array_copy|]. intros data.
    apply preserves_bind.
    { destruct (_ <? _)%nat; [apply preserves_applyFilters|auto with preserves]. }
    intros data'. apply preserves_bind; [auto with preserves|]. intros rows.
    apply preserves_bind; [|intros; auto with preserves].
    destruct (String.eqb _ _); auto with preserves.
Qed.

(** C9.  In a store whose datasets refer to existing arrays, a call of any
    of the five tools, whether it returns or throws, leaves the [datasets]
    map as it was (so every dataset keeps its name, description, schema and
    [data] reference) and leaves the rows behind every dataset's [data]
    unchanged: the state after the call is the state before it plus newly
    created arrays.  The store is then again well formed. *)
Theorem call_tool_preserves_datasets
  (st : server_state) (c : tool_call) (name : string) (ds : Dataset) :
  wf_state st ->
  In (name, ds) (datasets st) ->
  let st' := fst (call_tool c st) in
  datasets st' = datasets st /\
  rows_at st' (ds_data ds) = rows_at st (ds_data ds) /\
  (exists created, arrays st' = arrays st ++ created) /\
  wf_state st'.
Proof.
  intros Hwf Hin st'.
  pose proof (preserves_call_tool c st) as Hext. fold st' in Hext.
  split; [apply Hext|]. split; [|split].
  - apply extends_rows_at; [exact Hext|]. exact (Hwf name ds Hin).
  - apply Hext.
  - exact (extends_wf _ _ Hext Hwf).
Qed.

End Frame.

(* ===================================================================== *)
(** ** The relay *)
(* ===================================================================== *)

Lemma R_bind_liftR_Ret {A B} (a : A) (f : A -> R B) : (liftR (Ret a) ≫= f) = f a.
Proof. unfold liftR, mbind, R_bind. now destruct (f a). Qed.

Lemma R_bind_liftR_Throw {A B} (e : js_error) (f : A -> R B) :
  (liftR (Throw e) ≫= f) = ([], Throw e).
Proof. reflexivity. Qed.

Lemma R_bind_emit {B} (ef : effect) (f : unit -> R B) :
  (emit ef ≫= f) = (ef :: fst (f tt), snd (f tt)).
Proof. unfold emit, mbind, R_bind. now destruct (f tt). Qed.

Lemma R_bind_ret {A B} (a : A) (f : A -> R B) : ((mret a : R A) ≫= f) = f a.
Proof. unfold mret, R_ret, mbind, R_bind. now destruct (f a). Qed.

Lemma R_bind_Ret {A B} (tr : list effect) (a : A) (f : A -> R B) :
  (((tr, Ret a) : R A) ≫= f) = (tr ++ fst (f a), snd (f a)).
Proof. unfold mbind, R_bind. now destruct (f a). Qed.

Lemma R_bind_Throw {A B} (tr : list effect) (e : js_error) (f : A -> R B) :
  (((tr, Throw e) : R A) ≫= f) = (tr, Throw e).
Proof. reflexivity. Qed.

Lemma posts_app (tr1 tr2 : list effect) : posts (tr1 ++ tr2) = posts tr1 ++ posts tr2.
Proof. unfold posts. apply List.filter_app. Qed.

Lemma fetches_app (tr1 tr2 : list effect) :
  fetches (tr1 ++ tr2) = fetches tr1 ++ fetches tr2.
Proof. unfold fetches. apply List.filter_app. Qed.

Lemma is_str_MStr (v : msg) (s : string) : is_str v s = true -> v = MStr s.
Proof.
  destruct v; simpl; intros Hv; try discriminate Hv.
  apply String.eqb_eq in Hv. now subst.
Qed.

(** The request log stringifies [{ method, params: '...' or undefined }]:
    it throws exactly when the method cannot be serialised. *)
Lemma json_error_request_log (method : msg) (c : bool) :
  json_error (MObj [("method", method);
                    ("params", if c then MStr "..." else MUndef)]) =
  json_error method.
Proof.
  cbn [json_error]. destruct (json_error method); [reflexivity|].
  now destruct c.
Qed.

Section Relay.
Context `{JSRuntime}.
Variable backend : string -> msg -> outcome msg.
Variable contentWindow : window.

Lemma msg_to_string_cons (x : msg) (rest : list msg) :
  msg_to_string (MArr (x :: rest)) =
  let elem := match x with MUndef | MNull => Ret "" | _ => msg_to_string x end in
  match rest with
  | [] => elem
  | _ :: _ =>
      match elem with
      | Ret s =>
          match msg_to_string (MArr rest) with
          | Ret r => Ret (s ++ "," ++ r)%string
          | Throw e => Throw e
          end
      | Throw e => Throw e
      end
  end.
Proof. reflexivity. Qed.

Lemma msg_to_string_plain (v : msg) :
  msg_plain v = true -> returns (msg_to_string v) = true.
Proof.
  induction v as [ | | b | n | s | z | items IH | props | props ]
    using msg_array_ind; try reflexivity.
  - destruct b; reflexivity.
  - induction items as [|x rest IHrest]; [reflexivity|].
    intros Hp. simpl in Hp. apply andb_prop in Hp as [Hx Hrest].
    inversion IH as [|? ? IHx IHr]; subst.
    specialize (IHrest IHr Hrest). specialize (IHx Hx).
    rewrite msg_to_string_cons. cbv zeta.
    assert (He : returns (match x with
                          | MUndef | MNull => Ret ""
                          | _ => msg_to_string x
                          end) = true)
      by (destruct x; try reflexivity; exact IHx).
    destruct rest as [|y rest']; [exact He|].
    destruct (match x with MUndef | MNull => Ret "" | _ => msg_to_string x end);
      [|discriminate].
    destruct (msg_to_string (MArr (y :: rest'))); [reflexivity|discriminate].
  - simpl. intros Hp. destruct (has_own "toString" props); [discriminate|reflexivity].
  - simpl. intros Hp. destruct (has_own "toString" props); [discriminate|reflexivity].
Qed.

Lemma addLog_string (t : log_type) (s : string) :
  addLog t (MStr s) = ([ELog t (MStr s)], Ret tt).
Proof. reflexivity. Qed.

(** The request log: one entry, or the exception of [JSON.stringify] and
    no entry. *)
Lemma addLog_request (method : msg) (c : bool) :
  addLog LogRequest (MObj [("method", method);
                           ("params", if c then MStr "..." else MUndef)]) =
  match json_error method with
  | None => ([ELog LogRequest
                (MObj [("method", method);
                       ("params", if c then MStr "..." else MUndef)])], Ret tt)
  | Some e => ([], Throw e)
  end.
Proof.
  unfold addLog, stringify. rewrite json_error_request_log.
  destruct (json_error method); reflexivity.
Qed.

(** C2.  A message whose source is not the frame's window is dropped:
    [handleMessage] returns without any effect (no log entry, no call of the
    backend, no message posted) and without an exception. *)
Theorem handleMessage_drops_foreign_source (event : MessageEvent) :
  ev_source event <> contentWindow ->
  handleMessage backend contentWindow event = ([], Ret tt).
Proof.
  intros Hsrc. unfold handleMessage.
  apply Nat.eqb_neq in Hsrc. now rewrite Hsrc.
Qed.

(** A request reaches the request log and then the [try]. *)
Lemma handleMessage_request (event : MessageEvent) :
  ev_source event = contentWindow ->
  is_request (ev_data event) = true ->
  handleMessage backend contentWindow event =
  let id := member (ev_data event) "id" in
  let method := member (ev_data event) "method" in
  let params := member (ev_data event) "params" in
  (_ ← addLog LogRequest
        (MObj [("method", method);
               ("params", if msg_truthy params then MStr "..." else MUndef)]);
   try_catch
     (result ← handle_request backend method params;
      line ← (if is_str method "tools/call"
              then name ← liftR (get_member_opt params "name");
                   s ← liftR (msg_to_string name);
                   mret (s ++ " OK")%string
              else mret "OK");
      _ ← addLog LogResponse (MStr line);
      emit (EPost contentWindow (mkResponse id (RpcResult result))))
     (fun error =>
        _ ← addLog LogError (MStr (String_of_error error));
        emit (EPost contentWindow
                (mkResponse id (RpcError (-32000) (String_of_error error)))))).
Proof.
  intros Hsrc Hreq. unfold handleMessage.
  rewrite Hsrc, Nat.eqb_refl. simpl negb. cbv iota.
  unfold is_request in Hreq.
  destruct (ev_data event) as [ | | b|n|s|z|items|props|props];
    try discriminate Hreq;
    cbn [msg_truthy msg_typeof_object negb orb get_member member] in *;
    rewrite !R_bind_liftR_Ret, Hreq; reflexivity.
Qed.

(** A message from the frame that is not a request: at most one log
    entry. *)
Lemma handleMessage_other (event : MessageEvent) :
  is_request (ev_data event) = false ->
  let run := handleMessage backend contentWindow event in
  posts (fst run) = [] /\ fetches (fst run) = [] /\
  forallb is_log (fst run) = true /\ (length (fst run) <= 1)%nat /\
  (msg_plain (member (ev_data event) "method") = true -> snd run = Ret tt).
Proof.
  intros Hreq. cbv zeta. unfold handleMessage.
  destruct (negb (ev_source event =? contentWindow)%nat); [simpl; repeat split; auto|].
  unfold is_request in Hreq.
  destruct (ev_data event) as [ | | b|n|s|z|items|props|props] eqn:Hdata;
    try (simpl; repeat split; auto; fail).
  - destruct b; simpl; repeat split; auto.
  - simpl. destruct (negb (is_zero n || is_nan n)); simpl; repeat split; auto.
  - simpl. destruct (negb (String.eqb s "")); simpl; repeat split; auto.
  - simpl. destruct (negb (z =? 0)%Z); simpl; repeat split; auto.
  - cbn [msg_truthy msg_typeof_object negb orb get_member member] in *.
    rewrite !R_bind_liftR_Ret, Hreq.
    set (method := match assoc "method" props with Some x => x | None => MUndef end).
    destruct (msg_truthy method); [|simpl; repeat split; auto].
    destruct (msg_to_string method) as [m|e] eqn:Hm.
    + rewrite R_bind_liftR_Ret, addLog_string. simpl. repeat split; auto.
    + rewrite R_bind_liftR_Throw. simpl. repeat split; auto.
      intros Hp. pose proof (msg_to_string_plain _ Hp) as Hr. now rewrite Hm in Hr.
  - cbn [msg_truthy msg_typeof_object negb orb get_member member] in *.
    rewrite !R_bind_liftR_Ret, Hreq.
    set (method := match assoc "method" props with Some x => x | None => MUndef end).
    destruct (msg_truthy method); [|simpl; repeat split; auto].
    destruct (msg_to_string method) as [m|e] eqn:Hm.
    + rewrite R_bind_liftR_Ret, addLog_string. simpl. repeat split; auto.
    + rewrite R_bind_liftR_Throw. simpl. repeat split; auto.
      intros Hp. pose proof (msg_to_string_plain _ Hp) as Hr. now rewrite Hm in Hr.
Qed.

Ltac crunch_R :=
  unfold handle_request, callTool, setStatus, addLog, stringify, liftR, emit,
    mret, R_ret, mbind, R_bind;
  repeat (match goal with
          | |- context [match ?x with _ => _ end] =>
              lazymatch x with
              | context [match _ with _ => _ end] => fail
              | _ => destruct x eqn:?
              end
          end; simpl).

(** The handler posts nothing itself and calls the backend at most once. *)
Lemma handle_request_trace (method params : msg) :
  posts (fst (handle_request backend method params)) = [] /\
  (length (fetches (fst (handle_request backend method params))) <= 1)%nat.
Proof.
  crunch_R; split; simpl; auto.
Qed.

Lemma handle_request_unknown (method params : msg) :
  is_known_method method = false ->
  handle_request backend method params =
  (m ← liftR (msg_to_string method);
   _ ← addLog LogInfo (MStr ("Unhandled: " ++ m)%string);
   mret (MObj [])).
Proof.
  unfold is_known_method, known_methods. simpl. intros Hk.
  repeat (apply orb_false_elim in Hk as [? Hk]).
  unfold handle_request. now repeat match goal with Hm : _ = false |- _ => rewrite Hm; clear Hm end.
Qed.

Lemma handle_request_tools_call (method params : msg) :
  is_str method "tools/call" = true ->
  handle_request backend method params =
  (name ← liftR (get_member params "name");
   arguments ← liftR (get_member params "arguments");
   callTool backend name (if msg_truthy arguments then arguments else MObj [])).
Proof.
  intros Hm. apply is_str_MStr in Hm. subst. reflexivity.
Qed.

(** Reading [params.name] and [params.arguments] when the first read
    returns. *)
Lemma get_member_returns (params name : msg) (k : string) :
  get_member params k = Ret name ->
  name = member params k /\
  (forall k', get_member params k' = Ret (member params k')) /\
  (forall k', get_member_opt params k' = Ret (member params k')).
Proof.
  destruct params; simpl; intros [= <-]; repeat split; reflexivity.
Qed.

(** [tools/call] with a tool name that can be read and printed. *)
Lemma handle_request_tools_call_run (method params name : msg) (s : string) :
  is_str method "tools/call" = true ->
  get_member params "name" = Ret name ->
  msg_to_string name = Ret s ->
  handle_request backend method params =
  match json_error (tool_arguments params) with
  | Some e => ([], Throw e)
  | None => ([EFetch s (tool_arguments params)], backend s (tool_arguments params))
  end.
Proof.
  intros Hm Hname Hs. rewrite (handle_request_tools_call _ _ Hm).
  destruct (get_member_returns _ _ _ Hname) as (-> & Hget & _).
  rewrite !Hget, !R_bind_liftR_Ret. unfold callTool, tool_arguments. cbv zeta.
  rewrite Hs, R_bind_liftR_Ret. unfold stringify.
  destruct (json_error _) as [e|]; [reflexivity|].
  rewrite R_bind_liftR_Ret, R_bind_emit. unfold liftR. reflexivity.
Qed.

(** When the handler of [tools/call] has returned, the tool name has a
    string form, so building the log line cannot throw. *)
Lemma response_line_returns (method params result : msg) :
  snd (handle_request backend method params) = Ret result ->
  exists line,
    (if is_str method "tools/call"
     then name ← liftR (get_member_opt params "name");
          s ← liftR (msg_to_string name);
          mret (s ++ " OK")%string
     else mret "OK") = (([], Ret line) : R string).
Proof.
  destruct (is_str method "tools/call") eqn:Hm; [|now eexists].
  rewrite (handle_request_tools_call _ _ Hm).
  destruct (get_member params "name") as [name|e] eqn:Hname;
    [|rewrite R_bind_liftR_Throw; discriminate].
  destruct (get_member_returns _ _ _ Hname) as (-> & Hget & Hopt).
  rewrite !Hget, Hopt, !R_bind_liftR_Ret. unfold callTool.
  destruct (msg_to_string _) as [str|e];
    [rewrite !R_bind_liftR_Ret; eexists; reflexivity
    |rewrite R_bind_liftR_Throw; discriminate].
Qed.

(** What [handleMessage] does with a request whose method can be
    serialised. *)
Lemma handleMessage_request_outcome (event : MessageEvent) :
  ev_source event = contentWindow ->
  is_request (ev_data event) = true ->
  json_error (member (ev_data event) "method") = None ->
  let id := member (ev_data event) "id" in
  let method := member (ev_data event) "method" in
  let params := member (ev_data event) "params" in
  let handled := handle_request backend method params in
  exists tr body,
    handleMessage backend contentWindow event = (tr, Ret tt) /\
    posts tr = [EPost contentWindow (mkResponse id body)] /\
    body = match snd handled with
           | Ret result => RpcResult result
           | Throw e => RpcError (-32000) (String_of_error e)
           end /\
    fetches tr = fetches (fst handled) /\
    (length (fetches tr) <= 1)%nat.
Proof.
  intros Hsrc Hreq Hjson. cbv zeta.
  rewrite (handleMessage_request event Hsrc Hreq). cbv zeta.
  set (id := member (ev_data event) "id").
  set (method := member (ev_data event) "method") in *.
  set (params := member (ev_data event) "params").
  set (handled := handle_request backend method params).
  destruct (handle_request_trace method params) as [Hposts Hfetches].
  fold handled in Hposts, Hfetches.
  rewrite addLog_request, Hjson, R_bind_Ret. cbn [fst snd].
  destruct handled as [tr0 [result|e]] eqn:Hh; cbn [fst snd] in *.
  - destruct (response_line_returns method params result) as [line Hline].
    { fold handled. now rewrite Hh. }
    rewrite R_bind_Ret, Hline, R_bind_Ret, addLog_string. cbn [fst snd app].
    rewrite R_bind_Ret. cbn [fst snd try_catch emit app].
    eexists _, _. split; [reflexivity|].
    cbn [posts fetches List.filter is_post is_fetch].
    fold (posts (tr0 ++ [ELog LogResponse (MStr line);
                         EPost contentWindow (mkResponse id (RpcResult result))])).
    fold (fetches (tr0 ++ [ELog LogResponse (MStr line);
                           EPost contentWindow (mkResponse id (RpcResult result))])).
    rewrite posts_app, fetches_app, Hposts. cbn.
    rewrite app_nil_r. repeat split; auto.
  - rewrite R_bind_Throw. cbn [try_catch].
    rewrite addLog_string, R_bind_Ret. cbn [fst snd emit app].
    eexists _, _. split; [reflexivity|].
    cbn [posts fetches List.filter is_post is_fetch].
    fold (posts (tr0 ++ [ELog LogError (MStr (String_of_error e));
                         EPost contentWindow
                           (mkResponse id (RpcError (-32000) (String_of_error e)))])).
    fold (fetches (tr0 ++ [ELog LogError (MStr (String_of_error e));
                           EPost contentWindow
                             (mkResponse id (RpcError (-32000) (String_of_error e)))])).
    rewrite posts_app, fetches_app, Hposts. cbn.
    rewrite app_nil_r. repeat split; auto.
Qed.

(** A request whose method cannot be serialised stops at the request log,
    before the [try]. *)
Lemma handleMessage_request_unlogged (event : MessageEvent) (e : js_error) :
  ev_source event = contentWindow ->
  is_request (ev_data event) = true ->
  json_error (member (ev_data event) "method") = Some e ->
  handleMessage backend contentWindow event = ([], Throw e).
Proof.
  intros Hsrc Hreq Hjson.
  rewrite (handleMessage_request event Hsrc Hreq). cbv zeta.
  now rewrite addLog_request, Hjson.
Qed.

(** C1 (as amended).  For a message from the frame's window: if it carries
    the protocol tag ["2.0"] and an [id], and [JSON.stringify] can serialise
    its method, [handleMessage] runs the handler of the method once and posts
    exactly one message to that window, with the same [id]: the handler's
    result, or, when the handler threw, an error with code -32000 and the
    string form of the exception; the backend is called at most once, and for
    [tools/call] with a tool name that can be read and printed and arguments
    that can be serialised exactly once, its answer or failure being the
    handler's.  If the method cannot be serialised (it holds a BigInt or an
    object of a reference cycle), writing the request log throws before the
    [try] is entered: nothing is posted and the backend is not called.  A
    message without the tag or without an [id] is never answered. *)
Theorem handleMessage_one_response (event : MessageEvent) :
  ev_source event = contentWindow ->
  let message := ev_data event in
  let id := member message "id" in
  let method := member message "method" in
  let params := member message "params" in
  let handled := handle_request backend method params in
  let run := handleMessage backend contentWindow event in
  (is_request message = true -> json_error method = None ->
   exists tr body,
     run = (tr, Ret tt) /\
     posts tr = [EPost contentWindow (mkResponse id body)] /\
     body = match snd handled with
            | Ret result => RpcResult result
            | Throw e => RpcError (-32000) (String_of_error e)
            end /\
     fetches tr = fetches (fst handled) /\
     (length (fetches tr) <= 1)%nat /\
     (forall name s,
         is_str method "tools/call" = true ->
         get_member params "name" = Ret name ->
         msg_to_string name = Ret s ->
         json_error (tool_arguments params) = None ->
         fetches tr = [EFetch s (tool_arguments params)] /\
         snd handled = backend s (tool_arguments params))) /\
  (is_request message = true ->
   forall e, json_error method = Some e -> run = ([], Throw e)) /\
  (is_request message = false -> posts (fst run) = [] /\ fetches (fst run) = []).
Proof.
  intros Hsrc. cbv zeta. split; [|split].
  - intros Hreq Hjson.
    destruct (handleMessage_request_outcome event Hsrc Hreq Hjson)
      as (tr & body & Hrun & Hposts & Hbody & Hfetch & Hone).
    exists tr, body. repeat (split; [assumption|]).
    intros name s Hm Hname Hs Hargs. rewrite Hfetch.
    rewrite (handle_request_tools_call_run _ _ _ _ Hm Hname Hs), Hargs.
    split; reflexivity.
  - intros Hreq e Hjson. exact (handleMessage_request_unlogged event e Hsrc Hreq Hjson).
  - intros Hreq. destruct (handleMessage_other event Hreq) as (Hp & Hf & _).
    split; assumption.
Qed.

(** C8 (as amended).  A request (protocol tag ["2.0"] and an [id]) from
    the frame's window whose method is none of [ui/initialize], [tools/call]
    and [ping], and whose method can be serialised by [JSON.stringify]: if the
    method has a string form, in particular if it is a string, the request is
    answered with exactly one message, the empty result [{}] under the same
    [id], and the backend is not called; if it has none (an object with a
    property named [toString]), the request is answered with exactly one
    error of code -32000 instead. *)
Theorem handleMessage_unknown_method (event : MessageEvent) :
  ev_source event = contentWindow ->
  is_request (ev_data event) = true ->
  is_known_method (member (ev_data event) "method") = false ->
  json_error (member (ev_data event) "method") = None ->
  let id := member (ev_data event) "id" in
  let method := member (ev_data event) "method" in
  (msg_plain method = true ->
   exists tr,
     handleMessage backend contentWindow event = (tr, Ret tt) /\
     posts tr = [EPost contentWindow (mkResponse id (RpcResult (MObj [])))] /\
     fetches tr = []) /\
  (forall e, msg_to_string method = Throw e ->
   exists tr,
     handleMessage backend contentWindow event = (tr, Ret tt) /\
     posts tr = [EPost contentWindow
                   (mkResponse id (RpcError (-32000) (String_of_error e)))] /\
     fetches tr = []).
Proof.
  intros Hsrc Hreq Hunknown Hjson. cbv zeta.
  destruct (handleMessage_request_outcome event Hsrc Hreq Hjson)
    as (tr & body & Hrun & Hposts & Hbody & Hfetch & _).
  rewrite (handle_request_unknown _ _ Hunknown) in Hbody, Hfetch.
  split.
  - intros Hplain. exists tr. split; [exact Hrun|].
    pose proof (msg_to_string_plain _ Hplain) as Hs.
    destruct (msg_to_string (member (ev_data event) "method")) as [m|e]; [|discriminate].
    rewrite R_bind_liftR_Ret, addLog_string in Hbody, Hfetch.
    cbn in Hbody, Hfetch. subst body. split; [exact Hposts|exact Hfetch].
  - intros e He. exists tr. split; [exact Hrun|].
    rewrite He, R_bind_liftR_Throw in Hbody, Hfetch.
    cbn in Hbody, Hfetch. subst body. split; [exact Hposts|exact Hfetch].
Qed.

End Relay.



(* ===================================================================== *)
(** ** Facts about grouping *)
(* ===================================================================== *)

Lemma filter_filter_and {A} (p q : A -> bool) (l : list A) :
  List.filter p (List.filter q l) = List.filter (fun x => q x && p x) l.
Proof.
  induction l as [|x l IH]; simpl; [reflexivity|].
  destruct (q x); simpl; [destruct (p x)|]; now rewrite IH.
Qed.

Lemma map_id_in {A} (f : A -> A) (l : list A) :
  (forall x, In x l -> f x = x) -> map f l = l.
Proof.
  intros Hf. rewrite <- (map_id l) at 2. now apply map_ext_in.
Qed.

Lemma mem_In (k : string) (l : list string) : mem k l = true <-> In k l.
Proof.
  unfold mem. rewrite existsb_exists. split.
  - intros (x & Hx & Hk). apply String.eqb_eq in Hk. now subst.
  - intros Hk. exists k. split; [assumption|apply String.eqb_refl].
Qed.

Lemma mem_false (k : string) (l : list string) : mem k l = false <-> ~ In k l.
Proof.
  rewrite <- mem_In. destruct (mem k l); split; congruence.
Qed.

Lemma groups_push_in (g : list (string * list float)) (k : string) (v : float) :
  In k (map fst g) -> List.NoDup (map fst g) ->
  groups_push g k v =
  map (fun e => if String.eqb (fst e) k then (fst e, snd e ++ [v]) else e) g.
Proof.
  induction g as [|[k' vs] g IH]; simpl; intros Hin Hnd; [contradiction|].
  apply List.NoDup_cons_iff in Hnd as [Hk' Hnd].
  destruct (String.eqb k' k) eqn:Hk.
  - apply String.eqb_eq in Hk. subst k'. f_equal. symmetry. apply map_id_in.
    intros [k'' vs''] He. simpl.
    destruct (String.eqb k'' k) eqn:Hk''; [|reflexivity].
    apply String.eqb_eq in Hk''. subst k''. exfalso. apply Hk'.
    change k with (fst (k, vs'')). now apply in_map.
  - f_equal. apply IH; [|assumption].
    destruct Hin as [->|Hin]; [|assumption].
    now rewrite String.eqb_refl in Hk.
Qed.

Lemma groups_push_notin (g : list (string * list float)) (k : string) (v : float) :
  ~ In k (map fst g) -> groups_push g k v = g ++ [(k, [v])].
Proof.
  induction g as [|[k' vs] g IH]; simpl; intros Hin; [reflexivity|].
  destruct (String.eqb k' k) eqn:Hk.
  - apply String.eqb_eq in Hk. tauto.
  - f_equal. apply IH. tauto.
Qed.

Lemma groups_push_keys (g : list (string * list float)) (k : string) (v : float) :
  List.NoDup (map fst g) ->
  map fst (groups_push g k v) = if mem k (map fst g) then map fst g else map fst g ++ [k].
Proof.
  intros Hnd. destruct (mem k (map fst g)) eqn:Hm.
  - apply mem_In in Hm. rewrite groups_push_in by assumption.
    rewrite map_map. apply map_ext. intros e. now destruct (String.eqb (fst e) k).
  - apply mem_false in Hm. rewrite groups_push_notin by assumption.
    now rewrite map_app.
Qed.

Lemma groups_push_NoDup (g : list (string * list float)) (k : string) (v : float) :
  List.NoDup (map fst g) -> List.NoDup (map fst (groups_push g k v)).
Proof.
  intros Hnd. rewrite groups_push_keys by assumption.
  destruct (mem k (map fst g)) eqn:Hm; [assumption|].
  apply mem_false in Hm.
  apply (Permutation_NoDup (Permutation_cons_append (map fst g) k)).
  now constructor.
Qed.

Lemma values_of_cons (k' k : string) (v : float) (rest : list (string * float)) :
  values_of k' ((k, v) :: rest) =
  if String.eqb k k' then v :: values_of k' rest else values_of k' rest.
Proof.
  unfold values_of. simpl. now destruct (String.eqb k k').
Qed.

Lemma values_of_absent (k : string) (pairs : list (string * float)) :
  ~ In k (map fst pairs) -> values_of k pairs = [].
Proof.
  unfold values_of. induction pairs as [|[k' v] pairs IH]; simpl; intros Hin;
    [reflexivity|].
  destruct (String.eqb k' k) eqn:Hk.
  - apply String.eqb_eq in Hk. tauto.
  - apply IH. tauto.
Qed.

(** The groups after the loop: the old groups with the new values of their
    key appended, then one group per new key in order of first occurrence. *)
Lemma fold_push_spec (pairs : list (string * float)) :
  forall g : list (string * list float),
    List.NoDup (map fst g) ->
    fold_left push_pair pairs g =
    map (fun e => (fst e, snd e ++ values_of (fst e) pairs)) g ++
    map (fun k => (k, values_of k pairs))
        (List.filter (fun k => negb (mem k (map fst g)))
                     (first_occurrences (map fst pairs))).
Proof.
  induction pairs as [|[k v] rest IH]; intros g Hnd.
  - simpl. rewrite app_nil_r. symmetry. apply map_id_in.
    intros [k vs] _. unfold values_of. simpl. now rewrite app_nil_r.
  - simpl fold_left. unfold push_pair at 2. simpl fst. simpl snd.
    rewrite (IH _ (groups_push_NoDup g k v Hnd)).
    rewrite groups_push_keys by assumption.
    simpl map. simpl first_occurrences. simpl List.filter.
    destruct (mem k (map fst g)) eqn:Hm; simpl negb; cbv iota.
    + apply mem_In in Hm as Hin. rewrite groups_push_in by assumption.
      rewrite map_map. f_equal.
      * apply map_ext. intros [k' vs]. simpl. rewrite values_of_cons.
        rewrite (String.eqb_sym k k').
        destruct (String.eqb k' k); simpl; [now rewrite <- app_assoc|reflexivity].
      * rewrite filter_filter_and.
        rewrite (filter_ext_in
                   (fun x => negb (String.eqb x k) && negb (mem x (map fst g)))
                   (fun x => negb (mem x (map fst g)))).
        -- apply map_ext_in. intros x Hx. apply filter_In in Hx as [_ Hx].
           rewrite values_of_cons.
           destruct (String.eqb k x) eqn:Hkx; [|reflexivity].
           apply String.eqb_eq in Hkx. subst x. now rewrite Hm in Hx.
        -- intros x _. destruct (String.eqb x k) eqn:Hxk; [|reflexivity].
           apply String.eqb_eq in Hxk. subst x. now rewrite Hm.
    + apply mem_false in Hm as Hnin. rewrite groups_push_notin by assumption.
      rewrite map_app. simpl map. rewrite <- app_assoc. simpl app.
      rewrite values_of_cons, String.eqb_refl. f_equal.
      * apply map_ext_in. intros [k' vs] He. simpl. rewrite values_of_cons.
        destruct (String.eqb k k') eqn:Hkk; [|reflexivity].
        apply String.eqb_eq in Hkk. subst k'. exfalso. apply Hnin.
        change k with (fst (k, vs)). now apply in_map.
      * f_equal. rewrite filter_filter_and.
        rewrite (filter_ext
                   (fun x => negb (mem x (map fst g ++ [k])))
                   (fun x => negb (String.eqb x k) && negb (mem x (map fst g)))).
        -- apply map_ext_in. intros x Hx. apply filter_In in Hx as [_ Hx].
           rewrite values_of_cons.
           destruct (String.eqb k x) eqn:Hkx; [|reflexivity].
           apply String.eqb_eq in Hkx. subst x.
           now rewrite String.eqb_refl in Hx.
        -- intros x. unfold mem. rewrite existsb_app. simpl.
           rewrite orb_false_r, negb_orb. apply andb_comm.
Qed.

Lemma first_occurrences_In (k : string) (keys : list string) :
  In k (first_occurrences keys) <-> In k keys.
Proof.
  induction keys as [|k0 keys IH]; simpl; [reflexivity|].
  rewrite filter_In, IH. destruct (String.eqb k k0) eqn:Hk.
  - apply String.eqb_eq in Hk. subst. tauto.
  - simpl. apply String.eqb_neq in Hk. split; [tauto|].
    intros [->|Hin]; [tauto|]. right. now split.
Qed.

Lemma first_occurrences_NoDup (keys : list string) :
  List.NoDup (first_occurrences keys).
Proof.
  induction keys as [|k0 keys IH]; simpl; constructor.
  - rewrite filter_In. intros [_ Hk]. now rewrite String.eqb_refl in Hk.
  - now apply List.NoDup_filter.
Qed.

Lemma list_sum_map_add {A} (a b : A -> nat) (l : list A) :
  list_sum (map (fun x => a x + b x) l) = list_sum (map a l) + list_sum (map b l).
Proof. induction l as [|x l IH]; simpl; lia. Qed.

Lemma list_sum_indicator (k : string) (ks : list string) :
  List.NoDup ks ->
  list_sum (map (fun g => if String.eqb k g then 1 else 0) ks) =
  if mem k ks then 1 else 0.
Proof.
  induction ks as [|g ks IH]; simpl; intros Hnd; [reflexivity|].
  apply List.NoDup_cons_iff in Hnd as [Hg Hnd]. rewrite (IH Hnd).
  destruct (String.eqb k g) eqn:Hk; simpl; [|reflexivity].
  apply String.eqb_eq in Hk. subst g.
  apply mem_false in Hg. now rewrite Hg.
Qed.

(** Every pair is counted in exactly one group. *)
Lemma group_sizes_total (pairs : list (string * float)) (ks : list string) :
  List.NoDup ks ->
  (forall k, In k (map fst pairs) -> In k ks) ->
  list_sum (map (fun g => length (values_of g pairs)) ks) = length pairs.
Proof.
  intros Hnd. induction pairs as [|[k v] rest IH]; intros Hcover.
  - simpl. induction ks as [|g ks IHk]; simpl; [reflexivity|].
    apply List.NoDup_cons_iff in Hnd as [_ Hnd]. now apply IHk.
  - rewrite (map_ext _ (fun g => (if String.eqb k g then 1 else 0)
                                + length (values_of g rest))).
    + rewrite list_sum_map_add, list_sum_indicator by assumption.
      rewrite IH by (intros k' Hk'; apply Hcover; now right).
      assert (Hk : mem k ks = true) by (apply mem_In, Hcover; now left).
      now rewrite Hk.
    + intros g. rewrite values_of_cons. now destruct (String.eqb k g).
Qed.

Lemma list_sum_perm (l1 l2 : list nat) :
  Permutation l1 l2 -> list_sum l1 = list_sum l2.
Proof. induction 1; simpl; lia. Qed.

Lemma mapM_length {A B} (f : A -> outcome B) (l : list A) (r : list B) :
  mapM f l = Ret r -> length r = length l.
Proof.
  revert r. induction l as [|x l IH]; simpl; intros r Hr.
  - now injection Hr as <-.
  - unfold mbind, outcome_bind in Hr.
    destruct (f x); [|discriminate]. destruct (mapM f l); [|discriminate].
    injection Hr as <-. simpl. f_equal. now apply IH.
Qed.

Lemma mapM_returns {A B} (f : A -> outcome B) (l : list A) :
  (forall x, In x l -> returns (f x) = true) -> exists r, mapM f l = Ret r.
Proof.
  induction l as [|x l IH]; simpl; intros Hf; [now eexists|].
  pose proof (Hf x (or_introl eq_refl)) as Hx.
  destruct (f x) as [y|e]; [|discriminate].
  destruct IH as [r Hr]; [intros z Hz; apply Hf; now right|].
  unfold mbind, outcome_bind. rewrite Hr. now eexists.
Qed.

Lemma mapM_map {A B C} (f : B -> outcome C) (g : A -> B) (l : list A) :
  mapM f (map g l) = mapM (fun x => f (g x)) l.
Proof. induction l as [|x l IH]; simpl; [reflexivity|now rewrite IH]. Qed.

Lemma mapM_Ret_map {A B} (f : A -> outcome B) (g : A -> B) (l : list A) :
  (forall x, In x l -> f x = Ret (g x)) -> mapM f l = Ret (map g l).
Proof.
  induction l as [|x l IH]; simpl; intros Hf; [reflexivity|].
  rewrite (Hf x (or_introl eq_refl)), IH by (intros y Hy; apply Hf; now right).
  reflexivity.
Qed.

Lemma mapM_In {A B} (f : A -> outcome B) (l : list A) (r : list B) :
  mapM f l = Ret r ->
  Forall2 (fun x y => f x = Ret y) l r.
Proof.
  revert r. induction l as [|x l IH]; simpl; intros r Hr.
  - injection Hr as <-. constructor.
  - unfold mbind, outcome_bind in Hr.
    destruct (f x) as [y|e] eqn:Hx; [|discriminate].
    destruct (mapM f l) as [r'|e]; [|discriminate].
    injection Hr as <-. constructor; [exact Hx|now apply IH].
Qed.

Lemma filter_all {A} (l : list A) : List.filter (fun _ => true) l = l.
Proof. induction l as [|x l IH]; simpl; congruence. Qed.

Lemma js_sort_total {A} (cmp : A -> A -> outcome Z) (l : list A) :
  (forall x y, returns (cmp x y) = true) -> exists s, js_sort cmp l = Ret s.
Proof.
  intros Hc. destruct (js_sort cmp l) as [s|e] eqn:Hs; [now eexists|].
  destruct (js_sort_Throw _ _ _ Hs) as (x & y & _ & _ & Hxy).
  specialize (Hc x y). now rewrite Hxy in Hc.
Qed.

Lemma Sorted_weaken {A} (R1 R2 : A -> A -> Prop) (l : list A) :
  (forall a b, R1 a b -> R2 a b) -> Sorted.Sorted R1 l -> Sorted.Sorted R2 l.
Proof.
  intros HR. induction 1 as [|a l Hs IH Hhd]; constructor; [assumption|].
  destruct Hhd; constructor. now apply HR.
Qed.

Lemma sign_nonpos_not_positive (d : float) :
  (sign_of_float d <= 0)%Z -> (0 <? d)%float = false.
Proof.
  unfold sign_of_float. rewrite !ltb_spec, Prim2SF_zero.
  destruct (Prim2SF d) as [s|s| |s m e]; try destruct s; simpl; intros; lia || reflexivity.
Qed.

(* ===================================================================== *)
(** ** Aggregation *)
(* ===================================================================== *)

Section Aggregation.
Context `{JSRuntime}.

Lemma collect_groups_pairs (groupBy metric : string) (data : list Row) :
  forall groups,
    collect_groups groupBy metric data groups =
    (pairs ← mapM (key_metric groupBy metric) data;
     Ret (fold_left push_pair pairs groups)).
Proof.
  induction data as [|row data IH]; intros groups; [reflexivity|].
  cbn [collect_groups mapM].
  destruct (ToString (row_get row groupBy)) as [k|e] eqn:Hk.
  - destruct (ToNumber (row_get row metric)) as [n|e] eqn:Hn.
    + assert (Hkm : key_metric groupBy metric row = Ret (k, number_or_zero n))
        by (unfold key_metric; now rewrite Hk, Hn).
      rewrite Hkm, !outcome_bind_Ret, IH.
      now destruct (mapM (key_metric groupBy metric) data).
    + assert (Hkm : key_metric groupBy metric row = Throw e)
        by (unfold key_metric; now rewrite Hk, Hn).
      now rewrite Hkm.
  - assert (Hkm : key_metric groupBy metric row = Throw e)
      by (unfold key_metric; now rewrite Hk).
    now rewrite Hkm.
Qed.

Lemma key_metric_plain (groupBy metric : string) (row : Row) :
  plain_row row = true -> returns (key_metric groupBy metric row) = true.
Proof.
  intros Hrow. unfold key_metric, mbind, outcome_bind.
  pose proof (ToString_plain _ (plain_row_get row groupBy Hrow)) as Hk.
  pose proof (ToNumber_plain _ (plain_row_get row metric Hrow)) as Hn.
  destruct (ToString _); [|discriminate]. now destruct (ToNumber _).
Qed.

Lemma number_or_zero_not_nan (x : float) : is_nan (number_or_zero x) = false.
Proof.
  unfold number_or_zero. destruct (is_zero x); [reflexivity|].
  simpl. destruct (is_nan x) eqn:Hx; [reflexivity|exact Hx].
Qed.

Lemma key_metric_value (groupBy metric : string) (row : Row) (k : string) (n : float) :
  key_metric groupBy metric row = Ret (k, n) ->
  is_nan n = false /\
  (forall x, ToNumber (row_get row metric) = Ret x -> is_nan x = true -> n = 0%float) /\
  (row_get row metric = VUndef -> n = 0%float).
Proof.
  unfold key_metric, mbind, outcome_bind.
  destruct (ToString (row_get row groupBy)) as [k'|e]; [|discriminate].
  destruct (ToNumber (row_get row metric)) as [x|e] eqn:Hn; [|discriminate].
  intros [= <- <-]. split; [apply number_or_zero_not_nan|]. split.
  - intros y [= <-] Hy. unfold number_or_zero. rewrite Hy.
    now rewrite orb_true_r.
  - intros Hu. rewrite Hu in Hn. injection Hn as <-. reflexivity.
Qed.

Lemma by_value_desc_antisym (a b : string * float) (c : Z) :
  by_value_desc a b = Ret c -> (0 < c)%Z ->
  exists c', by_value_desc b a = Ret c' /\ (c' <= 0)%Z.
Proof.
  unfold by_value_desc. intros [= <-] Hpos.
  eexists. split; [reflexivity|]. now apply sign_of_sub_antisym.
Qed.

Lemma aggregateData_run
  (data : list Row) (groupBy metric operation : string)
  (pairs : list (string * float)) :
  mapM (key_metric groupBy metric) data = Ret pairs ->
  aggregateData data groupBy metric operation =
  (entries ← mapM (fun k => value ← apply_operation operation (values_of k pairs);
                            Ret (k, round2 value))
                  (first_occurrences (map fst pairs));
   js_sort by_value_desc entries).
Proof.
  intros Hpairs. unfold aggregateData.
  rewrite collect_groups_pairs, Hpairs, !outcome_bind_Ret.
  rewrite (fold_push_spec pairs []) by constructor.
  cbn [map app mem existsb negb]. rewrite filter_all, mapM_map. reflexivity.
Qed.

End Aggregation.

(* ===================================================================== *)
(** ** The statements at concrete inputs *)
(* ===================================================================== *)

Lemma example_state_wf : wf_state example_state.
Proof.
  intros name ds [[= <- <-]|[]]. simpl. lia.
Defined.

(** Two messages with an [id] that get no response.  One lacks the
    protocol tag: it is treated as a notification, logged, and nothing is
    posted.  The other is a request whose method is a BigInt: the request
    log throws on it, so [handleMessage] ends with that exception and no
    effect at all. *)
Lemma handleMessage_id_without_response :
  handleMessage (H := example_runtime) echo_backend 7
                (mkEvent 7 ping_without_protocol) =
  ([ELog LogInfo (MStr "Notification: ping")], Ret tt) /\
  msg_is_undefined (member ping_without_protocol "id") = false /\
  posts [ELog LogInfo (MStr "Notification: ping")] = [] /\
  is_request bigint_method_request = true /\
  handleMessage (H := example_runtime) echo_backend 7
                (mkEvent 7 bigint_method_request) =
  ([], Throw (TypeError "Do not know how to serialize a BigInt")).
Proof. repeat split. Qed.

Lemma handleMessage_one_response_witness :
  exists tr body,
    handleMessage (H := example_runtime) echo_backend 7
                  (mkEvent 7 tools_call_request) = (tr, Ret tt) /\
    posts tr = [EPost 7 (mkResponse (MStr "42") body)] /\
    body = RpcResult (MObj []) /\
    fetches tr = [EFetch "list-datasets" (MObj [])].
Proof.
  destruct (proj1 (handleMessage_one_response (H := example_runtime) echo_backend 7
                     (mkEvent 7 tools_call_request) eq_refl) eq_refl eq_refl)
    as (tr & body & Hrun & Hposts & Hbody & Hfetch & _).
  exists tr, body. repeat split; assumption.
Defined.

Lemma handleMessage_drops_foreign_source_witness :
  handleMessage (H := example_runtime) echo_backend 7 (mkEvent 8 unknown_request) =
  ([], Ret tt).
Proof.
  apply handleMessage_drops_foreign_source. simpl. lia.
Defined.

(** A request whose method is an object with a property named [toString]
    is unknown to the relay and is answered with an error, not with [{}]. *)
Lemma handleMessage_unprintable_method :
  is_request unprintable_method_request = true /\
  is_known_method (member unprintable_method_request "method") = false /\
  handleMessage (H := example_runtime) echo_backend 7
                (mkEvent 7 unprintable_method_request) =
  ([ELog LogRequest
      (MObj [("method", MObj [("toString", MNum 1%float)]); ("params", MUndef)]);
    ELog LogError (MStr "TypeError: Cannot convert object to primitive value");
    EPost 7 (mkResponse (MNum 1%float)
               (RpcError (-32000)
                  "TypeError: Cannot convert object to primitive value"))],
   Ret tt).
Proof. repeat split. Qed.

Lemma handleMessage_unknown_method_witness :
  exists tr,
    handleMessage (H := example_runtime) echo_backend 7 (mkEvent 7 unknown_request) =
    (tr, Ret tt) /\
    posts tr = [EPost 7 (mkResponse (MStr "42") (RpcResult (MObj [])))] /\
    fetches tr = [].
Proof.
  exact (proj1 (handleMessage_unknown_method (H := example_runtime) echo_backend 7
                  (mkEvent 7 unknown_request) eq_refl eq_refl eq_refl eq_refl)
               eq_refl).
Defined.

(** An [in] filter whose value is the number 5 makes [applyFilters] throw. *)
Lemma applyFilters_in_number_throws :
  applyFilters (H := example_runtime) 0 [bad_in_filter] example_state =
  (example_state, Throw (TypeError "filter.value.includes is not a function")).
Proof. reflexivity. Qed.

Lemma applyFilters_total_on_wellformed_witness :
  exists kept,
    applyFilters (H := example_runtime) 0
      [west_filter; mkFilter "revenue" "gt" (VStr "abc")] example_state =
    (mkState (datasets example_state) (arrays example_state ++ [kept]), Ret 1).
Proof.
  exact (proj1 (applyFilters_total_on_wellformed (H := example_runtime)
                  example_state 0
                  [west_filter; mkFilter "revenue" "gt" (VStr "abc")]
                  eq_refl eq_refl)).
Defined.

(** With limit -1 the page holds two of the three rows: it is neither
    empty nor at most as long as the limit.  And the handler's call
    [data.slice(offset, offset + limit)] at offset 0.5 and limit 0.5, numbers
    that JSON carries, is [slice(0.5, 1)] and returns one row, more than the
    limit. *)
Lemma query_data_limit_not_respected :
  snd (query_data (H := example_runtime)
         (mkQuery "sales" None None (Some (-1)%Z) None) example_state) =
  Ret (mkEnvelope (PQuery (firstn 2 sales_rows) 3 0 (-1) true) false) /\
  (Z.of_nat (length (firstn 2 sales_rows)) <=? -1)%Z = false /\
  js_slice_numbers sales_rows 0.5 (0.5 + 0.5) = firstn 1 sales_rows /\
  (1 <=? 0.5)%float = false.
Proof. repeat split; reflexivity. Qed.

Lemma query_data_pagination_witness :
  exists st' page,
    query_data (H := example_runtime)
      (mkQuery "sales" (Some [west_filter]) (Some (mkSort "revenue" "asc"))
               (Some 1%Z) (Some 1%Z)) example_state =
    (st', Ret (mkEnvelope (PQuery page 2 1 1 false) false)) /\
    page = [[("region", VStr "West"); ("revenue", VNum 100%float)]].
Proof.
  destruct (query_data_pagination (H := example_runtime) example_state
              (mkQuery "sales" (Some [west_filter]) (Some (mkSort "revenue" "asc"))
                       (Some 1%Z) (Some 1%Z))
              sales
              [[("region", VStr "West"); ("revenue", VNum 100%float)];
               [("region", VStr "West"); ("revenue", VNum 40%float)]]
              [[("region", VStr "West"); ("revenue", VNum 40%float)];
               [("region", VStr "West"); ("revenue", VNum 100%float)]]
              eq_refl eq_refl eq_refl ltac:(simpl; lia) ltac:(simpl; lia))
    as (st' & page & Hrun & _ & Hpage & _).
  exists st', page. split; [exact Hrun|exact Hpage].
Defined.

Lemma call_tool_preserves_datasets_witness :
  rows_at (fst (call_tool (H := example_runtime)
                  (CallQueryData (mkQuery "sales" None
                                          (Some (mkSort "revenue" "desc"))
                                          None None))
                  example_state)) 0 = sales_rows.
Proof.
  exact (proj1 (proj2 (call_tool_preserves_datasets (H := example_runtime)
                         example_state
                         (CallQueryData (mkQuery "sales" None
                                                 (Some (mkSort "revenue" "desc"))
                                                 None None))
                         "sales" sales example_state_wf
                         (or_introl eq_refl)))).
Defined.

(* ===================================================================== *)
(** ** Loading the datasets *)
(* ===================================================================== *)

Lemma map_set_keys {A} (k : string) (v : A) (l : list (string * A)) :
  map fst (map_set k v l) = if mem k (map fst l) then map fst l else map fst l ++ [k].
Proof.
  induction l as [|[k' v'] l IH]; simpl; [reflexivity|].
  rewrite (String.eqb_sym k k'). destruct (String.eqb k' k); simpl; [reflexivity|].
  rewrite IH. unfold mem. now destruct (existsb (String.eqb k) (map fst l)).
Qed.

Lemma map_set_In {A} (k : string) (v : A) (l : list (string * A)) (n : string) (d : A) :
  In (n, d) (map_set k v l) -> (n = k /\ d = v) \/ In (n, d) l.
Proof.
  induction l as [|[k' v'] l IH]; simpl.
  - intros [[= <- <-]|[]]. now left.
  - destruct (String.eqb k' k) eqn:Hk.
    + apply String.eqb_eq in Hk. subst k'.
      intros [[= <- <-]|Hin]; [now left|right; now right].
    + intros [Heq|Hin]; [right; now left|].
      destruct (IH Hin) as [?|?]; [now left|right; now right].
Qed.

Lemma assoc_map_set_eq {A} (k : string) (v : A) (l : list (string * A)) :
  assoc k (map_set k v l) = Some v.
Proof.
  induction l as [|[k' v'] l IH]; simpl.
  - now rewrite String.eqb_refl.
  - destruct (String.eqb k' k) eqn:Hk; simpl.
    + rewrite String.eqb_sym. now rewrite Hk.
    + rewrite String.eqb_sym, Hk. exact IH.
Qed.

Lemma assoc_map_set_ne {A} (k k' : string) (v : A) (l : list (string * A)) :
  k' <> k -> assoc k' (map_set k v l) = assoc k' l.
Proof.
  intros Hne. induction l as [|[k0 v0] l IH]; simpl.
  - apply String.eqb_neq in Hne. now rewrite Hne.
  - destruct (String.eqb k0 k) eqn:Hk; simpl; [|now rewrite IH].
    apply String.eqb_eq in Hk. subst k0.
    apply String.eqb_neq in Hne. now rewrite Hne.
Qed.

Lemma assoc_In {A} (k : string) (v : A) (l : list (string * A)) :
  assoc k l = Some v -> In (k, v) l.
Proof.
  induction l as [|[k' v'] l IH]; simpl; [discriminate|].
  destruct (String.eqb k k') eqn:Hk.
  - apply String.eqb_eq in Hk. intros [= <-]. subst. now left.
  - intros Hl. right. now apply IH.
Qed.

Section LoadingFacts.
Variable read_dataset : string -> outcome DatasetFile.

Lemma load_file_run (file : string) (st : server_state) :
  load_file read_dataset file st =
  match read_dataset file with
  | Ret df =>
      (mkState (map_set (df_name df)
                  (mkDataset (df_name df) (df_description df) (df_schema df)
                             (length (arrays st)))
                  (datasets st))
               (arrays st ++ [df_data df]), Ret tt)
  | Throw _ => (st, Ret tt)
  end.
Proof. unfold load_file. now destruct (read_dataset file). Qed.

Lemma load_file_store_ok (file : string) (st : server_state) :
  store_ok st ->
  snd (load_file read_dataset file st) = Ret tt /\
  store_ok (fst (load_file read_dataset file st)) /\
  (exists ext, arrays (fst (load_file read_dataset file st)) = arrays st ++ ext) /\
  (length (datasets (fst (load_file read_dataset file st)))
   <= S (length (datasets st)))%nat.
Proof.
  intros (Hwf & Hnd & Hnames). rewrite load_file_run.
  destruct (read_dataset file) as [df|e]; simpl.
  - split; [reflexivity|]. split; [|split].
    + split; [|split]; simpl.
      * intros name ds Hin. simpl in Hin. cbn [arrays]. rewrite length_app. simpl.
        apply map_set_In in Hin as [[_ ->]|Hin]; simpl; [lia|].
        specialize (Hwf name ds Hin). lia.
      * rewrite map_set_keys. destruct (mem (df_name df) _) eqn:Hm; [assumption|].
        apply mem_false in Hm.
        apply (Permutation_NoDup (Permutation_cons_append _ (df_name df))).
        now constructor.
      * intros name ds Hin. apply map_set_In in Hin as [[-> ->]|Hin]; [reflexivity|].
        now apply Hnames.
    + now eexists.
    + rewrite <- (length_map fst), map_set_keys, <- (length_map fst (datasets st)).
      destruct (mem _ _); [lia|]. rewrite length_app. simpl. lia.
  - repeat split; try assumption; [exists []; now rewrite app_nil_r|lia].
Qed.

Lemma load_files_run (files : list string) (st : server_state) :
  load_files read_dataset (files) st =
  match files with
  | [] => (st, Ret tt)
  | file :: rest =>
      load_files read_dataset rest (fst (load_file read_dataset file st))
  end.
Proof.
  destruct files as [|file rest]; [reflexivity|].
  simpl. rewrite M_bind_run, load_file_run.
  now destruct (read_dataset file).
Qed.

Lemma load_files_store_ok (files : list string) :
  forall st,
    store_ok st ->
    snd (load_files read_dataset files st) = Ret tt /\
    store_ok (fst (load_files read_dataset files st)) /\
    (exists ext, arrays (fst (load_files read_dataset files st)) = arrays st ++ ext) /\
    (length (datasets (fst (load_files read_dataset files st)))
     <= length files + length (datasets st))%nat.
Proof.
  induction files as [|file rest IH]; intros st Hok.
  - repeat split; try apply Hok; [exists []; now rewrite app_nil_r|simpl; lia].
  - rewrite load_files_run.
    destruct (load_file_store_ok file st Hok) as (_ & Hok1 & [e1 He1] & Hlen1).
    destruct (IH _ Hok1) as (Hret & Hok2 & [e2 He2] & Hlen2).
    split; [exact Hret|]. split; [exact Hok2|]. split.
    + exists (e1 ++ e2). now rewrite He2, He1, app_assoc.
    + simpl. lia.
Qed.

Lemma empty_state_ok : store_ok empty_state.
Proof.
  split; [|split]; simpl; [intros ? ? []|constructor|intros ? ? []].
Qed.

(** X1.  When each of the three files either fails to be read or parsed
    or holds a dataset of the declared shape, [loadDatasets], run on the
    empty map, does not throw; afterwards at most three datasets are stored,
    their names are pairwise different, each is stored under its own name,
    and each one's [data] is an existing array. *)
Theorem loadDatasets_store_ok :
  snd (loadDatasets read_dataset empty_state) = Ret tt /\
  store_ok (fst (loadDatasets read_dataset empty_state)) /\
  (length (datasets (fst (loadDatasets read_dataset empty_state))) <= 3)%nat.
Proof.
  destruct (load_files_store_ok datasetFiles empty_state empty_state_ok)
    as (Hret & Hok & _ & Hlen).
  split; [exact Hret|]. split; [exact Hok|exact Hlen].
Qed.

(** Later files leave a dataset alone unless they carry its name. *)
Lemma load_files_keeps (files : list string) (name : string) :
  forall st,
    store_ok st ->
    (forall file df, In file files -> read_dataset file = Ret df ->
                     df_name df <> name) ->
    assoc name (datasets (fst (load_files read_dataset files st))) =
    assoc name (datasets st).
Proof.
  induction files as [|file rest IH]; intros st Hok Hnames; [reflexivity|].
  rewrite load_files_run.
  destruct (load_file_store_ok file st Hok) as (_ & Hok1 & _ & _).
  rewrite IH; [|exact Hok1|intros f df Hf; apply Hnames; now right].
  rewrite load_file_run.
  destruct (read_dataset file) as [df|e] eqn:Hread; [|reflexivity].
  simpl. apply assoc_map_set_ne. intros Heq.
  exact (Hnames file df (or_introl eq_refl) Hread (eq_sym Heq)).
Qed.

Lemma load_files_lookup (before after : list string) (file : string) (df : DatasetFile) :
  forall st,
    store_ok st ->
    read_dataset file = Ret df ->
    (forall file' df', In file' after -> read_dataset file' = Ret df' ->
                       df_name df' <> df_name df) ->
    exists data,
      assoc (df_name df)
            (datasets (fst (load_files read_dataset (before ++ file :: after) st))) =
      Some (mkDataset (df_name df) (df_description df) (df_schema df) data) /\
      rows_at (fst (load_files read_dataset (before ++ file :: after) st)) data =
      df_data df.
Proof.
  induction before as [|b before IH]; intros st Hok Hread Hlater.
  - simpl app. rewrite load_files_run.
    destruct (load_file_store_ok file st Hok) as (_ & Hok1 & _ & _).
    destruct (load_files_store_ok after _ Hok1) as (_ & _ & [ext Hext] & _).
    exists (length (arrays st)). split.
    + rewrite (load_files_keeps after (df_name df) _ Hok1 Hlater).
      rewrite load_file_run, Hread. simpl. apply assoc_map_set_eq.
    + unfold rows_at. rewrite Hext. rewrite load_file_run, Hread. simpl.
      rewrite <- app_assoc. simpl. now rewrite list_lookup_middle.
  - simpl app. rewrite load_files_run.
    destruct (load_file_store_ok b st Hok) as (_ & Hok1 & _ & _).
    exact (IH _ Hok1 Hread Hlater).
Qed.

(** X2.  A file of the list that reads and parses is stored under its
    name with its description, schema and rows, whether or not other files
    fail to load, provided no file after it in the list carries the same
    name (a later one would replace it). *)
Theorem loadDatasets_lookup
  (before after : list string) (file : string) (df : DatasetFile) :
  datasetFiles = before ++ file :: after ->
  read_dataset file = Ret df ->
  (forall file' df', In file' after -> read_dataset file' = Ret df' ->
                     df_name df' <> df_name df) ->
  let st := fst (loadDatasets read_dataset empty_state) in
  exists data,
    datasets_get (df_name df) st =
    (st, Ret (Some (mkDataset (df_name df) (df_description df) (df_schema df) data))) /\
    rows_at st data = df_data df.
Proof.
  intros Hfiles Hread Hlater st. unfold st, loadDatasets. rewrite Hfiles.
  destruct (load_files_lookup before after file df empty_state empty_state_ok
              Hread Hlater) as (data & Hget & Hrows).
  exists data. split; [|exact Hrows].
  rewrite datasets_get_run. now rewrite Hget.
Qed.

End LoadingFacts.

(* ===================================================================== *)
(** ** Serving requests *)
(* ===================================================================== *)

Section Serving.
Context `{JSRuntime}.

Lemma serve_extends (calls : list tool_call) :
  forall st, extends st (serve calls st).
Proof.
  unfold serve. induction calls as [|c calls IH]; intros st; simpl.
  - apply extends_refl.
  - exact (extends_trans _ _ _ (preserves_call_tool c st) (IH _)).
Qed.

(** X3.  When each of the three files either fails to be read or parsed
    or holds a dataset of the declared shape: after [loadDatasets] and any
    sequence of tool requests, answered or failed, the [datasets] map is the
    one [loadDatasets] built and every dataset's rows are the rows that were
    loaded; the store keeps its invariants. *)
Theorem serve_keeps_loaded_datasets
  (read_dataset : string -> outcome DatasetFile) (calls : list tool_call) :
  let loaded := fst (loadDatasets read_dataset empty_state) in
  let st := serve calls loaded in
  datasets st = datasets loaded /\
  (forall name ds, In (name, ds) (datasets loaded) ->
                   rows_at st (ds_data ds) = rows_at loaded (ds_data ds)) /\
  store_ok st.
Proof.
  intros loaded st.
  destruct (load_files_store_ok read_dataset datasetFiles empty_state empty_state_ok)
    as (_ & Hok & _ & _).
  fold (loadDatasets read_dataset) in Hok. fold loaded in Hok.
  pose proof (serve_extends calls loaded) as Hext. fold st in Hext.
  destruct Hok as (Hwf & Hnd & Hnames).
  split; [apply Hext|]. split.
  - intros name ds Hin. apply (extends_rows_at _ _ _ Hext). exact (Hwf name ds Hin).
  - destruct Hext as [Hd Harr]. split; [|split].
    + apply (extends_wf loaded st); [split; assumption|exact Hwf].
    + now rewrite Hd.
    + intros name ds Hin. rewrite Hd in Hin. now apply Hnames.
Qed.

End Serving.

(* ===================================================================== *)
(** ** The tool endpoints *)
(* ===================================================================== *)

Section Endpoints.
Context `{JSRuntime}.

Lemma aggregate_run (st : server_state) (p : AggregateParams) (ds : Dataset) :
  assoc (a_dataset p) (datasets st) = Some ds ->
  aggregate p st =
  (st, (fun results =>
          mkEnvelope (PAggregate (a_groupBy p) (a_metric p) (a_operation p) results)
                     false)
       <$> aggregateData (rows_at st (ds_data ds)) (a_groupBy p) (a_metric p)
                         (a_operation p)).
Proof.
  intros Hds. unfold aggregate. run_step. rewrite Hds. run_step.
  destruct (aggregateData _ _ _ _); run_step; reflexivity.
Qed.

Lemma get_schema_run (st : server_state) (name : string) (ds : Dataset) :
  assoc name (datasets st) = Some ds ->
  get_schema name st =
  (st, (fun schema =>
          mkEnvelope (PSchema (ds_name ds) (ds_description ds)
                              (length (rows_at st (ds_data ds))) schema) false)
       <$> mapM (fun entry =>
                   stats ← getFieldStats (rows_at st (ds_data ds)) (fst entry)
                                         (snd entry);
                   Ret (fst entry, (snd entry, stats))) (ds_schema ds)).
Proof.
  intros Hds. unfold get_schema. run_step. rewrite Hds. run_step.
  destruct (mapM _ (ds_schema ds)); run_step; reflexivity.
Qed.

Lemma export_data_run (st : server_state) (p : ExportParams) (ds : Dataset) :
  assoc (e_dataset p) (datasets st) = Some ds ->
  exists st',
    extends st st' /\
    export_data p st =
    (st', (fun r => mkEnvelope r false)
          <$> export_result (map fst (ds_schema ds)) (rows_at st (ds_data ds)) p).
Proof.
  intros Hds. unfold export_data, export_result. run_step. rewrite Hds. run_step.
  set (rows := rows_at st (ds_data ds)).
  destruct (default [] (e_filters p)) as [|f fs] eqn:Hfs.
  - cbn [length Nat.ltb Nat.leb]. rewrite filter_rows_nil. run_step.
    rewrite !rows_at_new.
    destruct (String.eqb (default "json" (e_format p)) "csv").
    + destruct (csv_content _ rows); run_step;
        eexists; (split; [|reflexivity]); solve_extends.
    + run_step. eexists; (split; [|reflexivity]); solve_extends.
  - cbn [length Nat.ltb Nat.leb]. rewrite applyFilters_run, rows_at_new.
    destruct (filter_rows rows (f :: fs)) as [kept|e]; run_step.
    + rewrite !rows_at_new.
      destruct (String.eqb (default "json" (e_format p)) "csv").
      * destruct (csv_content _ kept); run_step;
          eexists; (split; [|reflexivity]); solve_extends.
      * run_step. eexists; (split; [|reflexivity]); solve_extends.
    + eexists; (split; [|reflexivity]); solve_extends.
Qed.

(** X5.  A request for a dataset that is not in the map is answered, by
    each of the four tools that take a dataset, with the error payload and
    [isError: true]; nothing is thrown and the state is untouched.  A request
    for a stored dataset is never answered with [isError]. *)
Theorem unknown_dataset_is_error_envelope
  (st : server_state) (c : tool_call) (name : string) :
  tool_dataset c = Some name ->
  (assoc name (datasets st) = None ->
   call_tool c st = (st, Ret not_found) /\ env_isError not_found = true) /\
  (forall ds st' env,
      assoc name (datasets st) = Some ds ->
      call_tool c st = (st', Ret env) -> env_isError env = false).
Proof.
  intros Hc. split.
  - intros Hnone. split; [|reflexivity].
    destruct c as [|d|p|p|p]; simpl in Hc; try discriminate;
      injection Hc as <-; simpl.
    + unfold get_schema. run_step. now rewrite Hnone.
    + now apply query_data_not_found.
    + unfold aggregate. run_step. now rewrite Hnone.
    + unfold export_data. run_step. now rewrite Hnone.
  - intros ds st' env Hds Hrun.
    destruct c as [|d|p|p|p]; simpl in Hc; try discriminate;
      injection Hc as <-; simpl in Hrun.
    + rewrite (get_schema_run _ _ _ Hds) in Hrun.
      destruct (mapM _ _); simpl in Hrun; [|discriminate].
      now injection Hrun as _ <-.
    + destruct (query_data_run _ _ _ Hds) as (st2 & _ & Hq). rewrite Hq in Hrun.
      destruct (query_result _ _); simpl in Hrun; [|discriminate].
      now injection Hrun as _ <-.
    + rewrite (aggregate_run _ _ _ Hds) in Hrun.
      destruct (aggregateData _ _ _ _); simpl in Hrun; [|discriminate].
      now injection Hrun as _ <-.
    + destruct (export_data_run _ _ _ Hds) as (st2 & _ & Hq). rewrite Hq in Hrun.
      destruct (export_result _ _ _); simpl in Hrun; [|discriminate].
      now injection Hrun as _ <-.
Qed.

End Endpoints.

(* ===================================================================== *)
(** ** More on filtering *)
(* ===================================================================== *)

Lemma everyM_app {A} (p : A -> outcome bool) (l1 l2 : list A) :
  everyM p (l1 ++ l2) =
  (b ← everyM p l1; if b : bool then everyM p l2 else Ret false).
Proof.
  induction l1 as [|x l1 IH]; simpl; [reflexivity|].
  unfold mbind, outcome_bind in *.
  destruct (p x) as [[|]|e]; [exact IH|reflexivity|reflexivity].
Qed.

Section MoreFiltering.
Context `{JSRuntime}.

Lemma filter_rows_cons (row : Row) (data : list Row) (filters : list Filter) :
  filter_rows (row :: data) filters =
  (b ← row_passes filters row;
   r ← filter_rows data filters;
   Ret (if b : bool then row :: r else r)).
Proof. reflexivity. Qed.

(** X6.  Filtering with the concatenation of two filter lists returns
    exactly when filtering with the first list and then filtering its result
    with the second list both return, and then with the same rows: a filter
    conjunction can be applied in stages. *)
Theorem filter_rows_app (data : list Row) (fs1 fs2 : list Filter) (out : list Row) :
  filter_rows data (fs1 ++ fs2) = Ret out <->
  exists kept, filter_rows data fs1 = Ret kept /\ filter_rows kept fs2 = Ret out.
Proof.
  revert out. induction data as [|row data IH]; intros out.
  - simpl. split.
    + intros [= <-]. now exists [].
    + intros (kept & [= <-] & [= <-]). reflexivity.
  - rewrite !filter_rows_cons. unfold row_passes at 1. rewrite everyM_app.
    fold (row_passes fs1 row) (row_passes fs2 row).
    destruct (row_passes fs1 row) as [[|]|e] eqn:H1.
    + rewrite !outcome_bind_Ret. split.
      * intros Hall.
        destruct (row_passes fs2 row) as [b2|e] eqn:H2; [|discriminate].
        rewrite outcome_bind_Ret in Hall.
        destruct (filter_rows data (fs1 ++ fs2)) as [out'|e] eqn:H12; [|discriminate].
        rewrite outcome_bind_Ret in Hall. injection Hall as <-.
        destruct (proj1 (IH out') eq_refl) as (kept & Hk & Hout).
        exists (row :: kept). rewrite Hk, outcome_bind_Ret. split; [reflexivity|].
        now rewrite filter_rows_cons, H2, Hout.
      * intros (kept & Hk & Hout).
        destruct (filter_rows data fs1) as [kept'|e] eqn:Hk'; [|discriminate].
        rewrite outcome_bind_Ret in Hk. injection Hk as <-.
        rewrite filter_rows_cons in Hout.
        destruct (row_passes fs2 row) as [b2|e]; [|discriminate].
        rewrite outcome_bind_Ret in Hout |- *.
        destruct (filter_rows kept' fs2) as [out'|e] eqn:Hout'; [|discriminate].
        rewrite outcome_bind_Ret in Hout. injection Hout as <-.
        now rewrite (proj2 (IH out') (ex_intro _ kept' (conj eq_refl Hout'))).
    + rewrite !outcome_bind_Ret. split.
      * intros Hall.
        destruct (filter_rows data (fs1 ++ fs2)) as [out'|e] eqn:H12; [|discriminate].
        rewrite outcome_bind_Ret in Hall. injection Hall as <-.
        destruct (proj1 (IH out') eq_refl) as (kept & Hk & Hout).
        exists kept. now rewrite Hk.
      * intros (kept & Hk & Hout).
        destruct (filter_rows data fs1) as [kept'|e] eqn:Hk'; [|discriminate].
        rewrite outcome_bind_Ret in Hk. injection Hk as <-.
        now rewrite (proj2 (IH out) (ex_intro _ kept' (conj eq_refl Hout))).
    + rewrite !outcome_bind_Throw. split; [discriminate|].
      now intros (kept & Hk & _).
Qed.

Lemma row_get_absent (row : Row) (field : string) :
  has_own field row = false -> is_inherited field = false ->
  row_get row field = VUndef.
Proof.
  unfold has_own, row_get. intros Hown ->. now destruct (assoc field row).
Qed.

Lemma IsLessThan_undefined_l (v : value) (leftFirst : bool) :
  plain v = true -> IsLessThan VUndef v leftFirst = Ret None.
Proof.
  intros Hv. destruct (ToPrimitive_plain v Hv) as (p & Hp & Hpp).
  unfold IsLessThan. cbn [ToPrimitive]. rewrite Hp.
  assert (Hpair : (if leftFirst
                   then px ← Ret VUndef; py ← Ret p; Ret (px, py)
                   else py ← Ret p; px ← Ret VUndef; Ret (px, py))
                  = Ret (VUndef, p)) by (destruct leftFirst; reflexivity).
  rewrite Hpair, outcome_bind_Ret. cbn [ToNumber]. rewrite outcome_bind_Ret.
  pose proof (ToNumber_plain p Hpp) as Hn.
  destruct (ToNumber p); [|discriminate]. reflexivity.
Qed.

Lemma IsLessThan_undefined_r (v : value) (leftFirst : bool) :
  plain v = true -> IsLessThan v VUndef leftFirst = Ret None.
Proof.
  intros Hv. destruct (ToPrimitive_plain v Hv) as (p & Hp & Hpp).
  unfold IsLessThan. cbn [ToPrimitive]. rewrite Hp.
  assert (Hpair : (if leftFirst
                   then px ← Ret p; py ← Ret VUndef; Ret (px, py)
                   else py ← Ret VUndef; px ← Ret p; Ret (px, py))
                  = Ret (p, VUndef)) by (destruct leftFirst; reflexivity).
  rewrite Hpair, outcome_bind_Ret.
  pose proof (ToNumber_plain p Hpp) as Hn.
  assert (Hnan : forall n, (if is_nan n || is_nan nan then None else Some (n <? nan)%float)
                           = @None bool)
    by (intros n; change (is_nan nan) with true; now rewrite orb_true_r).
  change (ToNumber VUndef) with (Ret nan : outcome float).
  destruct p; cbv beta iota;
    (destruct (ToNumber _) as [num|e]; [|discriminate Hn]);
    rewrite !outcome_bind_Ret; now rewrite Hnan.
Qed.

(** X7.  On a row that lacks the filtered field, for a field name that
    is not a property name of [Object.prototype], and for a filter value that
    is not [undefined] and has a string form: [eq] is false, [ne] is true,
    each of [gt], [gte], [lt], [lte] is false, and [contains] tests the search
    text against the word "undefined". *)
Theorem eval_filter_missing_field (row : Row) (field : string) (v : value) :
  has_own field row = false ->
  is_inherited field = false ->
  plain v = true ->
  is_undefined v = false ->
  eval_filter row (mkFilter field "eq" v) = Ret false /\
  eval_filter row (mkFilter field "ne" v) = Ret true /\
  eval_filter row (mkFilter field "gt" v) = Ret false /\
  eval_filter row (mkFilter field "gte" v) = Ret false /\
  eval_filter row (mkFilter field "lt" v) = Ret false /\
  eval_filter row (mkFilter field "lte" v) = Ret false /\
  (forall s, ToString v = Ret s ->
             eval_filter row (mkFilter field "contains" v) =
             Ret (string_includes (toLowerCase "undefined") (toLowerCase s))).
Proof.
  intros Habsent Hown Hplain Hdef. unfold eval_filter. cbn [f_field f_operator f_value].
  rewrite (row_get_absent _ _ Habsent Hown). simpl String.eqb.
  unfold js_gt, js_ge, js_lt, js_le.
  rewrite !IsLessThan_undefined_l, !IsLessThan_undefined_r by assumption.
  assert (Heq : strict_eq VUndef v = false) by (destruct v; try reflexivity; discriminate).
  rewrite Heq. repeat split; try reflexivity.
  intros s Hs. cbn [ToString]. now rewrite outcome_bind_Ret, Hs.
Qed.

End MoreFiltering.

(* ===================================================================== *)
(** ** The order of binary64 numbers *)
(* ===================================================================== *)

Lemma SFcompare_antisym (a b : spec_float) :
  SFcompare b a = option_map CompOpp (SFcompare a b).
Proof.
  destruct a as [sa|sa| |sa ma ea], b as [sb|sb| |sb mb eb]; easy_float_cases.
  simpl. rewrite (Z.compare_antisym ea eb).
  change (PosDef.Pos.compare_cont Eq mb ma) with (Pos.compare mb ma).
  change (PosDef.Pos.compare_cont Eq ma mb) with (Pos.compare ma mb).
  rewrite (Pos.compare_antisym ma mb).
  destruct sa, sb; simpl; try reflexivity;
    destruct (Z.compare ea eb); simpl; try reflexivity;
    now destruct (Pos.compare ma mb).
Qed.

Lemma is_nan_spec (x : float) :
  is_nan x = false -> exists c, SFcompare (Prim2SF x) (Prim2SF x) = Some c.
Proof.
  unfold is_nan. rewrite FloatAxioms.eqb_spec. unfold SFeqb.
  destruct (SFcompare (Prim2SF x) (Prim2SF x)) as [c|]; [now eexists|discriminate].
Qed.

Lemma SFcompare_defined (a b : spec_float) (ca cb : comparison) :
  SFcompare a a = Some ca -> SFcompare b b = Some cb ->
  exists c, SFcompare a b = Some c.
Proof.
  destruct a as [sa|sa| |sa ma ea], b as [sb|sb| |sb mb eb]; simpl;
    try discriminate; intros _ _; eexists; reflexivity.
Qed.

Lemma eqb_sym_float (x y : float) : (x =? y)%float = (y =? x)%float.
Proof.
  rewrite !FloatAxioms.eqb_spec. unfold SFeqb.
  rewrite (SFcompare_antisym (Prim2SF x) (Prim2SF y)).
  now destruct (SFcompare (Prim2SF x) (Prim2SF y)) as [[| |]|].
Qed.

Lemma ltb_asym (x y : float) : (x <? y)%float = true -> (y <? x)%float = false.
Proof.
  rewrite !ltb_spec. unfold SFltb.
  rewrite (SFcompare_antisym (Prim2SF x) (Prim2SF y)).
  now destruct (SFcompare (Prim2SF x) (Prim2SF y)) as [[| |]|].
Qed.

Lemma ltb_not_eqb (x y : float) : (x <? y)%float = true -> (x =? y)%float = false.
Proof.
  rewrite ltb_spec, FloatAxioms.eqb_spec. unfold SFltb, SFeqb.
  now destruct (SFcompare (Prim2SF x) (Prim2SF y)) as [[| |]|].
Qed.

Lemma eqb_not_ltb (x y : float) : (x =? y)%float = true -> (y <? x)%float = false.
Proof.
  rewrite ltb_spec, FloatAxioms.eqb_spec. unfold SFltb, SFeqb.
  rewrite (SFcompare_antisym (Prim2SF x) (Prim2SF y)).
  now destruct (SFcompare (Prim2SF x) (Prim2SF y)) as [[| |]|].
Qed.

Lemma ltb_total (x y : float) :
  is_nan x = false -> is_nan y = false ->
  (x =? y)%float = false -> (x <? y)%float = false -> (y <? x)%float = true.
Proof.
  intros Hx Hy. destruct (is_nan_spec x Hx) as [cx Hcx].
  destruct (is_nan_spec y Hy) as [cy Hcy].
  destruct (SFcompare_defined _ _ _ _ Hcx Hcy) as [c Hc].
  rewrite !ltb_spec, FloatAxioms.eqb_spec. unfold SFltb, SFeqb.
  rewrite (SFcompare_antisym (Prim2SF x) (Prim2SF y)), Hc.
  now destruct c.
Qed.

Lemma SFcompare_Lt_trans (a b c : spec_float) :
  SFcompare a b = Some Lt -> SFcompare b c = Some Lt -> SFcompare a c = Some Lt.
Proof.
  destruct a as [sa|sa| |sa ma ea], b as [sb|sb| |sb mb eb],
           c as [sc|sc| |sc mc ec]; simpl;
    try discriminate; try reflexivity;
    try (destruct sa; simpl; try discriminate; try reflexivity);
    try (destruct sb; simpl; try discriminate; try reflexivity);
    try (destruct sc; simpl; try discriminate; try reflexivity).
  all: change (PosDef.Pos.compare_cont Eq) with Pos.compare.
  all: destruct (Z.compare_spec ea eb), (Z.compare_spec eb ec),
         (Z.compare_spec ea ec); simpl; try discriminate; try reflexivity;
         try lia; subst.
  all: destruct (Pos.compare_spec ma mb), (Pos.compare_spec mb mc),
         (Pos.compare_spec ma mc); simpl; try discriminate; try reflexivity;
         try lia.
Qed.

Lemma ltb_trans (x y z : float) :
  (x <? y)%float = true -> (y <? z)%float = true -> (x <? z)%float = true.
Proof.
  rewrite !ltb_spec. unfold SFltb. intros Hxy Hyz.
  destruct (SFcompare (Prim2SF x) (Prim2SF y)) as [[| |]|] eqn:E1; try discriminate.
  destruct (SFcompare (Prim2SF y) (Prim2SF z)) as [[| |]|] eqn:E2; try discriminate.
  now rewrite (SFcompare_Lt_trans _ _ _ E1 E2).
Qed.

Lemma is_zero_spec (x : float) :
  is_zero x = true -> exists s, Prim2SF x = S754_zero s.
Proof.
  unfold is_zero. rewrite FloatAxioms.eqb_spec. unfold SFeqb.
  change (Prim2SF 0%float) with (S754_zero false).
  destruct (Prim2SF x) as [s|s| |s m e]; simpl; try discriminate.
  - intros _. now exists s.
  - destruct s; discriminate.
  - destruct s; discriminate.
Qed.

Lemma ltb_zero_r (v a b : float) :
  is_zero a = true -> is_zero b = true -> (v <? a)%float = (v <? b)%float.
Proof.
  intros Ha Hb. destruct (is_zero_spec a Ha) as [sa Ea].
  destruct (is_zero_spec b Hb) as [sb Eb].
  rewrite !ltb_spec. unfold SFltb. rewrite Ea, Eb.
  now destruct (Prim2SF v).
Qed.

Lemma ltb_zero_l (v a b : float) :
  is_zero a = true -> is_zero b = true -> (a <? v)%float = (b <? v)%float.
Proof.
  intros Ha Hb. destruct (is_zero_spec a Ha) as [sa Ea].
  destruct (is_zero_spec b Hb) as [sb Eb].
  rewrite !ltb_spec. unfold SFltb. rewrite Ea, Eb.
  now destruct (Prim2SF v).
Qed.

Lemma ltb_irrefl (x : float) : (x <? x)%float = false.
Proof.
  destruct (x <? x)%float eqn:E; [|reflexivity].
  now rewrite (ltb_asym x x E) in E.
Qed.

Lemma SFcompare_cotrans (x y z : spec_float) (cy : comparison) :
  SFcompare y y = Some cy -> SFcompare z x = Some Lt ->
  SFcompare y x = Some Lt \/ SFcompare z y = Some Lt.
Proof.
  destruct x as [sx|sx| |sx mx ex], y as [sy|sy| |sy my ey],
           z as [sz|sz| |sz mz ez]; simpl;
    try discriminate; try (now left); try (now right);
    try (destruct sx; simpl; try discriminate; try (now left); try (now right));
    try (destruct sy; simpl; try discriminate; try (now left); try (now right));
    try (destruct sz; simpl; try discriminate; try (now left); try (now right)).
  all: change (PosDef.Pos.compare_cont Eq) with Pos.compare.
  all: intros _.
  all: destruct (Z.compare_spec ey ex), (Z.compare_spec ez ey),
         (Z.compare_spec ez ex); simpl;
         try discriminate; try (now left); try (now right); try lia; subst.
  all: destruct (Pos.compare_spec my mx), (Pos.compare_spec mz my),
         (Pos.compare_spec mz mx); simpl;
         try discriminate; try (now left); try (now right); try lia.
Qed.

(** [x <= y] on numbers that are not NaN, as [!(y < x)]. *)
Lemma leb_trans_float (x y z : float) :
  is_nan y = false ->
  (y <? x)%float = false -> (z <? y)%float = false -> (z <? x)%float = false.
Proof.
  intros Hy Hxy Hyz. destruct (is_nan_spec y Hy) as [cy Hcy].
  destruct (z <? x)%float eqn:E; [|reflexivity].
  revert Hxy Hyz E. rewrite !ltb_spec. unfold SFltb. intros Hxy Hyz E.
  destruct (SFcompare (Prim2SF z) (Prim2SF x)) as [[| |]|] eqn:Ezx; try discriminate.
  destruct (SFcompare_cotrans _ _ _ _ Hcy Ezx) as [E1|E1]; rewrite E1 in *; discriminate.
Qed.

(* ===================================================================== *)
(** ** What the filters ask for *)
(* ===================================================================== *)

Lemma substring_of_append (before needle rest : string) :
  substring (String.length before) (String.length needle)
            (before ++ needle ++ rest) = needle.
Proof.
  induction before as [|c before IH]; simpl; [|exact IH].
  induction needle as [|c needle IH]; simpl; [now destruct rest|].
  now rewrite IH.
Qed.

Lemma substring_occurs (m : nat) (needle hay : string) :
  substring m (String.length needle) hay = needle -> occurs_in needle hay.
Proof.
  revert m. induction hay as [|c hay IH]; intros m Hs.
  - exists "", "". destruct m, needle; simpl in Hs; try discriminate; reflexivity.
  - destruct m as [|m].
    + exists "". cbn [append]. clear IH. revert c hay Hs.
      induction needle as [|d needle IHn]; intros c hay Hs.
      * now exists (String c hay).
      * simpl in Hs. injection Hs as -> Hs.
        destruct hay as [|c' hay].
        -- destruct needle; simpl in Hs; [now exists ""|discriminate].
        -- destruct (IHn c' hay Hs) as [rest Hrest].
           exists rest. simpl. now rewrite <- Hrest.
    + simpl in Hs. destruct (IH m Hs) as (before & rest & ->).
      now exists (String c before), rest.
Qed.

(** [includes] on strings finds exactly the texts that occur. *)
Lemma string_includes_occurs (hay needle : string) :
  string_includes hay needle = true <-> occurs_in needle hay.
Proof.
  unfold string_includes. split.
  - destruct (String.index 0 needle hay) as [m|] eqn:Hi; [|discriminate].
    intros _. exact (substring_occurs m needle hay (index_correct1 _ _ _ _ Hi)).
  - intros (before & rest & ->).
    destruct (String.index 0 needle (before ++ needle ++ rest)) as [m|] eqn:Hi;
      [reflexivity|exfalso].
    destruct needle as [|c needle].
    + apply index_correct4 in Hi. lia.
    + apply (index_correct3 0 (String.length before) _ _ Hi);
        [discriminate|lia|apply substring_of_append].
Qed.

Lemma SFleb_flip (a b : spec_float) :
  SFleb b a = match SFcompare a b with
              | Some Lt | None => false
              | Some _ => true
              end.
Proof.
  unfold SFleb. rewrite (SFcompare_antisym a b).
  now destruct (SFcompare a b) as [[| |]|].
Qed.

Lemma leb_as_not_ltb (x y : float) :
  (y <=? x)%float =
  is_false (if is_nan x || is_nan y then None else Some (x <? y)%float).
Proof.
  rewrite leb_spec, SFleb_flip.
  destruct (is_nan x) eqn:Hx.
  - pose proof (ltb_nan_l x y Hx) as Hlt. rewrite ltb_spec in Hlt.
    unfold is_nan in Hx. rewrite FloatAxioms.eqb_spec in Hx. unfold SFeqb in Hx.
    destruct (SFcompare_refl_nan (Prim2SF x)) as [Hr|Hr]; [now rewrite Hr in Hx|].
    now rewrite Hr.
  - destruct (is_nan y) eqn:Hy; simpl.
    + unfold is_nan in Hy. rewrite FloatAxioms.eqb_spec in Hy. unfold SFeqb in Hy.
      destruct (SFcompare_refl_nan (Prim2SF y)) as [Hr|Hr]; [now rewrite Hr in Hy|].
      rewrite Hr. now destruct (Prim2SF x).
    + rewrite ltb_spec. unfold SFltb.
      destruct (is_nan_spec x Hx) as [cx Hcx], (is_nan_spec y Hy) as [cy Hcy].
      destruct (SFcompare_defined _ _ _ _ Hcx Hcy) as [c ->].
      now destruct c.
Qed.

Section FilterMeaning.
Context `{JSRuntime}.

Lemma row_get_own (row : Row) (field : string) (v : value) :
  assoc field row = Some v -> row_get row field = v.
Proof. unfold row_get. now intros ->. Qed.

Lemma strict_eq_same_scalar (v w : value) :
  scalar v = true -> scalar w = true ->
  (strict_eq v w = true <-> same_scalar v w).
Proof.
  destruct v, w; simpl; try discriminate; intros _ _;
    try (split; [discriminate|contradiction]); try tauto.
  - destruct b, b0; simpl; split; congruence.
  - apply String.eqb_eq.
Qed.

Lemma same_value_zero_same_scalar (item v : value) :
  scalar v = true -> (same_value_zero item v = true <-> same_scalar item v).
Proof.
  destruct item, v; simpl; try discriminate; intros Hv;
    try (split; [discriminate|contradiction]); try tauto.
  - destruct b, b0; simpl; split; congruence.
  - apply negb_true_iff in Hv. rewrite Hv, andb_false_r, orb_false_r. tauto.
  - apply String.eqb_eq.
Qed.

Lemma js_gt_numbers (x y : float) : js_gt (VNum x) (VNum y) = Ret (y <? x)%float.
Proof.
  unfold js_gt, IsLessThan. simpl.
  destruct (is_nan y) eqn:Hy; simpl; [now rewrite ltb_nan_l|].
  destruct (is_nan x) eqn:Hx; simpl; [now rewrite ltb_nan_r|].
  now destruct (y <? x)%float.
Qed.

Lemma js_ge_numbers (x y : float) : js_ge (VNum x) (VNum y) = Ret (y <=? x)%float.
Proof. unfold js_ge, IsLessThan. simpl. now rewrite leb_as_not_ltb. Qed.

Lemma js_le_numbers (x y : float) : js_le (VNum x) (VNum y) = Ret (x <=? y)%float.
Proof. unfold js_le, IsLessThan. simpl. now rewrite leb_as_not_ltb. Qed.

Lemma bool_by_iff (b b' : bool) (P : Prop) :
  (b = true <-> P) -> (b' = true <-> P) -> b = b'.
Proof. destruct b, b'; intuition congruence. Qed.

(** Where a filter has a verdict on a row, the callback of [applyFilters]
    computes it. *)
Lemma eval_filter_verdict (row : Row) (f : Filter) (b : bool) :
  verdict row f b -> eval_filter row f = Ret b.
Proof.
  intros Hv. unfold eval_filter. cbv zeta.
  destruct Hv as [v b Hop Hget Hsv Hsf Hb|v b Hop Hget Hsv Hsf Hb
                 |x y Hop Hget Hval|x y Hop Hget Hval
                 |x y Hop Hget Hval|x y Hop Hget Hval
                 |v hay needle b Hop Hget Hhay Hneedle Hb
                 |v items b Hop Hget Hsv Hval Hb|Hop];
    try (rewrite Hop, (row_get_own _ _ _ Hget); cbn [String.eqb Ascii.eqb Bool.eqb andb]).
  - f_equal. apply (bool_by_iff _ _ (same_scalar v (f_value f))); [|exact Hb].
    now apply strict_eq_same_scalar.
  - f_equal. apply (bool_by_iff _ _ (~ same_scalar v (f_value f))); [|exact Hb].
    rewrite negb_true_iff, <- (strict_eq_same_scalar v (f_value f) Hsv Hsf).
    now destruct (strict_eq v (f_value f)).
  - rewrite Hval. apply js_gt_numbers.
  - rewrite Hval. apply js_ge_numbers.
  - rewrite Hval. apply js_lt_numbers.
  - rewrite Hval. apply js_le_numbers.
  - rewrite Hhay, Hneedle, !outcome_bind_Ret. f_equal.
    apply (bool_by_iff _ _ (occurs_in (toLowerCase needle) (toLowerCase hay)));
      [apply string_includes_occurs|exact Hb].
  - rewrite Hval. cbn [call_includes]. f_equal.
    apply (bool_by_iff _ _ (exists item, In item items /\ same_scalar item v));
      [|exact Hb].
    unfold array_includes. rewrite existsb_exists.
    split; intros (item & Hin & Hsame); exists item; (split; [exact Hin|]);
      now apply (same_value_zero_same_scalar item v Hsv).
  - now apply eval_filter_unknown.
Qed.


End FilterMeaning.

(** The verdicts of a filter on two rows of the example. *)
Example verdict_region_West :
  verdict (H := example_runtime)
          [("region", VStr "West"); ("revenue", VNum 100%float)] west_filter true /\
  verdict (H := example_runtime)
          [("region", VStr "East"); ("revenue", VNum 250.5%float)] west_filter false /\
  verdict (H := example_runtime)
          [("region", VStr "East"); ("revenue", VNum 250.5%float)]
          (mkFilter "revenue" "gte" (VNum 100%float)) true /\
  verdict (H := example_runtime)
          [("region", VStr "East"); ("revenue", VNum 250.5%float)]
          (mkFilter "region" "contains" (VStr "AS")) true.
Proof.
  split; [|split; [|split]].
  - apply (verdict_eq _ _ (VStr "West")); try reflexivity. now split.
  - apply (verdict_eq _ _ (VStr "East")); try reflexivity.
    split; [discriminate|]. simpl. discriminate.
  - apply (verdict_gte _ _ 250.5%float 100%float); reflexivity.
  - apply (verdict_contains _ _ (VStr "East") "East" "AS"); try reflexivity.
    split; [intros _|reflexivity]. now exists "e", "t".
Qed.

(* ===================================================================== *)
(** ** More on sorting *)
(* ===================================================================== *)

Section MoreSortFacts.
Context {A : Type}.
Variable cmp : A -> A -> outcome Z.

(** Sorting a list whose neighbours are in order returns it unchanged. *)
Lemma js_sort_sorted_id (l : list A) :
  Sorted.Sorted (in_order cmp) l -> js_sort cmp l = Ret l.
Proof.
  induction 1 as [|x l Hs IH Hhd]; [reflexivity|].
  simpl. rewrite IH, outcome_bind_Ret.
  destruct Hhd as [|y l' (c & Hc & Hle)]; [reflexivity|].
  simpl. rewrite Hc, outcome_bind_Ret.
  destruct (c <=? 0)%Z eqn:E; [reflexivity|lia].
Qed.

Lemma insertM_sorted_in (S : list A) (x : A) (l r : list A) :
  (forall a b c, In a S -> In b S -> cmp a b = Ret c -> (0 < c)%Z -> in_order cmp b a) ->
  In x S -> (forall y, In y l -> In y S) ->
  Sorted.Sorted (in_order cmp) l ->
  insertM cmp x l = Ret r ->
  Sorted.Sorted (in_order cmp) r.
Proof.
  intros Hanti Hx. revert r. induction l as [|y l IH]; simpl; intros r Hl Hsorted Hr.
  - injection Hr as <-. repeat constructor.
  - unfold mbind, outcome_bind in Hr.
    destruct (cmp x y) as [c|e] eqn:Hc; [|discriminate].
    assert (Hy : In y S) by (apply Hl; now left).
    destruct (c <=? 0)%Z eqn:Hc0.
    + injection Hr as <-. constructor; [assumption|].
      constructor. exists c. split; [assumption|lia].
    + destruct (insertM cmp x l) as [r'|e] eqn:Hr'; [|discriminate].
      injection Hr as <-.
      apply Sorted.Sorted_inv in Hsorted as [Hsl Hhd].
      constructor; [apply IH; auto|].
      destruct l as [|z l'].
      * simpl in Hr'. injection Hr' as <-. constructor.
        apply (Hanti x y c Hx Hy Hc). lia.
      * simpl in Hr'. unfold mbind, outcome_bind in Hr'.
        destruct (cmp x z) as [c'|e]; [|discriminate].
        destruct (c' <=? 0)%Z.
        -- injection Hr' as <-. constructor. apply (Hanti x y c Hx Hy Hc). lia.
        -- destruct (insertM cmp x l'); [|discriminate].
           injection Hr' as <-. constructor. now apply Sorted.HdRel_inv in Hhd.
Qed.

Lemma js_sort_sorted_in (S l s : list A) :
  (forall a b c, In a S -> In b S -> cmp a b = Ret c -> (0 < c)%Z -> in_order cmp b a) ->
  (forall y, In y l -> In y S) ->
  js_sort cmp l = Ret s ->
  Sorted.Sorted (in_order cmp) s.
Proof.
  intros Hanti. revert s. induction l as [|x l IH]; simpl; intros s Hl Hs.
  - injection Hs as <-. constructor.
  - unfold mbind, outcome_bind in Hs.
    destruct (js_sort cmp l) as [s'|e] eqn:Hs'; [|discriminate].
    apply (insertM_sorted_in S x s' s Hanti); auto.
    intros y Hy. apply Hl. right.
    exact (Permutation_in _ (Permutation_sym (js_sort_perm _ _ _ Hs')) Hy).
Qed.

End MoreSortFacts.

Lemma Sorted_weaken_in {A} (R1 R2 : A -> A -> Prop) (l : list A) :
  (forall a b, In a l -> In b l -> R1 a b -> R2 a b) ->
  Sorted.Sorted R1 l -> Sorted.Sorted R2 l.
Proof.
  intros HR Hs. induction Hs as [|a l Hs IH Hhd].
  - constructor.
  - constructor.
    + apply IH. intros x y Hx Hy. apply HR; now right.
    + destruct Hhd as [|b l' Hab]; constructor.
      apply HR; [now left|right; now left|exact Hab].
Qed.

Lemma Sorted_all_related {A} (R : A -> A -> Prop) (l : list A) :
  (forall a b, In a l -> In b l -> R a b) -> Sorted.Sorted R l.
Proof.
  induction l as [|x l IH]; intros HR; constructor.
  - apply IH. intros a b Ha Hb. apply HR; now right.
  - destruct l as [|y l']; constructor. apply HR; [now left|right; now left].
Qed.

(* ===================================================================== *)
(** ** The order that the language fixes *)
(* ===================================================================== *)

Lemma Sorted_StronglySorted_in {A} (R : A -> A -> Prop) (l : list A) :
  (forall a b c, In a l -> In b l -> In c l -> R a b -> R b c -> R a c) ->
  Sorted.Sorted R l -> Sorted.StronglySorted R l.
Proof.
  intros Htr Hs. induction Hs as [|a l Hs IH Hhd]; constructor.
  - apply IH. intros x y z Hx Hy Hz. apply Htr; now right.
  - assert (IH' : Sorted.StronglySorted R l)
      by (apply IH; intros x y z Hx Hy Hz; apply Htr; now right).
    destruct Hhd as [|b l' Hab]; [constructor|].
    apply Sorted.StronglySorted_inv in IH' as [_ Hall].
    constructor; [exact Hab|].
    rewrite List.Forall_forall in *. intros x Hx.
    apply (Htr a b x); [now left|right; now left|right; now right|exact Hab|].
    now apply Hall.
Qed.

Lemma StronglySorted_weaken_in {A} (R1 R2 : A -> A -> Prop) (l : list A) :
  (forall a b, In a l -> In b l -> R1 a b -> R2 a b) ->
  Sorted.StronglySorted R1 l -> Sorted.StronglySorted R2 l.
Proof.
  intros HR Hs. induction Hs as [|a l Hs IH Hall]; constructor.
  - apply IH. intros x y Hx Hy. apply HR; now right.
  - rewrite List.Forall_forall in *. intros x Hx.
    apply HR; [now left|now right|now apply Hall].
Qed.

Section SortContract.
Context {A : Type}.
Variable cmp : A -> A -> outcome Z.

Lemma cmp_is_fun (s s' : comparison) (a b : A) :
  cmp_is cmp s a b -> cmp_is cmp s' a b -> s = s'.
Proof. intros (c & Hc & <-) (c' & Hc' & <-). congruence. Qed.

Lemma cmp_is_total (l : list A) (a b : A) :
  consistent cmp l -> In a l -> In b l -> exists s, cmp_is cmp s a b.
Proof.
  intros Hcons Ha Hb. pose proof (consistent_returns _ _ Hcons a b Ha Hb) as Hr.
  destruct (cmp a b) as [c|e] eqn:Hc; [|discriminate].
  exists (c ?= 0)%Z, c. now split.
Qed.

Lemma consistent_antisym (l : list A) (a b : A) :
  consistent cmp l -> In a l -> In b l ->
  (cmp_is cmp Lt a b -> cmp_is cmp Gt b a) /\
  (cmp_is cmp Gt a b -> cmp_is cmp Lt b a).
Proof.
  intros Hcons Ha Hb.
  destruct (cmp_is_total l b a Hcons Hb Ha) as [s Hs].
  split; intros Hab; destruct s; try exact Hs.
  - pose proof (consistent_sym _ _ Hcons b a Hb Ha Hs) as Heq.
    discriminate (cmp_is_fun _ _ _ _ Hab Heq).
  - pose proof (consistent_trans _ _ Hcons Lt a b a Ha Hb Ha Hab Hs) as Haa.
    discriminate (cmp_is_fun _ _ _ _ Haa (consistent_refl _ _ Hcons a Ha)).
  - pose proof (consistent_sym _ _ Hcons b a Hb Ha Hs) as Heq.
    discriminate (cmp_is_fun _ _ _ _ Hab Heq).
  - pose proof (consistent_trans _ _ Hcons Gt a b a Ha Hb Ha Hab Hs) as Haa.
    discriminate (cmp_is_fun _ _ _ _ Haa (consistent_refl _ _ Hcons a Ha)).
Qed.

Lemma in_order_iff (a b : A) :
  in_order cmp a b <-> cmp_is cmp Lt a b \/ cmp_is cmp Eq a b.
Proof.
  split.
  - intros (c & Hc & Hle). destruct (Z.compare_spec c 0) as [E|L|G]; [right|left|lia];
      exists c; (split; [exact Hc|]); [subst; reflexivity|now apply Z.compare_lt_iff].
  - intros [(c & Hc & Hs)|(c & Hc & Hs)]; exists c; (split; [exact Hc|]).
    + assert (c < 0)%Z by exact Hs. lia.
    + apply Z.compare_eq in Hs. lia.
Qed.

Lemma ties_iff (x y : A) : ties cmp x y = true <-> cmp_is cmp Eq x y.
Proof.
  unfold ties, cmp_is. split.
  - destruct (cmp x y) as [c|e]; [|discriminate]. intros Hc.
    exists c. split; [reflexivity|]. apply Z.eqb_eq in Hc. now subst.
  - intros (c & -> & Hs). apply Z.compare_eq in Hs. now subst.
Qed.

Lemma consistent_incl (l l' : list A) :
  (forall x, In x l' -> In x l) -> consistent cmp l -> consistent cmp l'.
Proof.
  intros Hincl [Hret Hrefl Hsym Htrans]. constructor.
  - intros a b Ha Hb. apply Hret; auto.
  - intros a Ha. apply Hrefl; auto.
  - intros a b Ha Hb. apply Hsym; auto.
  - intros s a b c Ha Hb Hc. apply Htrans; auto.
Qed.

(** On a consistent comparator "not after" is transitive. *)
Lemma in_order_trans (l : list A) (a b c : A) :
  consistent cmp l -> In a l -> In b l -> In c l ->
  in_order cmp a b -> in_order cmp b c -> in_order cmp a c.
Proof.
  intros Hcons Ha Hb Hc Hab Hbc.
  apply in_order_iff in Hab, Hbc. apply in_order_iff.
  destruct (cmp_is_total l a c Hcons Ha Hc) as [[| |] Hac]; [now right|now left|].
  exfalso.
  pose proof (proj2 (consistent_antisym l a c Hcons Ha Hc) Hac) as Hca.
  destruct Hab as [Hab|Hab], Hbc as [Hbc|Hbc].
  - pose proof (consistent_trans _ _ Hcons Lt a b c Ha Hb Hc Hab Hbc) as Hlt.
    discriminate (cmp_is_fun _ _ _ _ Hlt Hac).
  - (* a before b, b equal to c *)
    pose proof (consistent_trans _ _ Hcons Lt c a b Hc Ha Hb Hca Hab) as Hcb.
    pose proof (consistent_sym _ _ Hcons b c Hb Hc Hbc) as Hcb'.
    discriminate (cmp_is_fun _ _ _ _ Hcb Hcb').
  - (* a equal to b, b before c *)
    pose proof (consistent_trans _ _ Hcons Lt b c a Hb Hc Ha Hbc Hca) as Hba.
    pose proof (consistent_sym _ _ Hcons a b Ha Hb Hab) as Hba'.
    discriminate (cmp_is_fun _ _ _ _ Hba Hba').
  - pose proof (consistent_trans _ _ Hcons Eq a b c Ha Hb Hc Hab Hbc) as Heq.
    discriminate (cmp_is_fun _ _ _ _ Heq Hac).
Qed.

(** [js_sort] computes the stable sorted order of a consistent comparator. *)
Lemma js_sort_stable_sorted (l : list A) :
  consistent cmp l ->
  exists out, js_sort cmp l = Ret out /\ stable_sorted cmp l out.
Proof.
  intros Hcons.
  destruct (js_sort cmp l) as [out|e] eqn:Hs.
  2:{ destruct (js_sort_Throw _ _ _ Hs) as (x & y & Hx & Hy & Hxy).
      pose proof (consistent_returns _ _ Hcons x y Hx Hy) as Hr.
      now rewrite Hxy in Hr. }
  exists out. split; [reflexivity|].
  pose proof (js_sort_perm _ _ _ Hs) as Hperm.
  assert (Hin : forall x, In x out -> In x l)
    by (intros x; apply Permutation_in; now symmetry).
  split; [exact Hperm|]. split.
  - apply Sorted_StronglySorted_in.
    + intros a b c Ha Hb Hc. apply (in_order_trans l); auto.
    + apply (js_sort_sorted_in cmp l l out); [|auto|exact Hs].
      intros a b c Ha Hb Hc Hpos. apply in_order_iff. left.
      apply (consistent_antisym l a b Hcons Ha Hb).
      exists c. split; [exact Hc|]. now apply Z.compare_gt_iff.
  - intros x Hx. apply (js_sort_filter cmp); [|exact Hs].
    intros y z c Hy Hz Hxy Hxz Hc.
    apply ties_iff in Hxy, Hxz.
    pose proof (consistent_sym _ _ Hcons x y Hx Hy Hxy) as Hyx.
    pose proof (consistent_trans _ _ Hcons Eq y x z Hy Hx Hz Hyx Hxz) as (c' & Hc' & Hs').
    rewrite Hc in Hc'. injection Hc' as <-. apply Z.compare_eq in Hs'. lia.
Qed.

(** Two stable sorted orders of the same elements are the same list. *)
Lemma sorted_stable_eq (o1 : list A) :
  forall o2,
    consistent cmp o1 -> Permutation o1 o2 ->
    Sorted.StronglySorted (in_order cmp) o1 ->
    Sorted.StronglySorted (in_order cmp) o2 ->
    (forall x, In x o1 ->
       List.filter (ties cmp x) o1 = List.filter (ties cmp x) o2) ->
    o1 = o2.
Proof.
  induction o1 as [|a o1 IH]; intros o2 Hcons Hperm Hs1 Hs2 Hf.
  - now apply Permutation_nil in Hperm.
  - destruct o2 as [|b o2];
      [apply Permutation_sym, Permutation_nil in Hperm; discriminate|].
    assert (Ha : In a (a :: o1)) by now left.
    assert (Hb : In b (a :: o1))
      by (apply (Permutation_in _ (Permutation_sym Hperm)); now left).
    apply Sorted.StronglySorted_inv in Hs1 as [Hs1 Hall1].
    apply Sorted.StronglySorted_inv in Hs2 as [Hs2 Hall2].
    rewrite List.Forall_forall in Hall1, Hall2.
    pose proof (consistent_refl _ _ Hcons a Ha) as Haa.
    assert (Hab : in_order cmp a b).
    { destruct Hb as [<-|Hb]; [apply in_order_iff; now right|now apply Hall1]. }
    assert (Hba : in_order cmp b a).
    { assert (Ha2 : In a (b :: o2)) by (apply (Permutation_in _ Hperm); now left).
      destruct Ha2 as [<-|Ha2]; [apply in_order_iff; now right|now apply Hall2]. }
    assert (Heq : cmp_is cmp Eq a b).
    { apply in_order_iff in Hab. destruct Hab as [Hlt|Heq]; [|exact Heq].
      apply (consistent_antisym _ a b Hcons Ha Hb) in Hlt.
      apply in_order_iff in Hba.
      destruct Hba as [Hba|Hba]; discriminate (cmp_is_fun _ _ _ _ Hlt Hba). }
    pose proof (Hf a Ha) as Hfa. cbn [List.filter] in Hfa.
    rewrite (proj2 (ties_iff a a) Haa), (proj2 (ties_iff a b) Heq) in Hfa.
    injection Hfa as <- _. f_equal.
    apply IH.
    + apply (consistent_incl (a :: o1)); [intros x Hx; now right|exact Hcons].
    + exact (Permutation_cons_inv Hperm).
    + exact Hs1.
    + exact Hs2.
    + intros x Hx. specialize (Hf x (or_intror Hx)). cbn [List.filter] in Hf.
      destruct (ties cmp x a); [now injection Hf|exact Hf].
Qed.

Lemma stable_sorted_unique (l o1 o2 : list A) :
  consistent cmp l -> stable_sorted cmp l o1 -> stable_sorted cmp l o2 -> o1 = o2.
Proof.
  intros Hcons (Hp1 & Hs1 & Hf1) (Hp2 & Hs2 & Hf2).
  assert (Hin : forall x, In x o1 -> In x l)
    by (intros x; apply Permutation_in; now symmetry).
  apply sorted_stable_eq; auto.
  - now apply (consistent_incl l).
  - now rewrite <- Hp1.
  - intros x Hx. rewrite Hf1, Hf2; auto.
Qed.

(** [js_sort] is a conforming sort, and with a consistent comparator it is
    the only one. *)
Lemma js_sort_conforming (l out : list A) :
  js_sort cmp l = Ret out -> conforming_sort cmp l out.
Proof.
  intros Hs. split; [exact (js_sort_perm _ _ _ Hs)|].
  intros Hcons. destruct (js_sort_stable_sorted l Hcons) as (out' & Hs' & Hst).
  rewrite Hs in Hs'. injection Hs' as <-. exact Hst.
Qed.

Lemma conforming_sort_unique (l out : list A) :
  consistent cmp l -> conforming_sort cmp l out -> js_sort cmp l = Ret out.
Proof.
  intros Hcons [_ Hout]. destruct (js_sort_stable_sorted l Hcons) as (out' & Hs & Hst).
  rewrite Hs. f_equal. symmetry.
  exact (stable_sorted_unique l out out' Hcons (Hout Hcons) Hst).
Qed.

End SortContract.

Section MoreSorting.
Context `{JSRuntime}.

Lemma sort_compare_numbers (field direction : string) (a b : Row) (x y : float) :
  row_get a field = VNum x -> row_get b field = VNum y ->
  sort_compare (mkSort field direction) a b =
  Ret (if (x =? y)%float then 0%Z
       else if String.eqb direction "asc"
            then (if (x <? y)%float then (-1)%Z else 1%Z)
            else (- (if (x <? y)%float then (-1)%Z else 1%Z))%Z).
Proof.
  intros Ha Hb. unfold sort_compare. cbn [s_field s_direction].
  rewrite Ha, Hb. cbn [strict_eq].
  destruct (x =? y)%float; [reflexivity|].
  now rewrite js_lt_numbers, !outcome_bind_Ret.
Qed.

Lemma numeric_key_spec (field : string) (row : Row) :
  numeric_key field row = true ->
  exists n, row_get row field = VNum n /\ is_nan n = false.
Proof.
  unfold numeric_key. destruct (row_get row field); try discriminate.
  intros Hn. eexists. split; [reflexivity|]. now destruct (is_nan n).
Qed.

Lemma sort_compare_numeric_antisym (field direction : string) (data : list Row) :
  forallb (numeric_key field) data = true ->
  forall a b c,
    In a data -> In b data ->
    sort_compare (mkSort field direction) a b = Ret c -> (0 < c)%Z ->
    in_order (sort_compare (mkSort field direction)) b a.
Proof.
  intros Hnum a b c Ha Hb Hc Hpos. rewrite forallb_forall in Hnum.
  destruct (numeric_key_spec _ _ (Hnum a Ha)) as (x & Hx & Hxn).
  destruct (numeric_key_spec _ _ (Hnum b Hb)) as (y & Hy & Hyn).
  rewrite (sort_compare_numbers _ _ _ _ _ _ Hx Hy) in Hc. injection Hc as <-.
  unfold in_order. rewrite (sort_compare_numbers _ _ _ _ _ _ Hy Hx).
  eexists. split; [reflexivity|].
  rewrite (eqb_sym_float y x).
  destruct (x =? y)%float eqn:Heq; [lia|].
  destruct (String.eqb direction "asc").
  - destruct (x <? y)%float eqn:Hlt; [lia|].
    rewrite (ltb_total x y Hxn Hyn Heq Hlt). lia.
  - destruct (x <? y)%float eqn:Hlt; [|lia].
    rewrite (ltb_asym x y Hlt). lia.
Qed.

Lemma sort_rows_numeric_returns (field direction : string) (data : list Row) :
  forallb (numeric_key field) data = true ->
  exists out, sort_rows data (mkSort field direction) = Ret out.
Proof.
  intros Hnum. unfold sort_rows.
  destruct (js_sort _ data) as [out|e] eqn:Hs; [now eexists|].
  destruct (js_sort_Throw _ _ _ Hs) as (a & b & Ha & Hb & Hc).
  rewrite forallb_forall in Hnum.
  destruct (numeric_key_spec _ _ (Hnum a Ha)) as (x & Hx & _).
  destruct (numeric_key_spec _ _ (Hnum b Hb)) as (y & Hy & _).
  now rewrite (sort_compare_numbers _ _ _ _ _ _ Hx Hy) in Hc.
Qed.

Lemma sort_rows_numeric_in_order (field direction : string) (data out : list Row) :
  forallb (numeric_key field) data = true ->
  sort_rows data (mkSort field direction) = Ret out ->
  Sorted.Sorted (in_order (sort_compare (mkSort field direction))) out.
Proof.
  intros Hnum Hs.
  apply (js_sort_sorted_in _ data data out); [|auto|exact Hs].
  intros a b c Ha Hb. now apply (sort_compare_numeric_antisym field direction data).
Qed.

(** X8.  On rows whose sort key is a number other than [NaN], [sortData]
    returns, and its result is ordered: with direction ['asc'] no row is
    followed by a row with a smaller key, and with any other direction no row
    is followed by a row with a greater key. *)
Theorem sort_rows_numeric_ordered (data : list Row) (field direction : string) :
  forallb (numeric_key field) data = true ->
  exists out,
    sort_rows data (mkSort field direction) = Ret out /\
    Permutation data out /\
    if String.eqb direction "asc"
    then Sorted.Sorted (key_le field) out
    else Sorted.Sorted (key_ge field) out.
Proof.
  intros Hnum.
  destruct (sort_rows_numeric_returns field direction data Hnum) as [out Hs].
  exists out. split; [exact Hs|].
  assert (Hperm : Permutation data out) by exact (js_sort_perm _ _ _ Hs).
  split; [exact Hperm|].
  pose proof (sort_rows_numeric_in_order _ _ _ _ Hnum Hs) as Hsorted.
  assert (Hkeys : forall row, In row out ->
                    exists n, row_get row field = VNum n /\ is_nan n = false).
  { intros row Hrow. apply numeric_key_spec.
    rewrite forallb_forall in Hnum. apply Hnum.
    exact (Permutation_in _ (Permutation_sym Hperm) Hrow). }
  destruct (String.eqb direction "asc") eqn:Hdir.
  - refine (Sorted_weaken_in _ _ _ _ Hsorted). intros a b Ha Hb Hab.
    destruct (Hkeys a Ha) as (x & Hx & _). destruct (Hkeys b Hb) as (y & Hy & _).
    destruct Hab as (c & Hc & Hle).
    rewrite (sort_compare_numbers _ _ _ _ _ _ Hx Hy), Hdir in Hc.
    injection Hc as <-. unfold key_le. rewrite Hx, Hy.
    destruct (x =? y)%float eqn:Heq; [now apply eqb_not_ltb|].
    destruct (x <? y)%float eqn:Hlt; [now apply ltb_asym|lia].
  - refine (Sorted_weaken_in _ _ _ _ Hsorted). intros a b Ha Hb Hab.
    destruct (Hkeys a Ha) as (x & Hx & _). destruct (Hkeys b Hb) as (y & Hy & _).
    destruct Hab as (c & Hc & Hle).
    rewrite (sort_compare_numbers _ _ _ _ _ _ Hx Hy), Hdir in Hc.
    injection Hc as <-. unfold key_ge, key_le. rewrite Hx, Hy.
    destruct (x =? y)%float eqn:Heq.
    + rewrite eqb_sym_float in Heq. now apply eqb_not_ltb.
    + destruct (x <? y)%float eqn:Hlt; [lia|reflexivity].
Qed.

(** X9.  Sorting is idempotent on such rows: sorting the result of
    [sortData] again by the same field and direction returns it unchanged. *)
Theorem sort_rows_numeric_idempotent
  (data out : list Row) (field direction : string) :
  forallb (numeric_key field) data = true ->
  sort_rows data (mkSort field direction) = Ret out ->
  sort_rows out (mkSort field direction) = Ret out.
Proof.
  intros Hnum Hs. apply js_sort_sorted_id.
  exact (sort_rows_numeric_in_order _ _ _ _ Hnum Hs).
Qed.

(** X10.  When all rows have strictly equal sort keys, in particular when
    no row has the sort field, [sortData] returns the rows in their input
    order, whatever the direction. *)
Theorem sort_rows_equal_keys_unchanged
  (data : list Row) (field direction : string) (k : value) :
  forallb (same_key field k) data = true ->
  sort_rows data (mkSort field direction) = Ret data.
Proof.
  intros Hkeys. apply js_sort_sorted_id. apply Sorted_all_related.
  intros a b Ha Hb. rewrite forallb_forall in Hkeys.
  exists 0%Z. split; [|lia].
  exact (sort_compare_same_key (mkSort field direction) k a b
           (Hkeys a Ha) (Hkeys b Hb)).
Qed.

End MoreSorting.

(* ===================================================================== *)
(** ** Sorting rows with a consistent comparator *)
(* ===================================================================== *)

(** A comparator whose answers follow an order that is reflexive, symmetric
    in its "equal" and transitive in each of its three answers is
    consistent. *)
Lemma consistent_by_sign {A} (cmp : A -> A -> outcome Z) (l : list A)
      (ord : A -> A -> comparison) :
  (forall a b, In a l -> In b l -> cmp_is cmp (ord a b) a b) ->
  (forall a, In a l -> ord a a = Eq) ->
  (forall a b, In a l -> In b l -> ord a b = Eq -> ord b a = Eq) ->
  (forall a b c, In a l -> In b l -> In c l ->
                 ord a b = ord b c -> ord a c = ord a b) ->
  consistent cmp l.
Proof.
  intros Hord Hrefl Hsym Htrans. constructor.
  - intros a b Ha Hb. destruct (Hord a b Ha Hb) as (c & -> & _). reflexivity.
  - intros a Ha. rewrite <- (Hrefl a Ha). now apply Hord.
  - intros a b Ha Hb Hab.
    pose proof (cmp_is_fun cmp _ _ _ _ Hab (Hord a b Ha Hb)) as Heq.
    rewrite (eq_sym (Hsym a b Ha Hb (eq_sym Heq))). now apply Hord.
  - intros s a b c Ha Hb Hc Hab Hbc.
    pose proof (cmp_is_fun cmp _ _ _ _ Hab (Hord a b Ha Hb)) as Hs1.
    pose proof (cmp_is_fun cmp _ _ _ _ Hbc (Hord b c Hb Hc)) as Hs2.
    assert (Hac : ord a c = ord a b) by (apply Htrans; congruence).
    rewrite Hs1, <- Hac. now apply Hord.
Qed.

Lemma directed_inj (direction : string) (s s' : comparison) :
  directed direction s = directed direction s' -> s = s'.
Proof. unfold directed. destruct (String.eqb direction "asc"), s, s'; simpl; congruence. Qed.

Lemma directed_Eq (direction : string) (s : comparison) :
  directed direction s = Eq <-> s = Eq.
Proof. unfold directed. destruct (String.eqb direction "asc"), s; simpl; split; congruence. Qed.

Lemma compare_opp_zero (c : Z) : (- c ?= 0)%Z = CompOpp (c ?= 0)%Z.
Proof. now destruct c. Qed.

Lemma eqb_refl_float (x : float) : is_nan x = false -> (x =? x)%float = true.
Proof. unfold is_nan. now destruct (x =? x)%float. Qed.

(** The order of two numbers: exactly one of equal, below and above. *)
Lemma float_order_trans (x y z : float) :
  is_nan x = false -> is_nan y = false -> is_nan z = false ->
  let ord a b := if (a =? b)%float then Eq else if (a <? b)%float then Lt else Gt in
  ord x y = ord y z -> ord x z = ord x y.
Proof.
  intros Hx Hy Hz ord. unfold ord.
  destruct (x =? y)%float eqn:Exy.
  - destruct (y =? z)%float eqn:Eyz;
      [|destruct (y <? z)%float; discriminate].
    intros _. rewrite eqb_sym_float in Eyz.
    now rewrite (eqb_euclid x z y Exy Eyz).
  - destruct (x <? y)%float eqn:Lxy.
    + destruct (y =? z)%float eqn:Eyz; [discriminate|].
      destruct (y <? z)%float eqn:Lyz; [|discriminate].
      intros _. pose proof (ltb_trans _ _ _ Lxy Lyz) as Lxz.
      now rewrite (ltb_not_eqb _ _ Lxz), Lxz.
    + destruct (y =? z)%float eqn:Eyz; [discriminate|].
      destruct (y <? z)%float eqn:Lyz; [discriminate|].
      intros _.
      pose proof (ltb_total x y Hx Hy Exy Lxy) as Lyx.
      pose proof (ltb_total y z Hy Hz Eyz Lyz) as Lzy.
      pose proof (ltb_trans _ _ _ Lzy Lyx) as Lzx.
      rewrite (eqb_sym_float x z), (ltb_not_eqb _ _ Lzx).
      now rewrite (ltb_asym _ _ Lzx).
Qed.

Section SortingConsistent.
Context `{JSRuntime}.

(** Numbers other than [NaN] as sort keys make the comparator consistent. *)
Lemma sort_compare_numeric_consistent (field direction : string) (rows : list Row) :
  forallb (numeric_key field) rows = true ->
  consistent (sort_compare (mkSort field direction)) rows.
Proof.
  intros Hnum. rewrite forallb_forall in Hnum.
  set (key := fun row => match row_get row field with VNum n => n | _ => nan end).
  assert (Hkey : forall row, In row rows ->
                   row_get row field = VNum (key row) /\ is_nan (key row) = false).
  { intros row Hrow. destruct (numeric_key_spec _ _ (Hnum row Hrow)) as (n & Hn & Hnn).
    unfold key. now rewrite Hn. }
  set (ord := fun x y : float =>
                if (x =? y)%float then Eq else if (x <? y)%float then Lt else Gt).
  apply (consistent_by_sign _ _
           (fun a b => directed direction (ord (key a) (key b)))).
  - intros a b Ha Hb. destruct (Hkey a Ha) as [Hx _], (Hkey b Hb) as [Hy _].
    unfold cmp_is. rewrite (sort_compare_numbers _ _ _ _ _ _ Hx Hy).
    eexists. split; [reflexivity|]. unfold directed, ord.
    destruct (key a =? key b)%float;
      [now destruct (String.eqb direction "asc")|].
    now destruct (String.eqb direction "asc"), (key a <? key b)%float.
  - intros a Ha. apply directed_Eq. unfold ord.
    now rewrite (eqb_refl_float _ (proj2 (Hkey a Ha))).
  - intros a b Ha Hb Hab. apply directed_Eq in Hab. apply directed_Eq.
    unfold ord in *. rewrite (eqb_sym_float (key b) (key a)).
    destruct (key a =? key b)%float; [reflexivity|].
    now destruct (key a <? key b)%float.
  - intros a b c Ha Hb Hc Hab. apply directed_inj in Hab. f_equal.
    apply float_order_trans; [apply Hkey..|exact Hab]; assumption.
Qed.

Lemma key_strings_In (field : string) (rows : list Row) (row : Row) (x : string) :
  In row rows -> row_get row field = VStr x -> In x (key_strings field rows).
Proof.
  intros Hrow Hx. unfold key_strings. apply in_flat_map.
  exists row. split; [exact Hrow|]. rewrite Hx. now left.
Qed.

(** Strings as sort keys make the comparator as consistent as
    [localeCompare] is on them. *)
Lemma sort_compare_string_consistent (field direction : string) (rows : list Row) :
  forallb (string_key field) rows = true ->
  consistent locale_order (key_strings field rows) ->
  consistent (sort_compare (mkSort field direction)) rows.
Proof.
  intros Hstr Hloc. rewrite forallb_forall in Hstr.
  set (key := fun row => match row_get row field with VStr x => x | _ => "" end).
  assert (Hkey : forall row, In row rows ->
                   row_get row field = VStr (key row) /\
                   In (key row) (key_strings field rows)).
  { intros row Hrow. specialize (Hstr row Hrow). unfold string_key in Hstr.
    unfold key. destruct (row_get row field) eqn:Hx; try discriminate.
    split; [reflexivity|]. now apply (key_strings_In field rows row). }
  set (ord := fun x y : string => (localeCompare x y ?= 0)%Z).
  assert (Hordloc : forall x y s, cmp_is locale_order s x y <-> ord x y = s).
  { intros x y s. unfold cmp_is, locale_order, ord. split.
    - now intros (c & [= <-] & Hs).
    - intros Hs. eexists. split; [reflexivity|exact Hs]. }
  apply (consistent_by_sign _ _
           (fun a b => directed direction (ord (key a) (key b)))).
  - intros a b Ha Hb. destruct (Hkey a Ha) as [Hx Hxin], (Hkey b Hb) as [Hy _].
    unfold cmp_is, sort_compare. cbn [s_field s_direction].
    rewrite Hx, Hy. cbn [strict_eq].
    destruct (String.eqb_spec (key a) (key b)) as [Heq|Hne].
    + eexists. split; [reflexivity|]. rewrite <- Heq.
      symmetry. apply directed_Eq. apply Hordloc.
      exact (consistent_refl _ _ Hloc (key a) Hxin).
    + rewrite outcome_bind_Ret. eexists. split; [reflexivity|].
      unfold directed, ord. destruct (String.eqb direction "asc");
        [reflexivity|apply compare_opp_zero].
  - intros a Ha. apply directed_Eq, Hordloc.
    exact (consistent_refl _ _ Hloc _ (proj2 (Hkey a Ha))).
  - intros a b Ha Hb Hab. apply directed_Eq in Hab. apply directed_Eq.
    apply Hordloc. apply Hordloc in Hab.
    exact (consistent_sym _ _ Hloc _ _ (proj2 (Hkey a Ha)) (proj2 (Hkey b Hb)) Hab).
  - intros a b c Ha Hb Hc Hab. apply directed_inj in Hab. f_equal.
    apply Hordloc.
    apply (consistent_trans _ _ Hloc _ _ (key b));
      try (apply Hkey; assumption); apply Hordloc; [reflexivity|now symmetry].
Qed.

(** C6.  When the comparator of [sortData] is consistent on the rows (as
    ECMAScript defines it), [sortData] returns a new array that holds the
    same rows, in the comparator's order (no row is placed after a row that
    the comparator puts strictly after it), with the rows of strictly equal
    sort key in their input order; and this array is the result of every
    conforming sort.  Whatever the comparator, on plain rows [sortData]
    returns an array holding the same rows.  The comparator is consistent when every sort key is a
    number other than [NaN], and when every sort key is a string and
    [localeCompare] is consistent on these strings.  On two different
    strings the ascending comparator is [localeCompare], on two different
    numbers it is -1 when the first is smaller and 1 otherwise, and the
    descending comparator is the negation of the ascending one. *)
Theorem sortData_consistent_stable
  (st : server_state) (data : loc) (field direction : string) :
  let sort := mkSort field direction in
  let rows := rows_at st data in
  (consistent (sort_compare sort) rows ->
   exists st' out,
     sortData data sort st = (st', Ret out) /\
     Permutation rows (rows_at st' out) /\
     Sorted.StronglySorted (in_order (sort_compare sort)) (rows_at st' out) /\
     (forall k, List.filter (same_key field k) (rows_at st' out) =
                List.filter (same_key field k) rows) /\
     (forall sorted, conforming_sort (sort_compare sort) rows sorted ->
                     sorted = rows_at st' out)) /\
  (forallb plain_row rows = true ->
   exists st' out,
     sortData data sort st = (st', Ret out) /\
     Permutation rows (rows_at st' out)) /\
  (forallb (numeric_key field) rows = true ->
   consistent (sort_compare sort) rows) /\
  (forallb (string_key field) rows = true ->
   consistent locale_order (key_strings field rows) ->
   consistent (sort_compare sort) rows) /\
  (forall a b x y,
      row_get a field = VStr x -> row_get b field = VStr y ->
      String.eqb x y = false ->
      sort_compare (mkSort field "asc") a b = Ret (localeCompare x y)) /\
  (forall a b x y,
      row_get a field = VNum x -> row_get b field = VNum y ->
      (x =? y)%float = false ->
      sort_compare (mkSort field "asc") a b =
      Ret (if (x <? y)%float then (-1)%Z else 1%Z)) /\
  (forall a b c,
      sort_compare (mkSort field "asc") a b = Ret c ->
      sort_compare (mkSort field "desc") a b = Ret (- c)%Z).
Proof.
  intros sort rows. split; [|split; [|split; [|split; [|split; [|split]]]]].
  - intros Hcons.
    destruct (js_sort_stable_sorted (sort_compare sort) rows Hcons)
      as (sorted & Hs & Hperm & Hsorted & _).
    eexists _, _. rewrite sortData_run. fold rows. unfold sort_rows. rewrite Hs.
    split; [reflexivity|]. rewrite rows_at_fresh.
    split; [exact Hperm|]. split; [exact Hsorted|]. split.
    + intros k. apply (js_sort_filter (sort_compare sort)); [|exact Hs].
      intros x y c _ _ Hx Hy Hc.
      rewrite (sort_compare_same_key sort k x y Hx Hy) in Hc.
      injection Hc as <-. lia.
    + intros sorted' Hconf.
      pose proof (conforming_sort_unique _ _ _ Hcons Hconf) as Hs'.
      rewrite Hs in Hs'. now injection Hs'.
  - intros Hplain. rewrite sortData_run. fold rows. unfold sort_rows.
    destruct (js_sort (sort_compare sort) rows) as [sorted|e] eqn:Hs.
    + eexists _, _. split; [reflexivity|]. rewrite rows_at_fresh.
      exact (js_sort_perm _ _ _ Hs).
    + exfalso. destruct (js_sort_Throw _ _ _ Hs) as (a & b & Ha & Hb & Hc).
      rewrite forallb_forall in Hplain.
      pose proof (sort_compare_plain sort a b (Hplain a Ha) (Hplain b Hb)) as Hr.
      now rewrite Hc in Hr.
  - apply sort_compare_numeric_consistent.
  - apply sort_compare_string_consistent.
  - intros a b x y Ha Hb Hne. unfold sort_compare. simpl.
    rewrite Ha, Hb. simpl. now rewrite Hne.
  - intros a b x y Ha Hb Hne. unfold sort_compare. simpl s_field.
    rewrite Ha, Hb. cbn [strict_eq]. rewrite Hne, js_lt_numbers. reflexivity.
  - intros a b c. unfold sort_compare. simpl s_field. simpl s_direction.
    destruct (strict_eq _ _); [intros [= <-]; reflexivity|].
    unfold mbind, outcome_bind.
    destruct (match row_get a field with
              | VStr x => _ | _ => _ end) as [cmp|e]; [|discriminate].
    simpl. now intros [= <-].
Qed.

End SortingConsistent.

(* ===================================================================== *)
(** ** More on pagination *)
(* ===================================================================== *)

Lemma firstn_add_skipn {A} (a b : nat) (l : list A) :
  firstn (a + b) l = firstn a l ++ firstn b (skipn a l).
Proof.
  revert l. induction a as [|a IH]; intros l; [reflexivity|].
  destruct l as [|x l]; simpl; [now rewrite firstn_nil|]. now rewrite IH.
Qed.

Lemma skipn_add {A} (a b : nat) (l : list A) :
  skipn (a + b) l = skipn b (skipn a l).
Proof.
  revert l. induction a as [|a IH]; intros l; [reflexivity|].
  destruct l as [|x l]; simpl; [now rewrite skipn_nil|]. apply IH.
Qed.

Section MorePagination.
Context `{JSRuntime}.

Lemma query_data_returns
  (st : server_state) (p : QueryParams) (ds : Dataset) (kept sorted : list Row) :
  assoc (q_dataset p) (datasets st) = Some ds ->
  filter_rows (rows_at st (ds_data ds)) (default [] (q_filters p)) = Ret kept ->
  match q_sort p with
  | Some sort => sort_rows kept sort
  | None => Ret kept
  end = Ret sorted ->
  exists st',
    query_data p st =
    (st', Ret (mkEnvelope
                 (PQuery (js_slice sorted (default 0%Z (q_offset p))
                                   (default 0%Z (q_offset p) + default 100%Z (q_limit p)))
                         (length kept) (default 0%Z (q_offset p))
                         (default 100%Z (q_limit p))
                         (default 0%Z (q_offset p) + default 100%Z (q_limit p)
                          <? Z.of_nat (length kept))%Z) false)) /\
    length sorted = length kept.
Proof.
  intros Hds Hkept Hsorted.
  destruct (query_data_run st p ds Hds) as (st' & _ & Hrun).
  unfold query_result in Hrun. rewrite Hkept in Hrun.
  rewrite outcome_bind_Ret, Hsorted, outcome_bind_Ret, outcome_fmap_Ret in Hrun.
  exists st'. split; [exact Hrun|].
  destruct (q_sort p) as [sort|].
  - symmetry. apply Permutation_length. exact (js_sort_perm _ _ _ Hsorted).
  - now injection Hsorted as <-.
Qed.

(** X11.  Consecutive pages join up: for a non-negative offset and
    non-negative sizes [a] and [b], the page at [offset] of size [a] followed
    by the page at [offset + a] of size [b] is the page at [offset] of size
    [a + b], all three requests reporting the same [totalCount]. *)
Theorem query_data_pages_concatenate
  (st : server_state) (dataset : string) (filters : option (list Filter))
  (sort : option SortSpec) (offset a b : Z) (ds : Dataset) (kept sorted : list Row) :
  assoc dataset (datasets st) = Some ds ->
  filter_rows (rows_at st (ds_data ds)) (default [] filters) = Ret kept ->
  match sort with
  | Some s => sort_rows kept s
  | None => Ret kept
  end = Ret sorted ->
  (0 <= offset)%Z -> (0 <= a)%Z -> (0 <= b)%Z ->
  exists st1 st2 st3 page1 page2 more1 more2 more3,
    query_data (mkQuery dataset filters sort (Some a) (Some offset)) st =
    (st1, Ret (mkEnvelope (PQuery page1 (length kept) offset a more1) false)) /\
    query_data (mkQuery dataset filters sort (Some b) (Some (offset + a)%Z)) st =
    (st2, Ret (mkEnvelope (PQuery page2 (length kept) (offset + a) b more2) false)) /\
    query_data (mkQuery dataset filters sort (Some (a + b)%Z) (Some offset)) st =
    (st3, Ret (mkEnvelope (PQuery (page1 ++ page2) (length kept) offset (a + b) more3)
                          false)).
Proof.
  intros Hds Hkept Hsorted Ho Ha Hb.
  destruct (query_data_returns st (mkQuery dataset filters sort (Some a) (Some offset))
              ds kept sorted Hds Hkept Hsorted) as (st1 & H1 & _).
  destruct (query_data_returns st
              (mkQuery dataset filters sort (Some b) (Some (offset + a)%Z))
              ds kept sorted Hds Hkept Hsorted) as (st2 & H2 & _).
  destruct (query_data_returns st
              (mkQuery dataset filters sort (Some (a + b)%Z) (Some offset))
              ds kept sorted Hds Hkept Hsorted) as (st3 & H3 & _).
  cbn [q_offset q_limit default from_option id] in H1, H2, H3.
  rewrite js_slice_nonneg in H1, H2, H3 by lia.
  exists st1, st2, st3. eexists _, _, _, _, _.
  split; [exact H1|]. split; [exact H2|].
  rewrite H3. repeat f_equal.
  rewrite !Z2Nat.inj_add by lia.
  now rewrite firstn_add_skipn, skipn_add.
Qed.

(** X12.  For a non-negative integer offset and limit, [hasMore] is true exactly
    when rows remain after the page: if it is true the page is full (its
    length is [limit]), and if it is false the page holds every row from
    [offset] on. *)
Theorem query_data_hasMore_meaning
  (st : server_state) (p : QueryParams) (ds : Dataset) (kept sorted : list Row) :
  assoc (q_dataset p) (datasets st) = Some ds ->
  filter_rows (rows_at st (ds_data ds)) (default [] (q_filters p)) = Ret kept ->
  match q_sort p with
  | Some sort => sort_rows kept sort
  | None => Ret kept
  end = Ret sorted ->
  (0 <= default 0 (q_offset p))%Z ->
  (0 <= default 100 (q_limit p))%Z ->
  let offset := default 0%Z (q_offset p) in
  let limit := default 100%Z (q_limit p) in
  exists st' page hasMore,
    query_data p st =
    (st', Ret (mkEnvelope (PQuery page (length kept) offset limit hasMore) false)) /\
    hasMore = (offset + Z.of_nat (length page) <? Z.of_nat (length kept))%Z /\
    (hasMore = true -> Z.of_nat (length page) = limit) /\
    (hasMore = false -> page = skipn (Z.to_nat offset) sorted).
Proof.
  intros Hds Hkept Hsorted Ho Hl offset limit.
  destruct (query_data_returns st p ds kept sorted Hds Hkept Hsorted)
    as (st' & Hrun & Hlen).
  fold offset limit in Hrun. rewrite js_slice_nonneg in Hrun by assumption.
  eexists st', _, _. split; [exact Hrun|].
  rewrite length_firstn, length_skipn, Hlen.
  destruct (offset + limit <? Z.of_nat (length kept))%Z eqn:Hmore.
  - apply Z.ltb_lt in Hmore. split; [|split; [intros _; lia|discriminate]].
    symmetry. apply Z.ltb_lt. lia.
  - apply Z.ltb_ge in Hmore. split; [|split; [discriminate|]].
    + symmetry. apply Z.ltb_ge. lia.
    + intros _. apply firstn_all2. rewrite length_skipn, Hlen. lia.
Qed.

(** X13.  A negative limit is not rejected: with offset 0 and a limit
    [-k] for [0 < k <= totalCount], the page holds all rows but the last [k],
    and [hasMore] is true. *)
Theorem query_data_negative_limit_drops_tail
  (st : server_state) (dataset : string) (filters : option (list Filter))
  (sort : option SortSpec) (k : Z) (ds : Dataset) (kept sorted : list Row) :
  assoc dataset (datasets st) = Some ds ->
  filter_rows (rows_at st (ds_data ds)) (default [] filters) = Ret kept ->
  match sort with
  | Some s => sort_rows kept s
  | None => Ret kept
  end = Ret sorted ->
  (0 < k <= Z.of_nat (length kept))%Z ->
  exists st',
    query_data (mkQuery dataset filters sort (Some (- k)%Z) (Some 0%Z)) st =
    (st', Ret (mkEnvelope
                 (PQuery (firstn (length kept - Z.to_nat k) sorted) (length kept)
                         0 (- k) true) false)).
Proof.
  intros Hds Hkept Hsorted Hk.
  destruct (query_data_returns st
              (mkQuery dataset filters sort (Some (- k)%Z) (Some 0%Z))
              ds kept sorted Hds Hkept Hsorted) as (st' & Hrun & Hlen).
  cbn [q_offset q_limit default from_option id] in Hrun.
  exists st'. rewrite Hrun. repeat f_equal.
  - unfold js_slice, slice_index. rewrite Hlen.
    replace (0 + - k)%Z with (- k)%Z by lia.
    assert (Ek : (- k <? 0)%Z = true) by (apply Z.ltb_lt; lia).
    rewrite Ek. change (0 <? 0)%Z with false. cbv iota.
    rewrite Z.min_l by lia. rewrite Z.max_l by lia. simpl skipn.
    f_equal. lia.
  - apply Z.ltb_lt. lia.
Qed.

End MorePagination.

(* ===================================================================== *)
(** ** Export *)
(* ===================================================================== *)

Lemma mapM_mapM_shape {A B C} (f : A -> B -> outcome C) (hs : list B) (l : list A) :
  forall cells,
    mapM (fun a => mapM (f a) hs) l = Ret cells ->
    Forall (fun line => length line = length hs) cells.
Proof.
  induction l as [|a l IH]; intros cells Hcells; simpl in Hcells.
  - injection Hcells as <-. constructor.
  - destruct (mapM (f a) hs) as [line|e] eqn:Hline; [|discriminate].
    rewrite outcome_bind_Ret in Hcells.
    destruct (mapM _ l) as [r'|e] eqn:Hrest; [|discriminate].
    rewrite outcome_bind_Ret in Hcells. injection Hcells as <-.
    constructor; [exact (mapM_length _ _ _ Hline)|]. now apply IH.
Qed.

Section ExportFacts.
Context `{JSRuntime}.

Lemma export_data_returns
  (st : server_state) (p : ExportParams) (ds : Dataset) (kept : list Row)
  (content : export_content) :
  assoc (e_dataset p) (datasets st) = Some ds ->
  filter_rows (rows_at st (ds_data ds)) (default [] (e_filters p)) = Ret kept ->
  (if String.eqb (default "json" (e_format p)) "csv"
   then CsvText <$> csv_content (map fst (ds_schema ds)) kept
   else Ret (JsonText kept)) = Ret content ->
  exists st',
    export_data p st =
    (st', Ret (mkEnvelope (PExport (default "json" (e_format p)) (length kept) content)
                          false)).
Proof.
  intros Hds Hkept Hcontent.
  destruct (export_data_run st p ds Hds) as (st' & _ & Hrun).
  unfold export_result in Hrun. rewrite Hkept, outcome_bind_Ret in Hrun.
  rewrite Hcontent, outcome_bind_Ret, outcome_fmap_Ret in Hrun.
  now exists st'.
Qed.

(** X14.  Export and query agree: with the same filters, and any format
    other than ['csv'] (the default is ['json']), [export-data] returns as
    content exactly the rows that [query-data] returns unsorted from offset 0
    with a limit of at least their number, and its [recordCount] is that
    query's [totalCount]. *)
Theorem export_json_matches_query
  (st : server_state) (dataset : string) (filters : option (list Filter))
  (format : option string) (limit : Z) (ds : Dataset) (kept : list Row) :
  assoc dataset (datasets st) = Some ds ->
  filter_rows (rows_at st (ds_data ds)) (default [] filters) = Ret kept ->
  String.eqb (default "json" format) "csv" = false ->
  (Z.of_nat (length kept) <= limit)%Z ->
  exists st1 st2,
    export_data (mkExport dataset filters format) st =
    (st1, Ret (mkEnvelope (PExport (default "json" format) (length kept)
                                   (JsonText kept)) false)) /\
    query_data (mkQuery dataset filters None (Some limit) (Some 0%Z)) st =
    (st2, Ret (mkEnvelope (PQuery kept (length kept) 0 limit false) false)).
Proof.
  intros Hds Hkept Hfmt Hlimit.
  destruct (export_data_returns st (mkExport dataset filters format) ds kept
              (JsonText kept) Hds Hkept) as (st1 & H1).
  { cbn [e_format]. now rewrite Hfmt. }
  destruct (query_data_returns st (mkQuery dataset filters None (Some limit) (Some 0%Z))
              ds kept kept Hds Hkept eq_refl) as (st2 & H2 & _).
  cbn [q_offset q_limit default from_option id] in H2.
  exists st1, st2. split; [exact H1|]. rewrite H2. repeat f_equal.
  - rewrite js_slice_nonneg by lia. simpl skipn. apply firstn_all2. lia.
  - apply Z.ltb_ge. lia.
Qed.

Lemma csv_cell_plain (row : Row) (h : string) :
  plain_row row = true -> returns (csv_cell row h) = true.
Proof.
  intros Hrow. unfold csv_cell.
  pose proof (ToString_plain _ (plain_row_get row h Hrow)) as Hs.
  destruct (row_get row h); try exact Hs.
  now destruct (string_includes s ",").
Qed.

(** X15.  On rows with plain values the CSV export does not throw.  Its
    text is the header line (the schema's field names joined by commas)
    followed, one line per filtered row and in their order, by the row's
    cells joined by commas, one cell per schema field; [recordCount] is the
    number of filtered rows; and the cell of a field that the row lacks, and
    whose name is not a property name of [Object.prototype], is the word
    "undefined". *)
Theorem export_csv_shape
  (st : server_state) (dataset : string) (filters : option (list Filter))
  (ds : Dataset) (kept : list Row) :
  assoc dataset (datasets st) = Some ds ->
  filter_rows (rows_at st (ds_data ds)) (default [] filters) = Ret kept ->
  forallb plain_row kept = true ->
  let headers := map fst (ds_schema ds) in
  exists st' cells,
    export_data (mkExport dataset filters (Some "csv")) st =
    (st', Ret (mkEnvelope
                 (PExport "csv" (length kept)
                    (CsvText (String.concat newline
                                (String.concat "," headers ::
                                 map (String.concat ",") cells)))) false)) /\
    mapM (fun row => mapM (csv_cell row) headers) kept = Ret cells /\
    length cells = length kept /\
    Forall (fun line => length line = length headers) cells /\
    (forall row h, has_own h row = false -> is_inherited h = false ->
                   csv_cell row h = Ret "undefined").
Proof.
  intros Hds Hkept Hplain headers.
  destruct (mapM_returns (fun row => mapM (csv_cell row) headers) kept)
    as [cells Hcells].
  { intros row Hrow.
    destruct (mapM_returns (csv_cell row) headers) as [line Hline].
    - intros h _. apply csv_cell_plain.
      rewrite forallb_forall in Hplain. now apply Hplain.
    - now rewrite Hline. }
  assert (Hcsv : csv_content headers kept =
                 Ret (String.concat newline
                        (String.concat "," headers :: map (String.concat ",") cells))).
  { unfold csv_content.
    assert (Hmap : forall l r,
               mapM (fun row => mapM (csv_cell row) headers) l = Ret r ->
               mapM (fun row => String.concat "," <$> mapM (csv_cell row) headers) l
               = Ret (map (String.concat ",") r)).
    { induction l as [|row l IH]; intros r Hr; simpl in *.
      - now injection Hr as <-.
      - destruct (mapM (csv_cell row) headers) as [line|e]; [|discriminate].
        rewrite outcome_bind_Ret in Hr. rewrite outcome_fmap_Ret, outcome_bind_Ret.
        destruct (mapM _ l) as [r'|e]; [|discriminate].
        rewrite outcome_bind_Ret in Hr. injection Hr as <-.
        now rewrite (IH r' eq_refl), outcome_bind_Ret. }
    now rewrite (Hmap kept cells Hcells), outcome_bind_Ret. }
  destruct (export_data_returns st (mkExport dataset filters (Some "csv")) ds kept
              (CsvText (String.concat newline
                          (String.concat "," headers ::
                           map (String.concat ",") cells))) Hds Hkept)
    as (st' & Hrun).
  { cbn [e_format default from_option id]. simpl String.eqb. cbv iota.
    fold headers. now rewrite Hcsv. }
  exists st', cells. split; [exact Hrun|]. split; [exact Hcells|].
  split; [exact (mapM_length _ _ _ Hcells)|]. split.
  - exact (mapM_mapM_shape csv_cell headers kept cells Hcells).
  - intros row h Habs Hown. unfold csv_cell.
    now rewrite (row_get_absent _ _ Habs Hown).
Qed.

End ExportFacts.

(* ===================================================================== *)
(** ** Field statistics *)
(* ===================================================================== *)

Lemma set_add_key (s : list value) (v : value) :
  set_add s v =
  if existsb (same_value_zero (set_key v)) s then s else s ++ [set_key v].
Proof. reflexivity. Qed.

Lemma plain_set_key (v : value) : plain v = true -> plain (set_key v) = true.
Proof.
  destruct v; simpl; try reflexivity; try (intros Hv; exact Hv).
  now destruct (is_zero n).
Qed.

(** The set holds only column values, each value of the column is in it or
    equal (by [SameValueZero]) to a member, and it is no longer than the
    column. *)
Lemma fold_set_add_spec (keys : list value) :
  forall s,
    let s' := fold_left (fun unique v => set_add unique v) keys s in
    (forall u, In u s' -> In u s \/ In u (map set_key keys)) /\
    (forall u, In u s -> In u s') /\
    (forall v, In v keys ->
               exists u, In u s' /\
                         (u = set_key v \/ same_value_zero (set_key v) u = true)) /\
    (length s' <= length s + length keys)%nat.
Proof.
  induction keys as [|v keys IH]; intros s; simpl.
  - repeat split; auto; [intros v []|lia].
  - destruct (IH (set_add s v)) as (Hfrom & Hkeep & Hcover & Hlen).
    rewrite set_add_key in *.
    split; [|split; [|split]].
    + intros u Hu. destruct (Hfrom u Hu) as [Hs|Hk]; [|right; now right].
      destruct (existsb _ s); [now left|].
      apply in_app_or in Hs as [Hs|[<-|[]]]; [now left|right; now left].
    + intros u Hu. apply Hkeep.
      destruct (existsb _ s); [assumption|]. apply in_or_app. now left.
    + intros w [<-|Hw]; [|now apply Hcover].
      destruct (existsb (same_value_zero (set_key v)) s) eqn:Hex.
      * apply existsb_exists in Hex as (u & Hu & Heq).
        exists u. split; [now apply Hkeep|now right].
      * exists (set_key v). split; [|now left].
        apply Hkeep. apply in_or_app. right. now left.
    + destruct (existsb _ s); [lia|]. rewrite length_app in Hlen. simpl in Hlen. lia.
Qed.

Lemma unique_set_fold (data : list Row) (field : string) :
  forall s,
    fold_left (fun unique row => set_add unique (row_get row field)) data s =
    fold_left (fun unique v => set_add unique v)
              (map (fun row => row_get row field) data) s.
Proof.
  induction data as [|row data IH]; intros s; [reflexivity|]. simpl. apply IH.
Qed.

Lemma ascii_compare_trans (a b c : ascii) (s : comparison) :
  Ascii.compare a b = s -> Ascii.compare b c = s -> Ascii.compare a c = s.
Proof.
  unfold Ascii.compare. intros Hab Hbc. destruct s.
  - apply N.compare_eq_iff in Hab, Hbc. apply N.compare_eq_iff. congruence.
  - exact (N.lt_trans _ _ _ Hab Hbc).
  - rewrite N.compare_gt_iff in *. exact (N.lt_trans _ _ _ Hbc Hab).
Qed.

(** The order of strings is transitive in each of its three answers. *)
Lemma string_compare_trans (s1 : string) :
  forall s2 s3 s,
    String.compare s1 s2 = s -> String.compare s2 s3 = s ->
    String.compare s1 s3 = s.
Proof.
  induction s1 as [|a s1 IH]; intros [|b s2] [|c s3] s; simpl;
    try congruence.
  destruct (Ascii.compare a b) eqn:Eab, (Ascii.compare b c) eqn:Ebc;
    try (intros <-; discriminate); try (intros _ <-; discriminate).
  - rewrite (ascii_compare_trans a b c Eq Eab Ebc). apply IH.
  - apply Ascii.compare_eq_iff in Eab. subst b. rewrite Ebc. congruence.
  - apply Ascii.compare_eq_iff in Eab. subst b. rewrite Ebc. congruence.
  - apply Ascii.compare_eq_iff in Ebc. subst c. rewrite Eab. congruence.
  - rewrite (ascii_compare_trans a b c Lt Eab Ebc). congruence.
  - apply Ascii.compare_eq_iff in Ebc. subst c. rewrite Eab. congruence.
  - rewrite (ascii_compare_trans a b c Gt Eab Ebc). congruence.
Qed.

Lemma string_compare_refl (s : string) : String.compare s s = Eq.
Proof.
  induction s as [|a s IH]; simpl; [reflexivity|].
  unfold Ascii.compare. now rewrite N.compare_refl.
Qed.

Lemma same_value_zero_sym (a b : value) :
  same_value_zero a b = same_value_zero b a.
Proof.
  destruct a, b; simpl; try reflexivity.
  - now destruct b, b0.
  - now rewrite eqb_sym_float, (andb_comm (is_nan n)).
  - apply String.eqb_sym.
  - apply String.eqb_sym.
Qed.

Lemma ForallOrdPairs_snoc {A} (R : A -> A -> Prop) (l : list A) (x : A) :
  ForallOrdPairs R l -> Forall (fun u => R u x) l -> ForallOrdPairs R (l ++ [x]).
Proof.
  induction 1 as [|a l Ha Hl IH]; intros Hx; simpl.
  - repeat constructor.
  - apply List.Forall_cons_iff in Hx as [Hax Hx]. constructor; [|now apply IH].
    apply List.Forall_app. split; [exact Ha|now constructor].
Qed.

Lemma ForallOrdPairs_perm {A} (R : A -> A -> Prop) (l l' : list A) :
  (forall a b, R a b -> R b a) ->
  Permutation l l' -> ForallOrdPairs R l -> ForallOrdPairs R l'.
Proof.
  intros Hsym Hperm. induction Hperm as [|x l l' Hperm IH|x y l|l l' l'' _ IH1 _ IH2];
    intros Hl.
  - constructor.
  - inversion Hl as [|? ? Hx Hrest]; subst. constructor; [|now apply IH].
    now rewrite <- Hperm.
  - inversion Hl as [|? ? Hy Hrest]; subst.
    inversion Hrest as [|? ? Hx Hl']; subst.
    apply List.Forall_cons_iff in Hy as [Hyx Hy].
    constructor; [constructor; [now apply Hsym|exact Hx]|].
    constructor; assumption.
  - auto.
Qed.

(** The [Set] never holds the same value twice. *)
Lemma fold_set_add_distinct (keys : list value) :
  forall s, distinct_values s ->
            distinct_values (fold_left (fun unique v => set_add unique v) keys s).
Proof.
  induction keys as [|v keys IH]; intros s Hs; [exact Hs|].
  simpl. apply IH. rewrite set_add_key.
  destruct (existsb (same_value_zero (set_key v)) s) eqn:Hex; [exact Hs|].
  apply ForallOrdPairs_snoc; [exact Hs|].
  apply List.Forall_forall. intros u Hu. rewrite same_value_zero_sym.
  destruct (same_value_zero (set_key v) u) eqn:Hsame; [|reflexivity].
  assert (Hyes : existsb (same_value_zero (set_key v)) s = true)
    by (apply existsb_exists; now exists u).
  congruence.
Qed.

Section Statistics.
Context `{JSRuntime}.

Lemma default_compare_plain (x y : value) :
  plain x = true -> plain y = true -> returns (default_compare x y) = true.
Proof.
  intros Hx Hy. unfold default_compare.
  pose proof (ToString_plain x Hx) as Sx. pose proof (ToString_plain y Hy) as Sy.
  destruct (ToString x); [|discriminate]. destruct (ToString y); [|discriminate].
  reflexivity.
Qed.

Lemma default_sort_plain (l : list value) :
  (forall v, In v l -> plain v = true) ->
  exists sorted, default_sort l = Ret sorted /\ Permutation l sorted.
Proof.
  intros Hplain. unfold default_sort.
  destruct (js_sort default_compare
              (List.filter (fun v => negb (is_undefined v)) l)) as [s|e] eqn:Hs.
  - rewrite outcome_bind_Ret. eexists. split; [reflexivity|].
    rewrite <- (js_sort_perm _ _ _ Hs).
    clear Hs Hplain. induction l as [|v l IH]; [reflexivity|]. simpl.
    destruct (is_undefined v); simpl.
    + now apply Permutation_cons_app.
    + now constructor.
  - destruct (js_sort_Throw _ _ _ Hs) as (x & y & Hx & Hy & Hc).
    apply filter_In in Hx as [Hx _]. apply filter_In in Hy as [Hy _].
    pose proof (default_compare_plain x y (Hplain x Hx) (Hplain y Hy)) as Hr.
    now rewrite Hc in Hr.
Qed.

Lemma ltb_compare (xs ys : string) :
  ((if String.ltb xs ys then -1 else if String.ltb ys xs then 1 else 0) ?= 0)%Z =
  String.compare xs ys.
Proof.
  unfold String.ltb. rewrite (String.compare_antisym ys xs).
  now destruct (String.compare xs ys).
Qed.

(** The comparator of [sort()] is consistent on values that have string
    forms. *)
Lemma default_compare_consistent (l : list value) :
  (forall v, In v l -> plain v = true) -> consistent default_compare l.
Proof.
  intros Hplain.
  set (form := fun v => match ToString v with Ret s => s | Throw _ => "" end).
  assert (Hform : forall v, In v l -> ToString v = Ret (form v)).
  { intros v Hv. pose proof (ToString_plain v (Hplain v Hv)) as Hs.
    unfold form. now destruct (ToString v). }
  apply (consistent_by_sign _ _ (fun a b => String.compare (form a) (form b))).
  - intros a b Ha Hb. unfold cmp_is, default_compare.
    rewrite (Hform a Ha), (Hform b Hb), !outcome_bind_Ret.
    eexists. split; [reflexivity|apply ltb_compare].
  - intros a _. apply string_compare_refl.
  - intros a b _ _ Hab. apply String.compare_eq_iff in Hab. rewrite Hab.
    apply string_compare_refl.
  - intros a b c _ _ _ Hab. apply (string_compare_trans _ (form b)); congruence.
Qed.

Lemma in_order_string_form_le (l : list value) (a b : value) :
  (forall v, In v l -> plain v = true) -> In a l -> In b l ->
  in_order default_compare a b -> string_form_le a b.
Proof.
  intros Hplain Ha Hb (c & Hc & Hle). unfold default_compare in Hc.
  pose proof (ToString_plain a (Hplain a Ha)) as Sa.
  pose proof (ToString_plain b (Hplain b Hb)) as Sb.
  destruct (ToString a) as [xs|] eqn:Ea; [|discriminate].
  destruct (ToString b) as [ys|] eqn:Eb; [|discriminate].
  rewrite !outcome_bind_Ret in Hc. injection Hc as <-.
  exists xs, ys. split; [exact Ea|]. split; [exact Eb|].
  unfold String.ltb in *. rewrite (String.compare_antisym ys xs) in *.
  destruct (String.compare xs ys); simpl in *; [reflexivity|reflexivity|lia].
Qed.

Lemma filter_is_undefined (l : list value) :
  Forall (fun v => v = VUndef) (List.filter is_undefined l).
Proof.
  apply List.Forall_forall. intros v Hv. apply List.filter_In in Hv as [_ Hv].
  now destruct v.
Qed.

(** X16.  For a string column of plain rows [getFieldStats] returns:
    [uniqueCount] is the number of distinct values and is at most the number
    of rows, [values] are the first 50 of them in sorted order (so at most 50),
    every listed value occurs in the column, and every value of the column is
    counted, as itself or as a value equal to it.  Distinct: no two of the
    values are the same for a [Set].  Sorted: the values other than
    [undefined] come first, and none of them has a string form that comes
    after the string form of a later one; [undefined] comes last. *)
Theorem getFieldStats_string (data : list Row) (field : string) :
  forallb plain_row data = true ->
  exists unique,
    getUniqueValues data field = Ret unique /\
    getFieldStats data field "string" =
      Ret (StringStats (length unique) (firstn 50 unique)) /\
    Permutation (unique_set data field) unique /\
    (length unique <= length data)%nat /\
    (length (firstn 50 unique) <= 50)%nat /\
    (forall u, In u unique -> In u (column_keys data field)) /\
    (forall v, In v (column_keys data field) ->
               exists u, In u unique /\ (u = v \/ same_value_zero v u = true)) /\
    distinct_values unique /\
    (exists sorted rest,
        unique = sorted ++ rest /\
        Forall (fun v => is_undefined v = false) sorted /\
        Forall (fun v => v = VUndef) rest /\
        Sorted.StronglySorted string_form_le sorted).
Proof.
  intros Hplain.
  pose proof (fold_set_add_spec (map (fun row => row_get row field) data) [])
    as (Hfrom & _ & Hcover & Hlen).
  cbv zeta in Hfrom, Hcover, Hlen.
  rewrite <- unique_set_fold in Hfrom, Hcover, Hlen.
  fold (unique_set data field) in Hfrom, Hcover, Hlen.
  rewrite map_map in Hfrom. fold (column_keys data field) in Hfrom.
  assert (Hkeys_plain : forall u, In u (column_keys data field) -> plain u = true).
  { intros u Hu. unfold column_keys in Hu. apply in_map_iff in Hu as (row & <- & Hrow).
    apply plain_set_key, plain_row_get.
    rewrite forallb_forall in Hplain. now apply Hplain. }
  assert (Hset_plain : forall u, In u (unique_set data field) -> plain u = true).
  { intros u Hu. apply Hkeys_plain. destruct (Hfrom u Hu) as [[]|Hk]. exact Hk. }
  destruct (default_sort_plain (unique_set data field) Hset_plain)
    as (unique & Hsort & Hperm).
  exists unique. split; [exact Hsort|]. split.
  { unfold getFieldStats. simpl String.eqb. cbv iota.
    unfold getUniqueValues in Hsort |- *. fold (unique_set data field) in Hsort |- *.
    rewrite Hsort, outcome_bind_Ret. do 2 f_equal.
    change (js_slice unique 0 50) with (js_slice unique 0 (0 + 50)).
    rewrite (js_slice_nonneg unique 0 50) by lia. reflexivity. }
  split; [exact Hperm|]. split.
  { rewrite <- (Permutation_length Hperm). rewrite length_map in Hlen. simpl in Hlen.
    exact Hlen. }
  split; [rewrite length_firstn; lia|]. split; [|split; [|split]].
  - intros u Hu. apply (Permutation_in _ (Permutation_sym Hperm)) in Hu.
    destruct (Hfrom u Hu) as [[]|Hk]. exact Hk.
  - intros v Hv. unfold column_keys in Hv. apply in_map_iff in Hv as (row & <- & Hrow).
    destruct (Hcover (row_get row field)) as (u & Hu & Hrel).
    { apply in_map_iff. now exists row. }
    exists u. split; [exact (Permutation_in _ Hperm Hu)|exact Hrel].
  - apply (ForallOrdPairs_perm _ (unique_set data field)).
    + intros a b Hab. now rewrite same_value_zero_sym.
    + exact Hperm.
    + unfold unique_set. rewrite unique_set_fold.
      apply fold_set_add_distinct. constructor.
  - unfold default_sort in Hsort.
    set (defined := List.filter (fun v => negb (is_undefined v))
                                (unique_set data field)) in *.
    assert (Hdef_plain : forall v, In v defined -> plain v = true).
    { intros v Hv. apply List.filter_In in Hv as [Hv _]. now apply Hset_plain. }
    destruct (js_sort_stable_sorted default_compare defined
                (default_compare_consistent defined Hdef_plain))
      as (sorted & Hs & Hp & Hsorted & _).
    rewrite Hs, outcome_bind_Ret in Hsort. injection Hsort as <-.
    exists sorted, (List.filter is_undefined (unique_set data field)).
    split; [reflexivity|].
    assert (Hin : forall v, In v sorted -> In v defined)
      by (intros v; apply Permutation_in; now symmetry).
    split; [|split; [apply filter_is_undefined|]].
    + apply List.Forall_forall. intros v Hv. apply Hin in Hv.
      apply List.filter_In in Hv as [_ Hv]. now apply negb_true_iff.
    + apply (StronglySorted_weaken_in (in_order default_compare)); [|exact Hsorted].
      intros a b Ha Hb. apply (in_order_string_form_le defined); auto.
Qed.

End Statistics.

(** The fold of [Math.min] returns a lower bound of its start value and of
    every value it has seen. *)
Lemma min_fold_lower_bound (values : list float) :
  forall lowest,
    is_nan lowest = false ->
    forallb (fun v => negb (is_nan v)) values = true ->
    let m := fold_left (fun lowest n =>
               if is_zero n && is_zero lowest && get_sign n then n
               else if (n <? lowest)%float then n else lowest) values lowest in
    is_nan m = false /\
    (lowest <? m)%float = false /\
    (forall v, In v values -> (v <? m)%float = false).
Proof.
  induction values as [|n values IH]; intros lowest Hl Hvals; simpl.
  - split; [exact Hl|]. split; [apply ltb_irrefl|intros v []].
  - simpl in Hvals. apply andb_prop in Hvals as [Hn Hvals].
    apply negb_true_iff in Hn.
    set (next := if is_zero n && is_zero lowest && get_sign n then n
                 else if (n <? lowest)%float then n else lowest).
    assert (Hnext : is_nan next = false /\ (lowest <? next)%float = false /\
                    (n <? next)%float = false).
    { subst next.
      destruct (is_zero n && is_zero lowest && get_sign n) eqn:Hz.
      - apply andb_prop in Hz as [Hz _]. apply andb_prop in Hz as [Hzn Hzl].
        split; [exact Hn|]. split; [|apply ltb_irrefl].
        rewrite (ltb_zero_r lowest n lowest Hzn Hzl). apply ltb_irrefl.
      - destruct (n <? lowest)%float eqn:Hlt.
        + split; [exact Hn|]. split; [now apply ltb_asym|apply ltb_irrefl].
        + split; [exact Hl|]. split; [apply ltb_irrefl|exact Hlt]. }
    destruct Hnext as (Hnn & Hnl & Hnv).
    destruct (IH next Hnn Hvals) as (Hm & Hmn & Hmv).
    split; [exact Hm|]. split.
    + exact (leb_trans_float _ _ _ Hnn Hmn Hnl).
    + intros v [<-|Hv]; [|now apply Hmv].
      exact (leb_trans_float _ _ _ Hnn Hmn Hnv).
Qed.

(** The fold of [Math.max] returns an upper bound of its start value and of
    every value it has seen. *)
Lemma max_fold_upper_bound (values : list float) :
  forall highest,
    is_nan highest = false ->
    forallb (fun v => negb (is_nan v)) values = true ->
    let m := fold_left (fun highest n =>
               if is_zero n && is_zero highest && negb (get_sign n) then n
               else if (highest <? n)%float then n else highest) values highest in
    is_nan m = false /\
    (m <? highest)%float = false /\
    (forall v, In v values -> (m <? v)%float = false).
Proof.
  induction values as [|n values IH]; intros highest Hl Hvals; simpl.
  - split; [exact Hl|]. split; [apply ltb_irrefl|intros v []].
  - simpl in Hvals. apply andb_prop in Hvals as [Hn Hvals].
    apply negb_true_iff in Hn.
    set (next := if is_zero n && is_zero highest && negb (get_sign n) then n
                 else if (highest <? n)%float then n else highest).
    assert (Hnext : is_nan next = false /\ (next <? highest)%float = false /\
                    (next <? n)%float = false).
    { subst next.
      destruct (is_zero n && is_zero highest && negb (get_sign n)) eqn:Hz.
      - apply andb_prop in Hz as [Hz _]. apply andb_prop in Hz as [Hzn Hzl].
        split; [exact Hn|]. split; [|apply ltb_irrefl].
        rewrite (ltb_zero_l highest n highest Hzn Hzl). apply ltb_irrefl.
      - destruct (highest <? n)%float eqn:Hlt.
        + split; [exact Hn|]. split; [now apply ltb_asym|apply ltb_irrefl].
        + split; [exact Hl|]. split; [apply ltb_irrefl|exact Hlt]. }
    destruct Hnext as (Hnn & Hnl & Hnv).
    destruct (IH next Hnn Hvals) as (Hm & Hmn & Hmv).
    split; [exact Hm|]. split.
    + exact (leb_trans_float _ _ _ Hnn Hnl Hmn).
    + intros v [<-|Hv]; [|now apply Hmv].
      exact (leb_trans_float _ _ _ Hnn Hnv Hmn).
Qed.

Lemma filter_not_nan (numbers : list float) :
  forallb (fun v => negb (is_nan v))
          (List.filter (fun v => negb (is_nan v)) numbers) = true.
Proof.
  apply forallb_forall. intros v Hv. now apply filter_In in Hv as [_ Hv].
Qed.

Lemma existsb_is_nan_false (values : list float) :
  forallb (fun v => negb (is_nan v)) values = true ->
  existsb is_nan values = false.
Proof.
  induction values as [|v values IH]; [reflexivity|]. simpl.
  intros Hv. apply andb_prop in Hv as [Hv Hvals].
  apply negb_true_iff in Hv. now rewrite Hv, IH.
Qed.

Lemma min_fold_attained (values : list float) :
  forall lowest,
    let m := fold_left (fun lowest n =>
               if is_zero n && is_zero lowest && get_sign n then n
               else if (n <? lowest)%float then n else lowest) values lowest in
    m = lowest \/ In m values.
Proof.
  induction values as [|n values IH]; intros lowest; simpl; [now left|].
  match goal with |- context [fold_left _ values ?next] =>
    destruct (IH next) as [Hm|Hm]; [|right; now right]; cbv zeta in Hm; rewrite Hm
  end.
  destruct (is_zero n && is_zero lowest && get_sign n);
    [right; now left|].
  destruct (n <? lowest)%float; [right; now left|now left].
Qed.

Lemma max_fold_attained (values : list float) :
  forall highest,
    let m := fold_left (fun highest n =>
               if is_zero n && is_zero highest && negb (get_sign n) then n
               else if (highest <? n)%float then n else highest) values highest in
    m = highest \/ In m values.
Proof.
  induction values as [|n values IH]; intros highest; simpl; [now left|].
  match goal with |- context [fold_left _ values ?next] =>
    destruct (IH next) as [Hm|Hm]; [|right; now right]; cbv zeta in Hm; rewrite Hm
  end.
  destruct (is_zero n && is_zero highest && negb (get_sign n));
    [right; now left|].
  destruct (highest <? n)%float; [right; now left|now left].
Qed.

(** Only [Infinity] is not below [Infinity], and only [-Infinity] not above
    [-Infinity]. *)
Lemma not_below_infinity (v : float) :
  is_nan v = false -> (v <? infinity)%float = false -> v = infinity.
Proof.
  intros Hv. destruct (is_nan_spec v Hv) as [c Hc].
  rewrite ltb_spec. change (Prim2SF infinity) with (S754_infinity false).
  pose proof (SF2Prim_Prim2SF v) as Hsf.
  destruct (Prim2SF v) as [s|[|]| |s m e]; try discriminate;
    try (destruct s; discriminate).
  intros _. now rewrite <- Hsf.
Qed.

Lemma not_above_neg_infinity (v : float) :
  is_nan v = false -> (neg_infinity <? v)%float = false -> v = neg_infinity.
Proof.
  intros Hv. destruct (is_nan_spec v Hv) as [c Hc].
  rewrite ltb_spec. change (Prim2SF neg_infinity) with (S754_infinity true).
  pose proof (SF2Prim_Prim2SF v) as Hsf.
  destruct (Prim2SF v) as [s|[|]| |s m e]; try discriminate;
    try (destruct s; discriminate).
  intros _. now rewrite <- Hsf.
Qed.

(** [Math.min] of numbers, at least one of them, is a least one of them, and
    [Math.max] a greatest one. *)
Lemma Math_min_least (values : list float) :
  values <> [] -> forallb (fun v => negb (is_nan v)) values = true ->
  is_least (Math_min values) values.
Proof.
  intros Hne Hnn. unfold Math_min. rewrite (existsb_is_nan_false values Hnn).
  destruct (min_fold_lower_bound values infinity eq_refl Hnn) as (_ & _ & Hlo).
  destruct (min_fold_attained values infinity) as [Hm|Hm]; cbv zeta in *.
  - split; [|exact Hlo]. rewrite Hm in *.
    destruct values as [|v values]; [contradiction|].
    simpl in Hnn. apply andb_prop in Hnn as [Hv _]. apply negb_true_iff in Hv.
    left. apply not_below_infinity; [exact Hv|]. apply Hlo. now left.
  - split; [exact Hm|exact Hlo].
Qed.

Lemma Math_max_greatest (values : list float) :
  values <> [] -> forallb (fun v => negb (is_nan v)) values = true ->
  is_greatest (Math_max values) values.
Proof.
  intros Hne Hnn. unfold Math_max. rewrite (existsb_is_nan_false values Hnn).
  destruct (max_fold_upper_bound values neg_infinity eq_refl Hnn) as (_ & _ & Hhi).
  destruct (max_fold_attained values neg_infinity) as [Hm|Hm]; cbv zeta in *.
  - split; [|exact Hhi]. rewrite Hm in *.
    destruct values as [|v values]; [contradiction|].
    simpl in Hnn. apply andb_prop in Hnn as [Hv _]. apply negb_true_iff in Hv.
    left. apply not_above_neg_infinity; [exact Hv|]. apply Hhi. now left.
  - split; [exact Hm|exact Hhi].
Qed.

Section NumberStatistics.
Context `{JSRuntime}.

Lemma spread_call_ok (f : list float -> float) (values : list float) :
  spreadable values -> spread_call f values = Ret (f values).
Proof.
  unfold spreadable, spread_call. intros Hle.
  destruct (N.ltb_spec MaxArguments (N.of_nat (length values))); [lia|reflexivity].
Qed.

Lemma spread_call_over (f : list float -> float) (values : list float) :
  (MaxArguments < N.of_nat (length values))%N ->
  spread_call f values =
  Throw (JsError "RangeError" "Maximum call stack size exceeded").
Proof.
  unfold spread_call. intros Hlt.
  destruct (N.ltb_spec MaxArguments (N.of_nat (length values))); [reflexivity|lia].
Qed.

Lemma column_numbers_plain (data : list Row) (field : string) :
  forallb plain_row data = true ->
  exists values, column_numbers data field = Ret values /\
                 forallb (fun v => negb (is_nan v)) values = true /\
                 (length values <= length data)%nat.
Proof.
  intros Hplain. unfold column_numbers.
  destruct (mapM (fun row => ToNumber (row_get row field)) data) as [numbers|e] eqn:Hn.
  - rewrite outcome_fmap_Ret. eexists. split; [reflexivity|].
    split; [apply filter_not_nan|].
    rewrite <- (mapM_length _ _ _ Hn). apply List.filter_length_le.
  - exfalso.
    destruct (mapM_returns (fun row => ToNumber (row_get row field)) data) as [r Hr].
    { intros row Hrow. apply ToNumber_plain, plain_row_get.
      rewrite forallb_forall in Hplain. now apply Hplain. }
    rewrite Hn in Hr. discriminate.
Qed.

Lemma getFieldStats_number_run (data : list Row) (field : string)
      (values : list float) :
  column_numbers data field = Ret values ->
  getFieldStats data field "number" =
  (lowest ← spread_call Math_min values;
   highest ← spread_call Math_max values;
   Ret (NumberStats lowest highest
          (round2 (sum_values values / float_of_nat (length values))%float))).
Proof.
  unfold column_numbers, getFieldStats. simpl String.eqb. cbv iota.
  destruct (mapM (fun row => ToNumber (row_get row field)) data) as [numbers|e];
    [|discriminate].
  rewrite outcome_fmap_Ret, outcome_bind_Ret. now intros [= ->].
Qed.

(** X17.  For a numeric column of plain rows, let [values] be the values of
    the column that are numbers (not NaN after coercion).  When the engine
    can pass them all as arguments to [Math.min] and [Math.max],
    [getFieldStats] returns; no such value is below [min] or above [max],
    neither bound is NaN, and when there is at least one value [min] and
    [max] are values of the column.  When there are more values than the
    engine passes as arguments, [getFieldStats] throws a RangeError. *)
Theorem getFieldStats_number_bounds (data : list Row) (field : string) :
  forallb plain_row data = true ->
  exists values,
    column_numbers data field = Ret values /\
    (spreadable values ->
     exists lo hi avg,
       getFieldStats data field "number" = Ret (NumberStats lo hi avg) /\
       is_nan lo = false /\ is_nan hi = false /\
       (forall v, In v values ->
                  (v <? lo)%float = false /\ (hi <? v)%float = false) /\
       (values <> [] -> is_least lo values /\ is_greatest hi values)) /\
    ((MaxArguments < N.of_nat (length values))%N ->
     exists e, getFieldStats data field "number" = Throw e /\
               err_name e = "RangeError").
Proof.
  intros Hplain.
  destruct (column_numbers_plain data field Hplain) as (values & Hvals & Hnn & _).
  exists values. split; [exact Hvals|].
  rewrite (getFieldStats_number_run data field values Hvals). split.
  - intros Hfit. rewrite !spread_call_ok, !outcome_bind_Ret by exact Hfit.
    do 3 eexists. split; [reflexivity|].
    unfold Math_min at 1 2, Math_max at 1 2.
    rewrite (existsb_is_nan_false values Hnn).
    destruct (min_fold_lower_bound values infinity eq_refl Hnn) as (Hm & _ & Hlo).
    destruct (max_fold_upper_bound values neg_infinity eq_refl Hnn) as (HM & _ & Hhi).
    split; [exact Hm|]. split; [exact HM|]. split.
    + intros v Hv. split; [now apply Hlo|now apply Hhi].
    + intros Hne. split; [now apply Math_min_least|now apply Math_max_greatest].
  - intros Hover. rewrite !spread_call_over by exact Hover.
    eexists. split; reflexivity.
Qed.

(** X18.  When no value of the column is a number (an empty dataset, a
    missing field, text that does not parse), the numeric statistics are
    [min = Infinity], [max = -Infinity] and [avg = NaN]. *)
Theorem getFieldStats_number_no_values (data : list Row) (field : string) :
  column_numbers data field = Ret [] ->
  getFieldStats data field "number" = Ret (NumberStats infinity neg_infinity nan).
Proof.
  intros Hvals. rewrite (getFieldStats_number_run data field [] Hvals).
  rewrite !spread_call_ok by (unfold spreadable; simpl; lia).
  reflexivity.
Qed.

End NumberStatistics.

(* ===================================================================== *)
(** ** Aggregation: the values and the order of the result *)
(* ===================================================================== *)

Lemma sum_values_total (values : list float) : sum_values values = total values.
Proof.
  unfold sum_values, total. generalize 0%float.
  induction values as [|v values IH]; intros start; simpl; [reflexivity|apply IH].
Qed.

Lemma values_of_nonempty (k : string) (pairs : list (string * float)) :
  In k (map fst pairs) -> values_of k pairs <> [].
Proof.
  unfold values_of. induction pairs as [|[k' v] pairs IH]; simpl; [intros []|].
  intros [->|Hk].
  - now rewrite String.eqb_refl.
  - destruct (String.eqb k' k); [discriminate|now apply IH].
Qed.

Lemma values_of_not_nan (k : string) (pairs : list (string * float)) :
  (forall p, In p pairs -> is_nan (snd p) = false) ->
  forallb (fun v => negb (is_nan v)) (values_of k pairs) = true.
Proof.
  intros Hnn. apply forallb_forall. intros v Hv. unfold values_of in Hv.
  apply in_map_iff in Hv as (p & <- & Hp). apply List.filter_In in Hp as [Hp _].
  now rewrite (Hnn p Hp).
Qed.

Lemma values_of_length (k : string) (pairs : list (string * float)) :
  (length (values_of k pairs) <= length pairs)%nat.
Proof.
  unfold values_of. rewrite length_map. apply List.filter_length_le.
Qed.

(** The sign of a difference of two numbers is their order. *)
Lemma sign_of_sub (x y : float) :
  is_nan x = false -> is_nan y = false ->
  sign_of_float (y - x)%float =
  if (x <? y)%float then 1%Z else if (y <? x)%float then (-1)%Z else 0%Z.
Proof.
  intros Hx Hy. destruct (x <? y)%float eqn:Hxy.
  - destruct (ltb_sub_signs x y Hxy) as [[Hp Hn] _].
    unfold sign_of_float. now rewrite Hn, Hp.
  - destruct (y <? x)%float eqn:Hyx.
    + destruct (ltb_sub_signs y x Hyx) as [_ [Hn _]].
      unfold sign_of_float. now rewrite Hn.
    + apply sign_of_sub_eq.
      destruct (x =? y)%float eqn:Heq; [reflexivity|].
      rewrite (ltb_total x y Hx Hy Heq Hxy) in Hyx. discriminate.
Qed.

Lemma no_nan_value_In (l : list (string * float)) (e : string * float) :
  no_nan_value l = true -> In e l -> is_nan (snd e) = false.
Proof.
  unfold no_nan_value. rewrite forallb_forall. intros Hl He.
  apply negb_true_iff. now apply Hl.
Qed.

(** On entries whose values are numbers the comparator of [aggregateData] is
    consistent. *)
Lemma by_value_desc_consistent (l : list (string * float)) :
  no_nan_value l = true -> consistent by_value_desc l.
Proof.
  intros Hl.
  assert (Hsign : forall a b s, In a l -> In b l ->
            (cmp_is by_value_desc s a b <->
             s = if (snd a <? snd b)%float then Gt
                 else if (snd b <? snd a)%float then Lt else Eq)).
  { intros a b s Ha Hb. unfold cmp_is, by_value_desc.
    rewrite (sign_of_sub (snd a) (snd b)
               (no_nan_value_In l a Hl Ha) (no_nan_value_In l b Hl Hb)).
    split.
    - intros (c & [= <-] & <-).
      now destruct (snd a <? snd b)%float, (snd b <? snd a)%float.
    - intros ->. eexists. split; [reflexivity|].
      now destruct (snd a <? snd b)%float, (snd b <? snd a)%float. }
  constructor.
  - reflexivity.
  - intros a Ha. apply Hsign; auto. now rewrite ltb_irrefl.
  - intros a b Ha Hb Hab. apply Hsign in Hab; auto. apply Hsign; auto.
    destruct (snd a <? snd b)%float; [discriminate|].
    destruct (snd b <? snd a)%float; [discriminate|reflexivity].
  - intros s a b c Ha Hb Hc Hab Hbc.
    apply Hsign in Hab; auto. apply Hsign in Hbc; auto. apply Hsign; auto.
    pose proof (no_nan_value_In l b Hl Hb) as Hnb.
    destruct (snd a <? snd b)%float eqn:Eab.
    + subst s. destruct (snd b <? snd c)%float eqn:Ebc; [|now destruct (snd c <? snd b)%float].
      now rewrite (ltb_trans _ _ _ Eab Ebc).
    + destruct (snd b <? snd a)%float eqn:Eba.
      * subst s. destruct (snd b <? snd c)%float eqn:Ebc; [discriminate|].
        destruct (snd c <? snd b)%float eqn:Ecb; [|discriminate].
        pose proof (ltb_trans _ _ _ Ecb Eba) as Eca.
        now rewrite (ltb_asym _ _ Eca), Eca.
      * subst s. destruct (snd b <? snd c)%float eqn:Ebc; [discriminate|].
        destruct (snd c <? snd b)%float eqn:Ecb; [discriminate|].
        rewrite (leb_trans_float (snd c) (snd b) (snd a) Hnb Ebc Eab).
        now rewrite (leb_trans_float (snd a) (snd b) (snd c) Hnb Eba Ecb).
Qed.

Lemma in_order_not_below (l : list (string * float)) (a b : string * float) :
  no_nan_value l = true -> In a l -> In b l ->
  in_order by_value_desc a b -> not_below a b.
Proof.
  intros Hl Ha Hb (c & Hc & Hle). unfold by_value_desc in Hc. injection Hc as <-.
  rewrite (sign_of_sub (snd a) (snd b)
             (no_nan_value_In l a Hl Ha) (no_nan_value_In l b Hl Hb)) in Hle.
  unfold not_below. destruct (snd a <? snd b)%float; [lia|reflexivity].
Qed.

Section AggregationOrder.
Context `{JSRuntime}.

Lemma key_metric_pairs_not_nan
      (groupBy metric : string) (data : list Row) (pairs : list (string * float)) :
  mapM (key_metric groupBy metric) data = Ret pairs ->
  forall p, In p pairs -> is_nan (snd p) = false.
Proof.
  intros Hpairs. apply mapM_In in Hpairs.
  induction Hpairs as [|row [k n] data pairs Hrow _ IH]; intros p; [intros []|].
  intros [<-|Hp]; [|now apply IH].
  exact (proj1 (key_metric_value groupBy metric row k n Hrow)).
Qed.

(** On the metric values of a group the code's [switch] computes what the
    operation is to compute. *)
Lemma apply_operation_spec (operation : string) (values : list float) :
  mem operation known_operations = true ->
  values <> [] ->
  forallb (fun v => negb (is_nan v)) values = true ->
  (operation = "min" \/ operation = "max" -> spreadable values) ->
  exists raw, apply_operation operation values = Ret raw /\
              aggregate_of operation values raw.
Proof.
  intros Hop Hne Hnn Hfit. unfold apply_operation.
  unfold mem, known_operations in Hop. cbn [existsb] in Hop.
  destruct (String.eqb operation "sum") eqn:Esum.
  { apply String.eqb_eq in Esum. subst operation.
    eexists. split; [reflexivity|]. rewrite sum_values_total. constructor. }
  destruct (String.eqb operation "avg") eqn:Eavg.
  { apply String.eqb_eq in Eavg. subst operation.
    eexists. split; [reflexivity|]. rewrite sum_values_total. constructor. }
  destruct (String.eqb operation "count") eqn:Ecount.
  { apply String.eqb_eq in Ecount. subst operation.
    eexists. split; [reflexivity|]. constructor. }
  destruct (String.eqb operation "min") eqn:Emin.
  { apply String.eqb_eq in Emin. subst operation.
    rewrite spread_call_ok by (apply Hfit; now left).
    eexists. split; [reflexivity|]. constructor. now apply Math_min_least. }
  destruct (String.eqb operation "max") eqn:Emax.
  { apply String.eqb_eq in Emax. subst operation.
    rewrite spread_call_ok by (apply Hfit; now right).
    eexists. split; [reflexivity|]. constructor. now apply Math_max_greatest. }
  discriminate.
Qed.


End AggregationOrder.

(* ===================================================================== *)
(** ** More on the relay *)
(* ===================================================================== *)

Section MoreRelay.
Context `{JSRuntime}.
Variable backend : string -> msg -> outcome msg.
Variable contentWindow : window.

(** X19.  A message that is not a request (no protocol tag ["2.0"], or no
    [id]) is never answered and never reaches the backend, whatever its
    source and shape: [handleMessage] does nothing but write at most one log
    entry, and it returns when the method has a string form. *)
Theorem handleMessage_notification_silent (event : MessageEvent) :
  is_request (ev_data event) = false ->
  let run := handleMessage backend contentWindow event in
  posts (fst run) = [] /\ fetches (fst run) = [] /\
  forallb is_log (fst run) = true /\ (length (fst run) <= 1)%nat /\
  (msg_plain (member (ev_data event) "method") = true -> snd run = Ret tt).
Proof. exact (handleMessage_other backend contentWindow event). Qed.

(** X20.  A [ui/initialize] request is answered once, with the protocol
    version the view asked for, or ["2025-11-21"] when it named none (no
    params, no [protocolVersion], or an empty one); the status line is set
    to connected and the backend is not called. *)
Theorem handleMessage_initialize (event : MessageEvent) :
  ev_source event = contentWindow ->
  is_request (ev_data event) = true ->
  member (ev_data event) "method" = MStr "ui/initialize" ->
  let id := member (ev_data event) "id" in
  let params := member (ev_data event) "params" in
  let asked := member params "protocolVersion" in
  let version := if msg_truthy asked then asked else MStr "2025-11-21" in
  handleMessage backend contentWindow event =
  ([ELog LogRequest
      (MObj [("method", MStr "ui/initialize");
             ("params", if msg_truthy params then MStr "..." else MUndef)]);
    ESetStatus true "Connected";
    ELog LogResponse (MStr "OK");
    EPost contentWindow (mkResponse id (RpcResult (initialize_result version)))],
   Ret tt).
Proof.
  intros Hsrc Hreq Hmethod.
  rewrite (handleMessage_request backend contentWindow event Hsrc Hreq).
  cbv zeta. rewrite Hmethod, addLog_request. cbn [json_error].
  destruct (member (ev_data event) "params") as [ | | b|n|s|z|items|ps|ps];
    reflexivity.
Qed.

(** X21.  A [tools/call] request without params is answered once, with
    an error of code -32000 that carries the [TypeError] raised by reading
    [params.name]; the backend is not called. *)
Theorem handleMessage_tools_call_without_params (event : MessageEvent) :
  ev_source event = contentWindow ->
  is_request (ev_data event) = true ->
  member (ev_data event) "method" = MStr "tools/call" ->
  member (ev_data event) "params" = MUndef ->
  let id := member (ev_data event) "id" in
  let message :=
    "TypeError: Cannot read properties of undefined (reading 'name')" in
  handleMessage backend contentWindow event =
  ([ELog LogRequest (MObj [("method", MStr "tools/call"); ("params", MUndef)]);
    ELog LogError (MStr message);
    EPost contentWindow (mkResponse id (RpcError (-32000) message))],
   Ret tt).
Proof.
  intros Hsrc Hreq Hmethod Hparams.
  rewrite (handleMessage_request backend contentWindow event Hsrc Hreq).
  cbv zeta. rewrite Hmethod, Hparams. reflexivity.
Qed.

(** X22.  A [tools/call] request naming a tool by a string is relayed
    unchanged: the backend is called exactly once, with that name and with
    [params.arguments] (or [{}] when it is missing or falsy); the one
    response carries the backend's answer as the result, or, when the call
    failed, an error of code -32000 with the failure's text.  Arguments that
    [JSON.stringify] cannot serialise (a BigInt, a cyclic object), which no
    JSON text holds, are not relayed: the backend is not called and the one
    response is the error of code -32000 with the text of the TypeError. *)
Theorem handleMessage_tools_call_relays (event : MessageEvent) (name : string) :
  ev_source event = contentWindow ->
  is_request (ev_data event) = true ->
  member (ev_data event) "method" = MStr "tools/call" ->
  member (member (ev_data event) "params") "name" = MStr name ->
  let id := member (ev_data event) "id" in
  let args := tool_arguments (member (ev_data event) "params") in
  let tr := fst (handleMessage backend contentWindow event) in
  snd (handleMessage backend contentWindow event) = Ret tt /\
  match json_error args with
  | None =>
      fetches tr = [EFetch name args] /\
      posts tr =
        [EPost contentWindow
           (mkResponse id
              match backend name args with
              | Ret result => RpcResult result
              | Throw e => RpcError (-32000) (String_of_error e)
              end)]
  | Some e =>
      fetches tr = [] /\
      posts tr =
        [EPost contentWindow
           (mkResponse id (RpcError (-32000) (String_of_error e)))]
  end.
Proof.
  intros Hsrc Hreq Hmethod Hname. cbv zeta.
  assert (Hjson : json_error (member (ev_data event) "method") = None)
    by now rewrite Hmethod.
  destruct (handleMessage_request_outcome backend contentWindow event Hsrc Hreq Hjson)
    as (tr & body & Hrun & Hposts & Hbody & Hfetch & _).
  assert (Hget : get_member (member (ev_data event) "params") "name" = Ret (MStr name)).
  { destruct (member (ev_data event) "params"); try discriminate Hname;
      cbn [member get_member] in *; now rewrite Hname. }
  assert (Hstr : is_str (member (ev_data event) "method") "tools/call" = true)
    by now rewrite Hmethod.
  rewrite (handle_request_tools_call_run backend _ _ (MStr name) name Hstr Hget eq_refl)
    in Hbody, Hfetch.
  rewrite Hrun. cbn [fst snd]. split; [reflexivity|].
  destruct (json_error (tool_arguments (member (ev_data event) "params"))) as [e|];
    cbn [fst snd] in Hbody, Hfetch; (split; [exact Hfetch|]);
    now rewrite Hposts, Hbody.
Qed.

End MoreRelay.

(* ===================================================================== *)
(** ** The view *)
(* ===================================================================== *)

Section ViewFacts.
Context `{JSRuntime}.
Variable trim : string -> string.
Variable parseFloat : string -> float.

(** What one filter built by the view looks like. *)
Lemma collect_input_spec (filters : list Filter) (input : filter_input) :
  collect_input trim parseFloat filters input = filters \/
  exists f,
    collect_input trim parseFloat filters input = filters ++ [f] /\
    trim (in_value input) <> "" /\
    f_field f = in_field input /\
    ((f_operator f = "gte" \/ f_operator f = "lte") /\
     f_value f = VNum (parseFloat (trim (in_value input))) \/
     (f_operator f = "eq" \/ f_operator f = "contains") /\
     f_value f = VStr (trim (in_value input))).
Proof.
  unfold collect_input.
  destruct (String.eqb (trim (in_value input)) "") eqn:Hempty; [now left|].
  apply String.eqb_neq in Hempty.
  destruct (String.eqb (in_type input) "min");
    [right; eexists; split; [reflexivity|]; simpl; auto 10|].
  destruct (String.eqb (in_type input) "max");
    [right; eexists; split; [reflexivity|]; simpl; auto 10|].
  destruct (String.eqb (in_type input) "select");
    [right; eexists; split; [reflexivity|]; simpl; auto 10|].
  destruct (String.eqb (in_type input) "search");
    [right; eexists; split; [reflexivity|]; simpl; auto 10|].
  now left.
Qed.

Lemma collectFilters_fold (inputs : list filter_input) :
  forall filters,
    let out := fold_left (collect_input trim parseFloat) inputs filters in
    (length out <= length filters + length inputs)%nat /\
    (forall f, In f out ->
       In f filters \/
       exists input,
         In input inputs /\ trim (in_value input) <> "" /\
         f_field f = in_field input /\
         ((f_operator f = "gte" \/ f_operator f = "lte") /\
          f_value f = VNum (parseFloat (trim (in_value input))) \/
          (f_operator f = "eq" \/ f_operator f = "contains") /\
          f_value f = VStr (trim (in_value input)))).
Proof.
  induction inputs as [|input inputs IH]; intros filters; simpl.
  - split; [lia|]. intros f Hf. now left.
  - destruct (IH (collect_input trim parseFloat filters input)) as [Hlen Hin].
    destruct (collect_input_spec filters input) as [Hsame|(f & Hpush & Hf)].
    + rewrite Hsame in *. split; [lia|].
      intros g Hg. destruct (Hin g Hg) as [Hold|(i & Hi & Hrest)]; [now left|].
      right. exists i. split; [now right|exact Hrest].
    + rewrite Hpush in *. rewrite length_app in Hlen. simpl in Hlen. split; [lia|].
      intros g Hg. destruct (Hin g Hg) as [Hold|(i & Hi & Hrest)].
      * apply in_app_or in Hold as [Hold|[<-|[]]]; [now left|].
        right. exists input. split; [now left|exact Hf].
      * right. exists i. split; [now right|exact Hrest].
Qed.

(** X24.  [collectFilters] builds at most one filter per input and none
    for an input whose trimmed text is empty; every filter it builds is [gte]
    or [lte] with the number parsed from the text, or [eq] or [contains] with
    the trimmed text, on the field of its input.  The engine therefore never
    throws on these filters: on plain rows [applyFilters] returns. *)
Theorem collectFilters_safe (inputs : list filter_input) (rows : list Row) :
  forallb plain_row rows = true ->
  let filters := collectFilters trim parseFloat inputs in
  (length filters <= length inputs)%nat /\
  (forall f, In f filters ->
     exists input,
       In input inputs /\ trim (in_value input) <> "" /\
       f_field f = in_field input /\
       ((f_operator f = "gte" \/ f_operator f = "lte") /\
        f_value f = VNum (parseFloat (trim (in_value input))) \/
        (f_operator f = "eq" \/ f_operator f = "contains") /\
        f_value f = VStr (trim (in_value input)))) /\
  exists kept, filter_rows rows filters = Ret kept.
Proof.
  intros Hrows filters.
  destruct (collectFilters_fold inputs []) as [Hlen Hin].
  fold (collectFilters trim parseFloat inputs) in Hlen, Hin. fold filters in Hlen, Hin.
  assert (Hspec : forall f, In f filters ->
     exists input,
       In input inputs /\ trim (in_value input) <> "" /\
       f_field f = in_field input /\
       ((f_operator f = "gte" \/ f_operator f = "lte") /\
        f_value f = VNum (parseFloat (trim (in_value input))) \/
        (f_operator f = "eq" \/ f_operator f = "contains") /\
        f_value f = VStr (trim (in_value input)))).
  { intros f Hf. destruct (Hin f Hf) as [[]|Hi]. exact Hi. }
  split; [simpl in Hlen; lia|]. split; [exact Hspec|].
  assert (Hr : returns (filter_rows rows filters) = true).
  { apply filterM_returns. intros row Hrow.
    apply everyM_returns. intros f Hf.
    apply eval_filter_ok.
    - rewrite forallb_forall in Hrows. now apply Hrows.
    - destruct (Hspec f Hf) as (i & _ & _ & _ & [[Hop Hv]|[Hop Hv]]);
        unfold filter_ok; rewrite Hv; destruct Hop as [-> | ->]; reflexivity. }
  destruct (filter_rows rows filters) as [kept|e]; [now exists kept|discriminate].
Qed.

Lemma ceil_pages (tc p : Z) :
  (p < - ((- tc) / 50) - 1)%Z -> ((p + 1) * 50 < tc)%Z.
Proof.
  intros Hp.
  pose proof (Z.div_mod (- tc) 50 ltac:(lia)) as Hdm.
  pose proof (Z.mod_pos_bound (- tc) 50 ltac:(lia)) as Hmod.
  lia.
Qed.

(** X25.  A click on Next never shows an empty page: when the view's
    [totalCount] is that of the current query and the click is taken, the
    request made for the next page has an offset below [totalCount], and the
    engine answers it with at least one row and at most [pageSize]. *)
Theorem next_click_page_nonempty
  (st : server_state) (v v' : view_state) (ds : Dataset) (kept sorted : list Row) :
  assoc (currentDataset v) (datasets st) = Some ds ->
  filter_rows (rows_at st (ds_data ds)) (currentFilters v) = Ret kept ->
  match currentSort v with
  | Some sort => sort_rows kept sort
  | None => Ret kept
  end = Ret sorted ->
  totalCount v = Z.of_nat (length kept) ->
  (0 <= currentPage v)%Z ->
  next_click v = Some v' ->
  let offset := ((currentPage v + 1) * pageSize)%Z in
  (offset < totalCount v)%Z /\
  exists st' page hasMore,
    query_data (query_request v') st =
    (st', Ret (mkEnvelope (PQuery page (length kept) offset pageSize hasMore) false)) /\
    (0 < length page <= 50)%nat.
Proof.
  intros Hds Hkept Hsorted Htotal Hpage Hnext offset.
  unfold next_click in Hnext.
  destruct (currentPage v <? totalPages v - 1)%Z eqn:Hlt; [|discriminate].
  injection Hnext as <-. apply Z.ltb_lt in Hlt. unfold totalPages, pageSize in Hlt.
  pose proof (ceil_pages _ _ Hlt) as Hoff. fold pageSize in Hoff. fold offset in Hoff.
  split; [exact Hoff|].
  destruct (query_data_returns st (query_request (set_page v (currentPage v + 1)))
              ds kept sorted Hds Hkept Hsorted) as (st' & Hrun & Hlen).
  cbn [query_request set_page q_offset q_limit currentPage default from_option id]
    in Hrun.
  fold offset in Hrun. unfold offset, pageSize in *.
  rewrite js_slice_nonneg in Hrun by lia.
  eexists st', _, _. split; [exact Hrun|].
  rewrite length_firstn, length_skipn, Hlen. lia.
Qed.

End ViewFacts.

(* ===================================================================== *)
(** ** More on aggregation and on the schema *)
(* ===================================================================== *)

Section MoreAggregation.
Context `{JSRuntime}.

Lemma apply_operation_unknown (operation : string) (values : list float) :
  mem operation known_operations = false ->
  apply_operation operation values = Ret 0%float.
Proof.
  unfold mem, known_operations. simpl. intros Hk.
  repeat (apply orb_false_elim in Hk as [? Hk]).
  unfold apply_operation.
  now repeat match goal with Hm : String.eqb _ _ = false |- _ => rewrite Hm; clear Hm end.
Qed.

(** X26.  With an operation other than [sum], [avg], [count], [min] and
    [max], [aggregateData] does not fail: on plain rows it returns one entry
    per distinct group key, in order of first occurrence, each with the
    value 0. *)
Theorem aggregateData_unknown_operation
  (data : list Row) (groupBy metric operation : string) :
  forallb plain_row data = true ->
  mem operation known_operations = false ->
  exists pairs,
    mapM (key_metric groupBy metric) data = Ret pairs /\
    aggregateData data groupBy metric operation =
    Ret (map (fun g => (g, 0%float)) (first_occurrences (map fst pairs))).
Proof.
  intros Hplain Hop.
  destruct (mapM_returns (key_metric groupBy metric) data) as [pairs Hpairs].
  { intros row Hrow. apply key_metric_plain.
    rewrite forallb_forall in Hplain. now apply Hplain. }
  exists pairs. split; [exact Hpairs|].
  rewrite (aggregateData_run _ _ _ _ _ Hpairs).
  rewrite (mapM_Ret_map _ (fun g => (g, 0%float)))
    by (intros k _; now rewrite apply_operation_unknown).
  rewrite outcome_bind_Ret.
  apply js_sort_sorted_id. apply Sorted_all_related.
  intros a b Ha Hb.
  apply in_map_iff in Ha as (ka & <- & _). apply in_map_iff in Hb as (kb & <- & _).
  exists 0%Z. split; [reflexivity|lia].
Qed.

End MoreAggregation.

Section SchemaFacts.
Context `{JSRuntime}.

Lemma unique_set_plain (data : list Row) (field : string) :
  forallb plain_row data = true ->
  forall u, In u (unique_set data field) -> plain u = true.
Proof.
  intros Hplain u Hu.
  pose proof (fold_set_add_spec (map (fun row => row_get row field) data) [])
    as (Hfrom & _).
  cbv zeta in Hfrom. rewrite <- unique_set_fold in Hfrom.
  fold (unique_set data field) in Hfrom.
  destruct (Hfrom u Hu) as [[]|Hk].
  rewrite map_map in Hk. apply in_map_iff in Hk as (row & <- & Hrow).
  apply plain_set_key, plain_row_get.
  rewrite forallb_forall in Hplain. now apply Hplain.
Qed.

Lemma getFieldStats_returns (data : list Row) (field type : string) :
  forallb plain_row data = true ->
  spreadable data ->
  exists stats,
    getFieldStats data field type = Ret stats /\
    (String.eqb type "number" = false -> String.eqb type "string" = false ->
     stats = NoStats).
Proof.
  intros Hplain Hfit.
  destruct (String.eqb type "number") eqn:Hnum.
  - apply String.eqb_eq in Hnum. subst type.
    destruct (column_numbers_plain data field Hplain) as (values & Hvals & _ & Hlen).
    rewrite (getFieldStats_number_run data field values Hvals).
    rewrite !spread_call_ok by (unfold spreadable in *; lia).
    eexists. split; [reflexivity|discriminate].
  - unfold getFieldStats. rewrite Hnum.
    destruct (String.eqb type "string").
    + destruct (default_sort_plain (unique_set data field)
                  (unique_set_plain data field Hplain)) as (unique & Hsort & _).
      unfold getUniqueValues. fold (unique_set data field).
      rewrite Hsort, outcome_bind_Ret. eexists. split; [reflexivity|discriminate].
    + eexists. split; reflexivity.
Qed.


End SchemaFacts.

(* ===================================================================== *)
(** ** Further statements at concrete inputs *)
(* ===================================================================== *)

Lemma loadDatasets_lookup_witness :
  exists data,
    datasets_get "sales" (fst (loadDatasets example_disk empty_state)) =
    (fst (loadDatasets example_disk empty_state),
     Ret (Some (mkDataset "sales" "Sales records"
                          [("region", "string"); ("revenue", "number")] data))) /\
    rows_at (fst (loadDatasets example_disk empty_state)) data = sales_rows.
Proof.
  exact (loadDatasets_lookup example_disk ["movies.json"] ["weather.json"]
           "sales.json" sales_file eq_refl eq_refl
           ltac:(intros f d [<-|[]] Hr; vm_compute in Hr; discriminate Hr)).
Defined.

Lemma unknown_dataset_is_error_envelope_witness :
  call_tool (H := example_runtime) (CallGetSchema "movies") example_state =
  (example_state, Ret not_found) /\ env_isError not_found = true.
Proof.
  exact (proj1 (unknown_dataset_is_error_envelope (H := example_runtime)
                  example_state (CallGetSchema "movies") "movies" eq_refl) eq_refl).
Defined.

Lemma eval_filter_missing_field_witness :
  eval_filter (H := example_runtime) [("region", VStr "West")]
              (mkFilter "discount" "gte" (VNum 5%float)) = Ret false.
Proof.
  exact (proj1 (proj2 (proj2 (proj2
           (eval_filter_missing_field (H := example_runtime)
              [("region", VStr "West")] "discount" (VNum 5%float)
              eq_refl eq_refl eq_refl eq_refl))))).
Defined.

Lemma sort_rows_numeric_ordered_witness :
  exists out,
    sort_rows (H := example_runtime) sales_rows (mkSort "revenue" "asc") = Ret out /\
    Sorted.Sorted (key_le "revenue") out.
Proof.
  destruct (sort_rows_numeric_ordered (H := example_runtime) sales_rows
              "revenue" "asc" eq_refl) as (out & Hrun & _ & Hsorted).
  exists out. split; [exact Hrun|exact Hsorted].
Defined.

Lemma sort_rows_numeric_idempotent_witness :
  sort_rows (H := example_runtime)
    [ [("region", VStr "East"); ("revenue", VNum 250.5%float)];
      [("region", VStr "West"); ("revenue", VNum 100%float)];
      [("region", VStr "West"); ("revenue", VNum 40%float)] ]
    (mkSort "revenue" "desc") =
  Ret [ [("region", VStr "East"); ("revenue", VNum 250.5%float)];
        [("region", VStr "West"); ("revenue", VNum 100%float)];
        [("region", VStr "West"); ("revenue", VNum 40%float)] ].
Proof.
  exact (sort_rows_numeric_idempotent (H := example_runtime) sales_rows
           [ [("region", VStr "East"); ("revenue", VNum 250.5%float)];
             [("region", VStr "West"); ("revenue", VNum 100%float)];
             [("region", VStr "West"); ("revenue", VNum 40%float)] ]
           "revenue" "desc" eq_refl eq_refl).
Defined.

Lemma sort_rows_equal_keys_unchanged_witness :
  sort_rows (H := example_runtime)
    [ [("region", VStr "West"); ("revenue", VNum 100%float)];
      [("region", VStr "West"); ("revenue", VNum 40%float)] ]
    (mkSort "region" "desc") =
  Ret [ [("region", VStr "West"); ("revenue", VNum 100%float)];
        [("region", VStr "West"); ("revenue", VNum 40%float)] ].
Proof.
  exact (sort_rows_equal_keys_unchanged (H := example_runtime)
           [ [("region", VStr "West"); ("revenue", VNum 100%float)];
             [("region", VStr "West"); ("revenue", VNum 40%float)] ]
           "region" "desc" (VStr "West") eq_refl).
Defined.

Lemma query_data_pages_concatenate_witness :
  exists st1 st2 st3 page1 page2 more1 more2 more3,
    query_data (H := example_runtime)
      (mkQuery "sales" None None (Some 1%Z) (Some 0%Z)) example_state =
    (st1, Ret (mkEnvelope (PQuery page1 3 0 1 more1) false)) /\
    query_data (H := example_runtime)
      (mkQuery "sales" None None (Some 2%Z) (Some 1%Z)) example_state =
    (st2, Ret (mkEnvelope (PQuery page2 3 1 2 more2) false)) /\
    query_data (H := example_runtime)
      (mkQuery "sales" None None (Some 3%Z) (Some 0%Z)) example_state =
    (st3, Ret (mkEnvelope (PQuery (page1 ++ page2) 3 0 3 more3) false)).
Proof.
  exact (query_data_pages_concatenate (H := example_runtime) example_state
           "sales" None None 0 1 2 sales sales_rows sales_rows
           eq_refl eq_refl eq_refl ltac:(lia) ltac:(lia) ltac:(lia)).
Defined.

Lemma query_data_hasMore_meaning_witness :
  exists st' page hasMore,
    query_data (H := example_runtime)
      (mkQuery "sales" None None (Some 2%Z) (Some 0%Z)) example_state =
    (st', Ret (mkEnvelope (PQuery page 3 0 2 hasMore) false)) /\
    hasMore = (0 + Z.of_nat (length page) <? 3)%Z.
Proof.
  destruct (query_data_hasMore_meaning (H := example_runtime) example_state
              (mkQuery "sales" None None (Some 2%Z) (Some 0%Z))
              sales sales_rows sales_rows eq_refl eq_refl eq_refl
              ltac:(simpl; lia) ltac:(simpl; lia))
    as (st' & page & hasMore & Hrun & Hmore & _).
  exists st', page, hasMore. split; [exact Hrun|exact Hmore].
Defined.

Lemma query_data_negative_limit_drops_tail_witness :
  exists st',
    query_data (H := example_runtime)
      (mkQuery "sales" None None (Some (-1)%Z) (Some 0%Z)) example_state =
    (st', Ret (mkEnvelope (PQuery (firstn 2 sales_rows) 3 0 (-1) true) false)).
Proof.
  exact (query_data_negative_limit_drops_tail (H := example_runtime) example_state
           "sales" None None 1 sales sales_rows sales_rows
           eq_refl eq_refl eq_refl ltac:(simpl; lia)).
Defined.

Lemma export_json_matches_query_witness :
  exists st1 st2,
    export_data (H := example_runtime)
      (mkExport "sales" (Some [west_filter]) None) example_state =
    (st1, Ret (mkEnvelope
                 (PExport "json" 2
                    (JsonText [ [("region", VStr "West"); ("revenue", VNum 100%float)];
                                [("region", VStr "West"); ("revenue", VNum 40%float)] ]))
                 false)) /\
    query_data (H := example_runtime)
      (mkQuery "sales" (Some [west_filter]) None (Some 10%Z) (Some 0%Z))
      example_state =
    (st2, Ret (mkEnvelope
                 (PQuery [ [("region", VStr "West"); ("revenue", VNum 100%float)];
                           [("region", VStr "West"); ("revenue", VNum 40%float)] ]
                         2 0 10 false) false)).
Proof.
  exact (export_json_matches_query (H := example_runtime) example_state
           "sales" (Some [west_filter]) None 10 sales
           [ [("region", VStr "West"); ("revenue", VNum 100%float)];
             [("region", VStr "West"); ("revenue", VNum 40%float)] ]
           eq_refl eq_refl eq_refl ltac:(simpl; lia)).
Defined.

Lemma export_csv_shape_witness :
  exists st' cells,
    export_data (H := example_runtime)
      (mkExport "sales" None (Some "csv")) example_state =
    (st', Ret (mkEnvelope
                 (PExport "csv" 3
                    (CsvText (String.concat newline
                                ("region,revenue" ::
                                 map (String.concat ",") cells)))) false)) /\
    length cells = 3%nat.
Proof.
  destruct (export_csv_shape (H := example_runtime) example_state
              "sales" None sales sales_rows eq_refl eq_refl eq_refl)
    as (st' & cells & Hrun & _ & Hlen & _).
  exists st', cells. split; [exact Hrun|exact Hlen].
Defined.

Lemma getFieldStats_string_witness :
  exists unique,
    getFieldStats (H := example_runtime) sales_rows "region" "string" =
      Ret (StringStats (length unique) (firstn 50 unique)) /\
    (length unique <= 3)%nat.
Proof.
  destruct (getFieldStats_string (H := example_runtime) sales_rows "region" eq_refl)
    as (unique & _ & Hstats & _ & Hlen & _).
  exists unique. split; [exact Hstats|exact Hlen].
Defined.

Lemma getFieldStats_number_bounds_witness :
  exists lo hi avg,
    getFieldStats (H := example_runtime) sales_rows "revenue" "number" =
      Ret (NumberStats lo hi avg) /\
    is_nan lo = false /\ is_nan hi = false /\
    is_least lo [100; 250.5; 40]%float.
Proof.
  destruct (getFieldStats_number_bounds (H := example_runtime) sales_rows
              "revenue" eq_refl)
    as (values & Hvalues & Hfit & _).
  vm_compute in Hvalues. injection Hvalues as Hvalues. subst values.
  destruct Hfit as (lo & hi & avg & Hstats & Hlo & Hhi & _ & Hleast).
  { unfold spreadable. vm_compute. discriminate. }
  exists lo, hi, avg. split; [exact Hstats|]. split; [exact Hlo|].
  split; [exact Hhi|]. now apply Hleast.
Defined.

Lemma getFieldStats_number_no_values_witness :
  getFieldStats (H := example_runtime) sales_rows "discount" "number" =
  Ret (NumberStats infinity neg_infinity nan).
Proof.
  exact (getFieldStats_number_no_values (H := example_runtime) sales_rows
           "discount" eq_refl).
Defined.

Lemma handleMessage_notification_silent_witness :
  posts (fst (handleMessage (H := example_runtime) echo_backend 7
                (mkEvent 7 initialized_notification))) = [] /\
  fetches (fst (handleMessage (H := example_runtime) echo_backend 7
                  (mkEvent 7 initialized_notification))) = [].
Proof.
  destruct (handleMessage_notification_silent (H := example_runtime) echo_backend 7
              (mkEvent 7 initialized_notification) eq_refl)
    as (Hposts & Hfetches & _).
  split; [exact Hposts|exact Hfetches].
Defined.

Lemma handleMessage_initialize_witness :
  handleMessage (H := example_runtime) echo_backend 7
                (mkEvent 7 initialize_request) =
  ([ELog LogRequest
      (MObj [("method", MStr "ui/initialize"); ("params", MStr "...")]);
    ESetStatus true "Connected";
    ELog LogResponse (MStr "OK");
    EPost 7 (mkResponse (MNum 1%float)
                        (RpcResult (initialize_result (MStr "2025-06-18"))))],
   Ret tt).
Proof.
  exact (handleMessage_initialize (H := example_runtime) echo_backend 7
           (mkEvent 7 initialize_request) eq_refl eq_refl eq_refl).
Defined.

Lemma handleMessage_tools_call_without_params_witness :
  handleMessage (H := example_runtime) echo_backend 7
                (mkEvent 7 tools_call_without_params) =
  ([ELog LogRequest (MObj [("method", MStr "tools/call"); ("params", MUndef)]);
    ELog LogError
      (MStr "TypeError: Cannot read properties of undefined (reading 'name')");
    EPost 7 (mkResponse (MNum 2%float)
               (RpcError (-32000)
                  "TypeError: Cannot read properties of undefined (reading 'name')"))],
   Ret tt).
Proof.
  exact (handleMessage_tools_call_without_params (H := example_runtime)
           echo_backend 7 (mkEvent 7 tools_call_without_params)
           eq_refl eq_refl eq_refl eq_refl).
Defined.

Lemma handleMessage_tools_call_relays_witness :
  snd (handleMessage (H := example_runtime) echo_backend 7
         (mkEvent 7 tools_call_request)) = Ret tt /\
  fetches (fst (handleMessage (H := example_runtime) echo_backend 7
                  (mkEvent 7 tools_call_request))) =
    [EFetch "list-datasets" (MObj [])] /\
  posts (fst (handleMessage (H := example_runtime) echo_backend 7
                (mkEvent 7 tools_call_request))) =
    [EPost 7 (mkResponse (MStr "42") (RpcResult (MObj [])))].
Proof.
  exact (handleMessage_tools_call_relays (H := example_runtime) echo_backend 7
           (mkEvent 7 tools_call_request) "list-datasets"
           eq_refl eq_refl eq_refl eq_refl).
Defined.

Lemma collectFilters_safe_witness :
  (length (collectFilters example_trim example_parseFloat filter_panel) <= 4)%nat /\
  exists kept,
    filter_rows (H := example_runtime) sales_rows
      (collectFilters example_trim example_parseFloat filter_panel) = Ret kept.
Proof.
  destruct (collectFilters_safe (H := example_runtime) example_trim
              example_parseFloat filter_panel sales_rows eq_refl)
    as (Hlen & _ & Hkept).
  split; [exact Hlen|exact Hkept].
Defined.

Lemma next_click_page_nonempty_witness :
  (50 < 51)%Z /\
  exists st' page hasMore,
    query_data (H := example_runtime)
      (query_request (set_page first_page 1)) many_state =
    (st', Ret (mkEnvelope (PQuery page 51 50 50 hasMore) false)) /\
    (0 < length page <= 50)%nat.
Proof.
  exact (next_click_page_nonempty (H := example_runtime) many_state first_page
           (set_page first_page 1) many many_rows many_rows
           eq_refl eq_refl eq_refl eq_refl ltac:(simpl; lia) eq_refl).
Defined.

Lemma aggregateData_unknown_operation_witness :
  exists pairs,
    mapM (key_metric (H := example_runtime) "region" "revenue") region_revenue =
      Ret pairs /\
    aggregateData (H := example_runtime) region_revenue "region" "revenue" "median" =
      Ret (map (fun g => (g, 0%float)) (first_occurrences (map fst pairs))).
Proof.
  exact (aggregateData_unknown_operation (H := example_runtime) region_revenue
           "region" "revenue" "median" eq_refl eq_refl).
Defined.




Lemma sortData_consistent_stable_witness :
  exists st' out,
    sortData (H := example_runtime) 0 (mkSort "revenue" "desc") example_state =
      (st', Ret out) /\
    Sorted.StronglySorted
      (in_order (sort_compare (H := example_runtime) (mkSort "revenue" "desc")))
      (rows_at st' out) /\
    Permutation sales_rows (rows_at st' out).
Proof.
  destruct (sortData_consistent_stable (H := example_runtime)
              example_state 0 "revenue" "desc") as (Hsort & _ & Hnum & _).
  destruct (Hsort (Hnum eq_refl)) as (st' & out & Hrun & Hperm & Hsorted & _).
  exists st', out. split; [exact Hrun|]. split; [exact Hsorted|exact Hperm].
Defined.

(** With a row that lacks the sort field between two rows of equal key, the
    descending comparator puts the first row before the second and the
    second before the first: it is not consistent, the language leaves the
    order to the engine, and the reversed list, in which the two rows of
    equal key have changed places, is a result that conforms. *)
Lemma sortData_gap_rows_reversed :
  let cmp := sort_compare (H := example_runtime) (mkSort "v" "desc") in
  let r0 := [("id", VNum 0%float); ("v", VNum 1%float)] in
  let r1 := [("id", VNum 1%float)] in
  let r2 := [("id", VNum 2%float); ("v", VNum 1%float)] in
  gap_rows = [r0; r1; r2] /\
  forallb plain_row gap_rows = true /\
  cmp r0 r1 = Ret (-1)%Z /\ cmp r1 r0 = Ret (-1)%Z /\
  cmp r1 r2 = Ret (-1)%Z /\ cmp r2 r1 = Ret (-1)%Z /\
  same_key "v" (VNum 1%float) r0 = true /\
  same_key "v" (VNum 1%float) r2 = true /\
  conforming_sort cmp gap_rows [r2; r1; r0] /\
  List.filter (same_key "v" (VNum 1%float)) gap_rows = [r0; r2] /\
  List.filter (same_key "v" (VNum 1%float)) [r2; r1; r0] = [r2; r0].
Proof.
  cbv zeta. repeat (split; [reflexivity|]).
  split; [|split; reflexivity]. split.
  - change gap_rows with (rev [ [("id", VNum 2%float); ("v", VNum 1%float)];
                                [("id", VNum 1%float)];
                                [("id", VNum 0%float); ("v", VNum 1%float)] ]).
    symmetry. apply Permutation_rev.
  - intros Hcons. exfalso.
    assert (Hlt : cmp_is (sort_compare (H := example_runtime) (mkSort "v" "desc")) Lt
                    [("id", VNum 0%float); ("v", VNum 1%float)]
                    [("id", VNum 1%float)])
      by (eexists; split; reflexivity).
    apply (consistent_antisym _ _ _ _ Hcons) in Hlt; try (simpl; tauto).
    destruct Hlt as (c & Hc & Hs). injection Hc as <-. discriminate Hs.
Qed.

